(** * BugBuster 3000: the per-channel queue and the streaming reasoning loop

    A shallow embedding of [AgentSDKManager] (src/services/bugbuster-manager.js,
    the revision with [messageContent] and the Google Meet rules): the string
    tests of the [SILENT] sentinel, the tool loop of [_processMessage], the
    session store with its inactivity timer, and [sendMessage] with its
    processing lock and message queue, run by an explicit event loop. *)

From Stdlib Require Import Ascii String ZArith QArith Lia Lqa.
From stdpp Require Import base strings list gmap.

Local Open Scope string_scope.
Local Open Scope list_scope.

(** ** JavaScript string primitives

    Strings are sequences of code units; the model covers the ASCII range:
    [toUpperCase] maps a..z and leaves every other unit alone, and white space
    is TAB, LF, VT, FF, CR and SPACE. *)

Module JsString.

Definition isWhiteSpace (c : ascii) : bool :=
  let n := nat_of_ascii c in
  Nat.eqb n 9 || Nat.eqb n 10 || Nat.eqb n 11 || Nat.eqb n 12 || Nat.eqb n 13 || Nat.eqb n 32.

Fixpoint trimStart (s : string) : string :=
  match s with
  | String c s' => if isWhiteSpace c then trimStart s' else s
  | EmptyString => EmptyString
  end.

Fixpoint trimEnd (s : string) : string :=
  match s with
  | EmptyString => EmptyString
  | String c s' =>
      match trimEnd s' with
      | EmptyString => if isWhiteSpace c then EmptyString else String c EmptyString
      | t => String c t
      end
  end.

Definition trim (s : string) : string := trimEnd (trimStart s).

Definition upperUnit (c : ascii) : ascii :=
  let n := nat_of_ascii c in
  if Nat.leb 97 n && Nat.leb n 122 then ascii_of_nat (n - 32) else c.

Fixpoint toUpperCase (s : string) : string :=
  match s with
  | EmptyString => EmptyString
  | String c s' => String (upperUnit c) (toUpperCase s')
  end.

(** [s.includes(sub)] *)
Fixpoint includes (s sub : string) : bool :=
  String.prefix sub s ||
  match s with
  | EmptyString => false
  | String _ s' => includes s' sub
  end.

(** [s.startsWith(p)] *)
Definition startsWith (s p : string) : bool := String.prefix p s.

(** A string used as a condition: the empty string is falsy. *)
Definition truthy (s : string) : bool := negb (String.eqb s EmptyString).

End JsString.

(** ** Messages, content blocks and model responses *)

Record ToolUseBlock := {
  id : string;
  name : string;
  input : string;
}.

Inductive Block :=
| Text (text : string)                                   (* type: 'text' *)
| ToolUse (call : ToolUseBlock)                          (* type: 'tool_use' *)
| ToolResult (tool_use_id content : string) (is_error : bool) (* type: 'tool_result' *)
| Image (data : string).                                 (* type: 'image' *)

Inductive Role := user | assistant.

Inductive Content :=
| Plain (s : string)
| Blocks (bs : list Block).

Record Message := {
  role : Role;
  content : Content;
}.

Record Usage := {
  input_tokens : N;
  output_tokens : N;
}.

Record Response := {
  response_content : list Block;
  usage : Usage;
}.

(** An awaited call either returns or throws an error with a message. *)
Inductive Result (A : Type) :=
| Ok (a : A)
| Throw (message : string).
Arguments Ok {A} a.
Arguments Throw {A} message.

(** ** The collaborators of the manager

    The Anthropic client, the tool registry, the Cliq webhook and the Meet bot
    manager are outside the manager. They act on a world [W] of their own. *)

Record Collaborators (W : Type) := {
  (* client.messages.create({ system, messages, tools, ... }) *)
  messages_create : string -> list Message -> W -> Result Response * W;
  (* executeTool(name, input, { channelId }) *)
  executeTool : string -> string -> string -> W -> Result string * W;
  (* sendViaWebhook(channelId, channelName, text) *)
  sendViaWebhook : string -> string -> string -> W -> Result unit * W;
  (* meetBotManager.isChannelInMeeting(channelId) *)
  isChannelInMeeting : string -> W -> bool * W;
}.
Arguments messages_create {W} _ _ _ _.
Arguments executeTool {W} _ _ _ _ _.
Arguments sendViaWebhook {W} _ _ _ _ _.
Arguments isChannelInMeeting {W} _ _ _.

(** The calls a run makes to its collaborators, in order. *)
Inductive Effect :=
| ModelCall (system : string) (messages : list Message)
| ToolCall (name input channelId : string)
| WebhookCall (channelId channelName text : string).

(** ** The reasoning loop of [_processMessage] *)

Module Loop.
Import JsString.

Definition MAX_TOOL_ROUNDS : nat := 50.

Definition SILENT : string := "[SILENT]".

(** The local variables of a run, with the world and the calls made so far. *)
Record Frame (W : Type) := {
  history : list Message;
  assistantText : string;
  trace : list Effect;
  world : W;
}.
Arguments history {W} _.
Arguments assistantText {W} _.
Arguments trace {W} _.
Arguments world {W} _.

Section WithCollaborators.
Context {W : Type} (C : Collaborators W).

Definition push (m : Message) (f : Frame W) : Frame W :=
  {| history := history f ++ [m]; assistantText := assistantText f;
     trace := trace f; world := world f |}.

Definition record (e : Effect) (w : W) (f : Frame W) : Frame W :=
  {| history := history f; assistantText := assistantText f;
     trace := trace f ++ [e]; world := w |}.

(** The body of [for (const block of response.content)] for one block. *)
Definition emit_block (channelNames : gmap string string) (channelId : string)
    (block : Block) (f : Frame W) : Frame W :=
  match block with
  | Text text =>
      if truthy (trim text) then
        let trimmedText := trim text in
        let f := {| history := history f;
                    assistantText := assistantText f +:+ text;
                    trace := trace f; world := world f |} in
        if String.eqb (toUpperCase trimmedText) SILENT then f
        else if includes (toUpperCase trimmedText) SILENT then f
        else
          match channelNames !! channelId with
          | Some storedChannelName =>
              if truthy storedChannelName then
                let '(isInMeeting, w) := isChannelInMeeting C channelId (world f) in
                if isInMeeting then
                  {| history := history f; assistantText := assistantText f;
                     trace := trace f; world := w |}
                else
                  (* try { await sendViaWebhook(...) } catch { log } *)
                  let '(_, w') := sendViaWebhook C channelId storedChannelName trimmedText w in
                  record (WebhookCall channelId storedChannelName trimmedText) w' f
              else f
          | None => f
          end
      else f
  | _ => f
  end.

Definition emit_blocks (channelNames : gmap string string) (channelId : string)
    (blocks : list Block) (f : Frame W) : Frame W :=
  fold_left (fun f block => emit_block channelNames channelId block f) blocks f.

(** [response.content.filter(block => block.type === 'tool_use')] *)
Definition toolCallsOf (blocks : list Block) : list ToolUseBlock :=
  omap (fun b => match b with ToolUse call => Some call | _ => None end) blocks.

(** [for (const toolCall of toolCalls)] with its try/catch. *)
Fixpoint execute_tools (channelId : string) (toolCalls : list ToolUseBlock)
    (toolResults : list Block) (f : Frame W) : list Block * Frame W :=
  match toolCalls with
  | [] => (toolResults, f)
  | toolCall :: rest =>
      let '(r, w) := executeTool C (name toolCall) (input toolCall) channelId (world f) in
      let f' := record (ToolCall (name toolCall) (input toolCall) channelId) w f in
      match r with
      | Ok result =>
          execute_tools channelId rest
            (toolResults ++ [ToolResult (id toolCall) result false]) f'
      | Throw message =>
          execute_tools channelId rest
            (toolResults ++ [ToolResult (id toolCall) ("Error: " +:+ message) true]) f'
      end
  end.

(** [while (toolRound < MAX_TOOL_ROUNDS)]: [remaining] is
    [MAX_TOOL_ROUNDS - toolRound], so the loop is left when it reaches 0.
    The result is the frame, and either the last response with the final
    value of [toolRound] or the error thrown by the model call. *)
Fixpoint tool_rounds (thisSystemPrompt : string) (channelNames : gmap string string)
    (channelId : string) (remaining toolRound : nat) (response : Response)
    (f : Frame W) : Frame W * Result (Response * nat) :=
  match remaining with
  | O => (f, Ok (response, toolRound))
  | S remaining' =>
      let f := emit_blocks channelNames channelId (response_content response) f in
      let toolCalls := toolCallsOf (response_content response) in
      if Nat.eqb (length toolCalls) 0 then (f, Ok (response, toolRound))
      else
        let f := push {| role := assistant; content := Blocks (response_content response) |} f in
        let '(toolResults, f) := execute_tools channelId toolCalls [] f in
        let f := push {| role := user; content := Blocks toolResults |} f in
        let '(r, w) := messages_create C thisSystemPrompt (history f) (world f) in
        let f := record (ModelCall thisSystemPrompt (history f)) w f in
        match r with
        | Throw message => (f, Throw message)
        | Ok response' =>
            tool_rounds thisSystemPrompt channelNames channelId
              remaining' (S toolRound) response' f
        end
  end.

(** What a finished run hands back: the returned text, the response whose
    usage is priced, and the number of tool rounds done. *)
Record Answer := {
  answer_text : string;
  answer_response : Response;
  answer_rounds : nat;
}.

(** [_processMessage] from its first model call on: the frame holds the
    history with the user message already pushed. *)
Definition run_model (thisSystemPrompt systemPrompt : string)
    (channelNames : gmap string string) (channelId : string)
    (f : Frame W) : Frame W * Result Answer :=
  let '(r, w) := messages_create C systemPrompt (history f) (world f) in
  let f := record (ModelCall systemPrompt (history f)) w f in
  match r with
  | Throw message => (f, Throw message)
  | Ok response =>
      match tool_rounds thisSystemPrompt channelNames channelId MAX_TOOL_ROUNDS 0 response f with
      | (f, Throw message) => (f, Throw message)
      | (f, Ok (response, toolRound)) =>
          let f := push {| role := assistant; content := Blocks (response_content response) |} f in
          (f, Ok {| answer_text := assistantText f;
                    answer_response := response;
                    answer_rounds := toolRound |})
      end
  end.

End WithCollaborators.

(** The calls to the model and to the webhook in a trace. *)
Definition modelCalls (t : list Effect) : list (string * list Message) :=
  omap (fun e => match e with ModelCall s m => Some (s, m) | _ => None end) t.


End Loop.

(** ** The manager: session store, processing lock, message queue

    The fields of [AgentSDKManager] together with the part of the JavaScript
    run time the manager relies on: the arrays it holds references to, the
    promises it hands out, the suspended runs, the [setImmediate] callbacks,
    the continuations waiting on a promise, and the clock.

    A run is split where the source suspends for the first time: everything
    [sendMessage] and [_processMessage] do before the first
    [await client.messages.create] happens in the step that starts the run;
    the rest of the run is one later step, [Finish]. Other steps can come
    between the two. *)

Module Manager.
Import JsString Loop.

Definition INACTIVITY_TIMEOUT_MS : Z := 30 * 60 * 1000.

(** The rules appended to the system prompt of a Google Meet channel; only the
    heading is kept, the text plays no role in what follows. *)
Definition GOOGLE_MEET_RULES : string := "## GOOGLE MEET RULES (CRITICAL!)".

Record Stats := {
  totalCost : Q;
  messageCount : Z;
  createdAt : option Z;        (* absent or null: None *)
  lastActivityAt : option Z;
}.

(** An entry of a message queue; [resolve] names the promise it settles. *)
Record QueueEntry := {
  userMessage : string;
  channelName : option string;
  messageContent : option (list Block);
  resolve : nat;
}.

Inductive Settled :=
| Pending
| Fulfilled (value : string)
| Rejected (reason : string).

(** Where a promise comes from: the [async] call that runs the message
    itself, or [new Promise((resolve) => ...)] on the queueing path. *)
Inductive Origin := OfRun | OfQueue.

Record Promise := {
  origin : Origin;
  settled : Settled;
}.

(** A call of [sendMessage] suspended inside [_processMessage]. *)
Record Run := {
  run_channelId : string;
  run_history : nat;            (* the array [history] refers to *)
  run_systemPrompt : string;    (* the local [systemPrompt] *)
  run_promise : nat;            (* the promise of this [sendMessage] call *)
  run_started : Z;              (* when it started; kept for the statements only *)
}.

Record State (W : Type) := {
  conversationHistory : gmap string nat;
  sessionStats : gmap string Stats;
  inactivityTimers : gmap string Z;          (* when the timer fires *)
  processingLocks : gmap string bool;
  messageQueues : gmap string (list QueueEntry);
  channelNames : gmap string string;
  systemPrompt : string;
  arrays : list (list Message);              (* history arrays, by reference *)
  promises : list Promise;
  running : list Run;
  immediates : list (string * QueueEntry);   (* setImmediate callbacks *)
  awaiting : list (nat * nat);               (* awaited promise, entry's promise *)
  now : Z;
  outside : W;
}.
Arguments conversationHistory {W} _.
Arguments sessionStats {W} _.
Arguments inactivityTimers {W} _.
Arguments processingLocks {W} _.
Arguments messageQueues {W} _.
Arguments channelNames {W} _.
Arguments systemPrompt {W} _.
Arguments arrays {W} _.
Arguments promises {W} _.
Arguments running {W} _.
Arguments immediates {W} _.
Arguments awaiting {W} _.
Arguments now {W} _.
Arguments outside {W} _.

Section Updates.
Context {W : Type}.
Implicit Type s : State W.

Definition set_conversationHistory v s : State W :=
  Build_State W v (sessionStats s) (inactivityTimers s) (processingLocks s)
    (messageQueues s) (channelNames s) (systemPrompt s) (arrays s) (promises s)
    (running s) (immediates s) (awaiting s) (now s) (outside s).
Definition set_sessionStats v s : State W :=
  Build_State W (conversationHistory s) v (inactivityTimers s) (processingLocks s)
    (messageQueues s) (channelNames s) (systemPrompt s) (arrays s) (promises s)
    (running s) (immediates s) (awaiting s) (now s) (outside s).
Definition set_inactivityTimers v s : State W :=
  Build_State W (conversationHistory s) (sessionStats s) v (processingLocks s)
    (messageQueues s) (channelNames s) (systemPrompt s) (arrays s) (promises s)
    (running s) (immediates s) (awaiting s) (now s) (outside s).
Definition set_processingLocks v s : State W :=
  Build_State W (conversationHistory s) (sessionStats s) (inactivityTimers s) v
    (messageQueues s) (channelNames s) (systemPrompt s) (arrays s) (promises s)
    (running s) (immediates s) (awaiting s) (now s) (outside s).
Definition set_messageQueues v s : State W :=
  Build_State W (conversationHistory s) (sessionStats s) (inactivityTimers s)
    (processingLocks s) v (channelNames s) (systemPrompt s) (arrays s) (promises s)
    (running s) (immediates s) (awaiting s) (now s) (outside s).
Definition set_channelNames v s : State W :=
  Build_State W (conversationHistory s) (sessionStats s) (inactivityTimers s)
    (processingLocks s) (messageQueues s) v (systemPrompt s) (arrays s) (promises s)
    (running s) (immediates s) (awaiting s) (now s) (outside s).
Definition set_arrays v s : State W :=
  Build_State W (conversationHistory s) (sessionStats s) (inactivityTimers s)
    (processingLocks s) (messageQueues s) (channelNames s) (systemPrompt s) v
    (promises s) (running s) (immediates s) (awaiting s) (now s) (outside s).
Definition set_promises v s : State W :=
  Build_State W (conversationHistory s) (sessionStats s) (inactivityTimers s)
    (processingLocks s) (messageQueues s) (channelNames s) (systemPrompt s)
    (arrays s) v (running s) (immediates s) (awaiting s) (now s) (outside s).
Definition set_running v s : State W :=
  Build_State W (conversationHistory s) (sessionStats s) (inactivityTimers s)
    (processingLocks s) (messageQueues s) (channelNames s) (systemPrompt s)
    (arrays s) (promises s) v (immediates s) (awaiting s) (now s) (outside s).
Definition set_immediates v s : State W :=
  Build_State W (conversationHistory s) (sessionStats s) (inactivityTimers s)
    (processingLocks s) (messageQueues s) (channelNames s) (systemPrompt s)
    (arrays s) (promises s) (running s) v (awaiting s) (now s) (outside s).
Definition set_awaiting v s : State W :=
  Build_State W (conversationHistory s) (sessionStats s) (inactivityTimers s)
    (processingLocks s) (messageQueues s) (channelNames s) (systemPrompt s)
    (arrays s) (promises s) (running s) (immediates s) v (now s) (outside s).
Definition set_now v s : State W :=
  Build_State W (conversationHistory s) (sessionStats s) (inactivityTimers s)
    (processingLocks s) (messageQueues s) (channelNames s) (systemPrompt s)
    (arrays s) (promises s) (running s) (immediates s) (awaiting s) v (outside s).
Definition set_outside v s : State W :=
  Build_State W (conversationHistory s) (sessionStats s) (inactivityTimers s)
    (processingLocks s) (messageQueues s) (channelNames s) (systemPrompt s)
    (arrays s) (promises s) (running s) (immediates s) (awaiting s) (now s) v.

(** A fresh manager, as the constructor leaves it. *)
Definition init (prompt : string) (w : W) : State W :=
  Build_State W ∅ ∅ ∅ ∅ ∅ ∅ prompt [] [] [] [] [] 0%Z w.

(** *** Session store *)

Definition resetInactivityTimer (channelId : string) s : State W :=
  let s :=
    match sessionStats s !! channelId with
    | Some stats =>
        set_sessionStats
          (<[channelId := {| totalCost := totalCost stats;
                             messageCount := messageCount stats;
                             createdAt := createdAt stats;
                             lastActivityAt := Some (now s) |}]> (sessionStats s)) s
    | None => s
    end in
  (* clearTimeout of the timer in place, then setTimeout *)
  set_inactivityTimers
    (<[channelId := (now s + INACTIVITY_TIMEOUT_MS)%Z]> (inactivityTimers s)) s.

(** Returns the reference of the channel's history array. *)
Definition getOrInitHistory (channelId : string) s : nat * State W :=
  match conversationHistory s !! channelId with
  | None =>
      let ref := length (arrays s) in
      let s := set_arrays (arrays s ++ [[]]) s in
      let s := set_conversationHistory (<[channelId := ref]> (conversationHistory s)) s in
      let s := set_sessionStats
                 (<[channelId := {| totalCost := 0; messageCount := 0;
                                    createdAt := Some (now s);
                                    lastActivityAt := Some (now s) |}]> (sessionStats s)) s in
      (ref, resetInactivityTimer channelId s)
  | Some ref => (ref, resetInactivityTimer channelId s)
  end.

Definition addCost (channelId : string) (cost : Q) s : State W :=
  let s :=
    match sessionStats s !! channelId with
    | None =>
        set_sessionStats
          (<[channelId := {| totalCost := 0; messageCount := 0;
                             createdAt := Some (now s);
                             lastActivityAt := None |}]> (sessionStats s)) s
    | Some _ => s
    end in
  match sessionStats s !! channelId with
  | Some stats =>
      set_sessionStats
        (<[channelId := {| totalCost := totalCost stats + cost;
                           messageCount := messageCount stats + 1;
                           createdAt := createdAt stats;
                           lastActivityAt := lastActivityAt stats |}]> (sessionStats s)) s
  | None => s
  end.

Definition getSessionStats (channelId : string) s : Stats :=
  match sessionStats s !! channelId with
  | Some stats => stats
  | None => {| totalCost := 0; messageCount := 0; createdAt := None; lastActivityAt := None |}
  end.

Definition closeSession (channelId : string) s : State W :=
  match conversationHistory s !! channelId with
  | Some _ =>
      let s := set_inactivityTimers (delete channelId (inactivityTimers s)) s in
      let s := set_conversationHistory (delete channelId (conversationHistory s)) s in
      set_sessionStats (delete channelId (sessionStats s)) s
  | None => s
  end.

(** The price of one response: $3 and $15 per million tokens. *)
Definition responseCost (u : Usage) : Q :=
  let inputCost := ((inject_Z (Z.of_N (input_tokens u)) / 1000000) * 3)%Q in
  let outputCost := ((inject_Z (Z.of_N (output_tokens u)) / 1000000) * 15)%Q in
  (inputCost + outputCost)%Q.

(** *** Promises *)

Definition newPromise (o : Origin) s : nat * State W :=
  (length (promises s),
   set_promises (promises s ++ [{| origin := o; settled := Pending |}]) s).

(** Settling a promise that is already settled does nothing. *)
Definition settleIn (p : nat) (v : Settled) (ps : list Promise) : list Promise :=
  match ps !! p with
  | Some {| origin := o; settled := Pending |} => <[p := {| origin := o; settled := v |}]> ps
  | _ => ps
  end.

Definition settle (p : nat) (v : Settled) s : State W :=
  set_promises (settleIn p v (promises s)) s.

(** *** sendMessage *)

(** [_processMessage] up to its first [await]. *)
Definition begin_processMessage (channelId userMessage : string)
    (messageContent : option (list Block)) (promise : nat) s : State W :=
  let '(history, s) := getOrInitHistory channelId s in
  let contentToAdd :=
    match messageContent with
    | Some blocks => Blocks blocks
    | None => Plain userMessage
    end in
  let s := set_arrays
             (<[history := (default [] (arrays s !! history)
                             ++ [{| role := user; content := contentToAdd |}])%list]> (arrays s)) s in
  let isGoogleMeet :=
    startsWith channelId "test_" || includes userMessage "[Google Meet]" in
  let systemPrompt' :=
    if isGoogleMeet then systemPrompt s +:+ GOOGLE_MEET_RULES else systemPrompt s in
  set_running
    (running s ++ [{| run_channelId := channelId; run_history := history;
                      run_systemPrompt := systemPrompt'; run_promise := promise;
                      run_started := now s |}]) s.

(** The call returns the promise handed to the caller. *)
Definition sendMessage (channelId userMessage : string) (channelName : option string)
    (messageContent : option (list Block)) s : nat * State W :=
  let s :=
    match channelName with
    | Some n => if truthy n then set_channelNames (<[channelId := n]> (channelNames s)) s else s
    | None => s
    end in
  match processingLocks s !! channelId with
  | Some _ =>
      let s :=
        match messageQueues s !! channelId with
        | None => set_messageQueues (<[channelId := []]> (messageQueues s)) s
        | Some _ => s
        end in
      let '(promise, s) := newPromise OfQueue s in
      let entry := {| userMessage := userMessage; channelName := channelName;
                      messageContent := messageContent; resolve := promise |} in
      (promise,
       set_messageQueues
         (<[channelId := (default [] (messageQueues s !! channelId) ++ [entry])%list]>
            (messageQueues s)) s)
  | None =>
      let '(promise, s) := newPromise OfRun s in
      let s := set_processingLocks (<[channelId := true]> (processingLocks s)) s in
      (promise, begin_processMessage channelId userMessage messageContent promise s)
  end.

End Updates.

(** *** The event loop *)

Inductive Event :=
| Call (channelId userMessage : string) (channelName : option string)
       (messageContent : option (list Block))  (* a route handler calls sendMessage *)
| Finish (i : nat)             (* the i-th suspended run goes on to its end *)
| Immediate                    (* the oldest setImmediate callback runs *)
| Resume (k : nat)             (* the k-th waiting callback sees its promise settled *)
| Tick (dt : Z)                (* time passes *)
| Timeout (channelId : string) (* the inactivity timer of the channel fires *)
| Reset (channelId : string).  (* the reset route calls closeSession *)

Section Steps.
Context {W : Type} (C : Collaborators W).
Implicit Type s : State W.

(** The rest of [_processMessage] after its first [await]: the model and the
    tools work on the array the run took hold of when it started. *)
Definition resume_processMessage (r : Run) s : Frame W * Result Answer :=
  run_model C (systemPrompt s) (run_systemPrompt r) (channelNames s) (run_channelId r)
    {| Loop.history := default [] (arrays s !! run_history r);
       assistantText := EmptyString; trace := []; world := outside s |}.

(** How the promise of a [sendMessage] call that ran the message settles. *)
Definition outcome (result : Result Answer) : Settled :=
  match result with
  | Ok answer => Fulfilled (answer_text answer)
  | Throw message => Rejected message
  end.

(** The end of a run, and the rest of the [sendMessage] call that awaits it. *)
Definition finish (i : nat) (r : Run) s : State W :=
  let channelId := run_channelId r in
  let '(frame, result) := resume_processMessage r s in
  let s := set_arrays (<[run_history r := Loop.history frame]> (arrays s)) s in
  let s := set_outside (world frame) s in
  let s := set_running (delete i (running s)) s in
  match result with
  | Ok answer =>
      let totalCost := responseCost (usage (answer_response answer)) in
      let s := addCost channelId totalCost s in
      (* sendMessage, after [await this._processMessage(...)] *)
      let s := set_processingLocks (delete channelId (processingLocks s)) s in
      let s :=
        match messageQueues s !! channelId with
        | Some (next :: queue) =>
            let s := set_messageQueues (<[channelId := queue]> (messageQueues s)) s in
            set_immediates (immediates s ++ [(channelId, next)]) s
        | _ => s
        end in
      settle (run_promise r) (outcome result) s
  | Throw message =>
      (* catch (error) { this.processingLocks.delete(channelId); throw error; } *)
      let s := set_processingLocks (delete channelId (processingLocks s)) s in
      settle (run_promise r) (outcome result) s
  end.

(** The callback given to [setImmediate]: it calls [sendMessage] and waits. *)
Definition immediate (channelId : string) (next : QueueEntry) s : State W :=
  let '(promise, s) :=
    sendMessage channelId (userMessage next) (channelName next) (messageContent next) s in
  set_awaiting (awaiting s ++ [(promise, resolve next)]) s.

(** The callback after [await this.sendMessage(...)]:
    [next.resolve(nextResponse)], or in the catch branch
    [next.resolve(`Error: ${error.message}`)]. *)
Definition resume (k : nat) (awaited entry : nat) s : option (State W) :=
  match settled <$> promises s !! awaited with
  | Some (Fulfilled nextResponse) =>
      Some (settle entry (Fulfilled nextResponse) (set_awaiting (delete k (awaiting s)) s))
  | Some (Rejected message) =>
      Some (settle entry (Fulfilled ("Error: " +:+ message))
              (set_awaiting (delete k (awaiting s)) s))
  | _ => None
  end.

(** One turn of the event loop; [None] when the event cannot happen. *)
Definition step (e : Event) s : option (State W) :=
  match e with
  | Call channelId userMessage channelName messageContent =>
      Some (sendMessage channelId userMessage channelName messageContent s).2
  | Finish i =>
      match running s !! i with
      | Some r => Some (finish i r s)
      | None => None
      end
  | Immediate =>
      match immediates s with
      | (channelId, next) :: rest => Some (immediate channelId next (set_immediates rest s))
      | [] => None
      end
  | Resume k =>
      match awaiting s !! k with
      | Some (awaited, entry) => resume k awaited entry s
      | None => None
      end
  | Tick dt =>
      if (0 <=? dt)%Z then Some (set_now (now s + dt)%Z s) else None
  | Timeout channelId =>
      match inactivityTimers s !! channelId with
      | Some deadline =>
          if (deadline <=? now s)%Z then Some (closeSession channelId s) else None
      | None => None
      end
  | Reset channelId => Some (closeSession channelId s)
  end.

Fixpoint steps (es : list Event) s : option (State W) :=
  match es with
  | [] => Some s
  | e :: es' =>
      match step e s with
      | Some s' => steps es' s'
      | None => None
      end
  end.

(** The states the manager can be in. *)
Definition reachable s : Prop :=
  exists prompt w es, steps es (init prompt w) = Some s.

(** The suspended runs of a channel. *)
Definition runsOf (channelId : string) s : list Run :=
  filter (fun r => run_channelId r = channelId) (running s).

(** The history array of a channel, read through the session store. *)
Definition historyOf (channelId : string) s : option (list Message) :=
  match conversationHistory s !! channelId with
  | Some ref => arrays s !! ref
  | None => None
  end.

End Steps.

End Manager.

(** ** Stub collaborators

    Small models, tools and transports to run the manager on. *)

Module Stub.

Definition reply (blocks : list Block) (tokens_in tokens_out : N) : Response :=
  {| response_content := blocks;
     usage := {| input_tokens := tokens_in; output_tokens := tokens_out |} |}.

Definition call (i n x : string) : Block :=
  ToolUse {| id := i; name := n; input := x |}.

(** A tool registry: the tool named "boom" throws its input, every other
    tool returns its input. *)
Definition tools {W : Type} (n x channelId : string) (w : W) : Result string * W :=
  if String.eqb n "boom" then (Throw x, w) else (Ok x, w).

(** A model that plays a script, one entry per call, and answers "done"
    once the script is over. *)
Definition scripted : Collaborators (list (Result Response)) :=
  {| messages_create := fun _ _ w =>
       match w with
       | r :: w' => (r, w')
       | [] => (Ok (reply [Text "done"] 0 0), [])
       end;
     executeTool := tools;
     sendViaWebhook := fun _ _ _ w => (Ok tt, w);
     isChannelInMeeting := fun _ w => (false, w) |}.

(** A model that asks for a tool in every response, after saying [say]. *)
Definition insistent (say : string) : Collaborators unit :=
  {| messages_create := fun _ _ w =>
       (Ok (reply [Text say; call "t1" "server_exec" "uptime"] 10 20), w);
     executeTool := tools;
     sendViaWebhook := fun _ _ _ w => (Ok tt, w);
     isChannelInMeeting := fun _ w => (false, w) |}.

(** The same script-playing model with the channel in a Google Meet. *)
Definition inMeeting : Collaborators (list (Result Response)) :=
  {| messages_create := messages_create scripted;
     executeTool := tools;
     sendViaWebhook := fun _ _ _ w => (Ok tt, w);
     isChannelInMeeting := fun _ w => (true, w) |}.

Definition frame0 {W : Type} (h : list Message) (w : W) : Loop.Frame W :=
  {| Loop.history := h; Loop.assistantText := EmptyString; Loop.trace := []; Loop.world := w |}.

End Stub.

(** ** Statements used below *)

Module Props.
Import JsString Loop Manager.

(** A chunk carries the sentinel when its trimmed, upper-cased text is the
    marker or contains it. *)
Definition carriesSentinel (text : string) : bool :=
  String.eqb (toUpperCase (trim text)) SILENT
  || includes (toUpperCase (trim text)) SILENT.

(** What a run returns, if it returns. *)
Definition returned {W : Type} (out : Frame W * Result Answer) : option string :=
  match out.2 with
  | Ok a => Some (answer_text a)
  | Throw _ => None
  end.

(** A model that never throws and asks for a tool in every response. *)
Definition alwaysAsksForTools {W : Type} (C : Collaborators W) : Prop :=
  forall system messages w, exists response w',
    messages_create C system messages w = (Ok response, w')
    /\ toolCallsOf (response_content response) <> [].

(** The tool result pushed for [toolCall] when the registry is in world [w]. *)
Definition toolResultOf {W : Type} (C : Collaborators W) (channelId : string)
    (toolCall : ToolUseBlock) (w : W) : Block :=
  match (executeTool C (name toolCall) (input toolCall) channelId w).1 with
  | Ok result => ToolResult (id toolCall) result false
  | Throw message => ToolResult (id toolCall) ("Error: " +:+ message) true
  end.

(** The channels with a suspended run, one entry per run. *)
Definition runChannels {W : Type} (s : State W) : list string :=
  run_channelId <$> running s.

(** What holds of the lock, the runs, the timers and the promises in every
    state the manager reaches. *)
Record consistent {W : Type} (s : State W) : Prop := {
  runs_nodup : NoDup (runChannels s);
  runs_locked : forall channelId,
    is_Some (processingLocks s !! channelId) <-> channelId ∈ runChannels s;
  runs_promise : forall r, r ∈ running s ->
    exists pr, promises s !! run_promise r = Some pr /\ origin pr = OfRun;
  runs_timer : forall r deadline, r ∈ running s ->
    inactivityTimers s !! run_channelId r = Some deadline ->
    deadline = (run_started r + INACTIVITY_TIMEOUT_MS)%Z;
  queued_not_rejected : forall p pr, promises s !! p = Some pr ->
    origin pr = OfQueue -> forall reason, settled pr <> Rejected reason;
}.

(** The state a list of events leads to; the start state when an event
    cannot happen. *)
Definition after {W : Type} (C : Collaborators W) (es : list Event) (s : State W) : State W :=
  default s (steps C es s).


(** The events that end the session of a channel. *)
Definition closes (channelId : string) (e : Event) : Prop :=
  e = Timeout channelId \/ e = Reset channelId.

(** The places that hold the promise of a queued message: an entry of a
    channel's queue, a scheduled [setImmediate] callback, or a callback that
    waits for the message to be processed. *)
Inductive Holder :=
| InQueue (channelId : string) (i : nat)
| InImmediate (i : nat)
| InCallback (i : nat).

(** The promise held at a place, if the place exists. *)
Definition heldAt {W : Type} (s : State W) (h : Holder) : option nat :=
  match h with
  | InQueue channelId i =>
      match messageQueues s !! channelId with
      | Some queue => resolve <$> queue !! i
      | None => None
      end
  | InImmediate i => (fun c => resolve c.2) <$> immediates s !! i
  | InCallback i => snd <$> awaiting s !! i
  end.

(** A promise of the queueing path that is not settled. *)
Definition waiting : Promise := {| origin := OfQueue; settled := Pending |}.

(** Every held promise is unsettled, and is held at one place only. *)
Record owned {W : Type} (s : State W) : Prop := {
  held_waiting : forall h p, heldAt s h = Some p -> promises s !! p = Some waiting;
  held_once : forall h1 h2 p, heldAt s h1 = Some p -> heldAt s h2 = Some p -> h1 = h2;
}.

(** Where an entry held after the end of a run was held before it. *)
Definition beforeShift (channelId : string) (n : nat) (h : Holder) : Holder :=
  match h with
  | InQueue c i => if decide (c = channelId) then InQueue c (S i) else h
  | InImmediate i => if decide (i = n) then InQueue channelId 0 else h
  | InCallback _ => h
  end.

(** Where an entry held after a [setImmediate] callback was held before it. *)
Definition beforeImmediate (n : nat) (h : Holder) : Holder :=
  match h with
  | InQueue _ _ => h
  | InImmediate i => InImmediate (S i)
  | InCallback i => if decide (i = n) then InImmediate 0 else h
  end.

(** Where an entry held after the k-th callback resumed was held before. *)
Definition beforeResume (k : nat) (h : Holder) : Holder :=
  match h with
  | InCallback i => if decide (i < k) then h else InCallback (S i)
  | _ => h
  end.

(** The frame a round reaches when it has run the tools the response asked
    for, just before it asks the model again; and the results it collected. *)
Definition beforeTools {W : Type} (C : Collaborators W) (names : gmap string string)
    (channelId : string) (response : Response) (f : Frame W) : Frame W :=
  push {| role := assistant; content := Blocks (response_content response) |}
    (emit_blocks C names channelId (response_content response) f).

Definition roundResults {W : Type} (C : Collaborators W) (names : gmap string string)
    (channelId : string) (response : Response) (f : Frame W) : list Block :=
  (execute_tools C channelId (toolCallsOf (response_content response)) []
     (beforeTools C names channelId response f)).1.

Definition afterTools {W : Type} (C : Collaborators W) (names : gmap string string)
    (channelId : string) (response : Response) (f : Frame W) : Frame W :=
  push {| role := user; content := Blocks (roundResults C names channelId response f) |}
    (execute_tools C channelId (toolCallsOf (response_content response)) []
       (beforeTools C names channelId response f)).2.

End Props.

(** ** Scenarios on the stubs *)

Module Scenarios.
Import Loop Manager Props Stub.

(** A response that asks for two tools, the first of which throws. *)
Definition failingRound : Response :=
  reply [Text "checking"; call "t1" "boom" "disk full"; call "t2" "server_exec" "uptime"] 5 7.

Definition hi : Result Response := Ok (reply [Text "hi"] 1000000 0).

(** A run for "R" in flight on channel "c", "A" queued behind it. *)
Definition busy (script : list (Result Response)) : State (list (Result Response)) :=
  after scripted [Call "c" "R" (Some "chan") None; Call "c" "A" None None] (init "sys" script).

Definition runR : Run :=
  {| run_channelId := "c"; run_history := 0; run_systemPrompt := "sys";
     run_promise := 0; run_started := 0 |}.

(** "R" is answered, "A" is taken from the queue and run, and its model call
    throws: the callback is left waiting on a rejected promise. *)
Definition failedBehind : State (list (Result Response)) :=
  after scripted [Finish 0; Immediate; Finish 0] (busy [hi; Throw "overloaded"]).


End Scenarios.

(** ** More JavaScript string and array primitives *)

Module JsText.

Definition LF : string := String (ascii_of_nat 10) EmptyString.

(** [parts.join(sep)] *)
Fixpoint join (sep : string) (parts : list string) : string :=
  match parts with
  | [] => EmptyString
  | [x] => x
  | x :: rest => x +:+ sep +:+ join sep rest
  end.

(** [s.split('\n')]: the lines of [s]; the empty string has one, empty, line. *)
Fixpoint split (s : string) : list string :=
  match s with
  | EmptyString => [EmptyString]
  | String c s' =>
      if Nat.eqb (nat_of_ascii c) 10 then EmptyString :: split s'
      else match split s' with
           | [] => [String c EmptyString]
           | line :: lines => String c line :: lines
           end
  end.

Definition lowerUnit (c : ascii) : ascii :=
  let n := nat_of_ascii c in
  if Nat.leb 65 n && Nat.leb n 90 then ascii_of_nat (n + 32) else c.

(** [s.toLowerCase()], on the ASCII range: A..Z are mapped, every other unit
    is left alone. *)
Fixpoint toLowerCase (s : string) : string :=
  match s with
  | EmptyString => EmptyString
  | String c s' => String (lowerUnit c) (toLowerCase s')
  end.

End JsText.

(** ** Further statements about the loop *)

Module LoopProps.
Import JsString Loop.

(** The call a tool result answers. *)
Definition answers (b : Block) : option string :=
  match b with
  | ToolResult tool_use_id _ _ => Some tool_use_id
  | _ => None
  end.

(** What can be said of every webhook call a run makes for [channelId]. *)
Definition sentFor (names : gmap string string) (channelId : string) (e : Effect) : Prop :=
  match e with
  | WebhookCall c n x =>
      c = channelId
      /\ names !! channelId = Some n
      /\ truthy x = true
      /\ includes (toUpperCase x) SILENT = false
      /\ exists text, x = trim text
  | _ => True
  end.

(** Two sets of collaborators that differ at most in whether the webhook
    call returns or throws. *)
Definition sameButWebhookResult {W : Type} (C1 C2 : Collaborators W) : Prop :=
  (forall system messages w, messages_create C1 system messages w
                             = messages_create C2 system messages w)
  /\ (forall n x c w, executeTool C1 n x c w = executeTool C2 n x c w)
  /\ (forall c w, isChannelInMeeting C1 c w = isChannelInMeeting C2 c w)
  /\ (forall c n x w, (sendViaWebhook C1 c n x w).2 = (sendViaWebhook C2 c n x w).2).

(** The same stub as [Stub.scripted] with a webhook that always fails. *)
Definition deafWebhook : Collaborators (list (Result Response)) :=
  {| messages_create := messages_create Stub.scripted;
     executeTool := executeTool Stub.scripted;
     sendViaWebhook := fun _ _ _ w => (Throw "Webhook failed: 500", w);
     isChannelInMeeting := isChannelInMeeting Stub.scripted |}.

End LoopProps.

(** ** Further statements about the manager *)

Module StoreProps.
Import Manager.

(** What holds of the session store in every state the manager reaches. *)
Record storeOk {W : Type} (s : State W) : Prop := {
  timer_iff_history : forall channelId,
    is_Some (inactivityTimers s !! channelId)
    <-> is_Some (conversationHistory s !! channelId);
  timer_after_activity : forall channelId deadline,
    inactivityTimers s !! channelId = Some deadline ->
    exists stats,
      sessionStats s !! channelId = Some stats
      /\ lastActivityAt stats = Some (deadline - INACTIVITY_TIMEOUT_MS)%Z;
  refs_valid : forall channelId ref,
    conversationHistory s !! channelId = Some ref -> ref < length (arrays s);
  refs_distinct : forall c1 c2 ref,
    conversationHistory s !! c1 = Some ref ->
    conversationHistory s !! c2 = Some ref -> c1 = c2;
}.

(** The queue of a channel; a channel without a queue has nothing queued. *)
Definition queueOf {W : Type} (channelId : string) (s : State W) : list QueueEntry :=
  default [] (messageQueues s !! channelId).

End StoreProps.

Module MoreScenarios.
Import Manager Props Stub Scenarios.

(** A run for "slow" on channel "c" whose session was evicted under it. *)
Definition evicted : State (list (Result Response)) :=
  after scripted [Call "c" "slow" None None; Tick 1800000; Timeout "c"] (init "sys" [hi]).

Definition runSlow : Run :=
  {| run_channelId := "c"; run_history := 0; run_systemPrompt := "sys";
     run_promise := 0; run_started := 0 |}.

End MoreScenarios.

(** ** The tool registry (src/tools/index.js)

    The four tools are outside the registry; it only picks one by name. *)

Module ToolRegistry.

Record Executors (W : Type) := {
  serverExec_execute : string -> W -> Result string * W;        (* execute(input) *)
  createJiraTicket_execute : string -> W -> Result string * W;  (* execute(input) *)
  updateMemory_execute : string -> W -> Result string * W;      (* execute(input) *)
  joinMeet_execute : string -> string -> W -> Result string * W; (* execute(input, { channelId }) *)
}.
Arguments serverExec_execute {W} _ _ _.
Arguments createJiraTicket_execute {W} _ _ _.
Arguments updateMemory_execute {W} _ _ _.
Arguments joinMeet_execute {W} _ _ _ _.

(** [executeTool(toolName, input, context)]: a [switch] on the name. *)
Definition executeTool {W : Type} (E : Executors W)
    (toolName input channelId : string) (w : W) : Result string * W :=
  if String.eqb toolName "server_exec" then serverExec_execute E input w
  else if String.eqb toolName "create_jira_ticket" then createJiraTicket_execute E input w
  else if String.eqb toolName "update_memory" then updateMemory_execute E input w
  else if String.eqb toolName "join_google_meet" then joinMeet_execute E input channelId w
  else (Throw ("Unknown tool: " +:+ toolName), w).

Definition knownTools : list string :=
  ["server_exec"; "create_jira_ticket"; "update_memory"; "join_google_meet"].

(** The collaborators of a run with this registry as their [executeTool]. *)
Definition withRegistry {W : Type} (E : Executors W) (C : Collaborators W) : Collaborators W :=
  Build_Collaborators W
    (messages_create C) (executeTool E) (sendViaWebhook C) (isChannelInMeeting C).

(** Tools that echo their input, to run the registry on. *)
Definition echo {W : Type} : Executors W :=
  {| serverExec_execute := fun x w => (Ok x, w);
     createJiraTicket_execute := fun x w => (Ok x, w);
     updateMemory_execute := fun x w => (Ok x, w);
     joinMeet_execute := fun x _ w => (Ok x, w) |}.

End ToolRegistry.

(** ** The command whitelist of the server_exec tool *)

Module ServerExec.
Import JsString JsText.

Definition ALLOWED_COMMANDS : list string :=
  [ "docker ps"; "docker logs"; "docker inspect"; "docker stats"; "docker top";
    "docker exec";
    "docker restart";
    "free"; "df"; "top"; "htop"; "uptime"; "ps"; "du";
    "netstat"; "ss"; "lsof"; "ping"; "curl"; "wget"; "traceroute";
    "cat"; "head"; "tail"; "less"; "more"; "grep"; "find"; "ls"; "tree";
    "uname"; "whoami"; "hostname"; "date"; "env"; "printenv" ].

Definition quote : string := String (ascii_of_nat 34) EmptyString.
(** [validateCommand(command)]: the trimmed command, or the error thrown. *)
Definition validateCommand (command : string) : Result string :=
  let trimmed := trim command in
  let isAllowed := existsb (fun allowed => startsWith trimmed allowed) ALLOWED_COMMANDS in
  if isAllowed then Ok trimmed
  else Throw ("Command not allowed: " +:+ quote +:+ trimmed +:+ quote +:+ LF +:+ LF
              +:+ "Allowed commands: " +:+ join ", " ALLOWED_COMMANDS).

(** The first and the last unit of a string are no white space. *)
Definition solidEnds (s : string) : bool :=
  match s with
  | EmptyString => false
  | String c _ => negb (isWhiteSpace c)
  end
  && match trimEnd s with
     | EmptyString => false
     | _ => String.eqb (trimEnd s) s
     end.

End ServerExec.

(** ** The Meet bot manager (src/services/meet-bot-manager.js) and the
    join_google_meet tool (src/tools/join-meet/index.js) *)

Module MeetBots.
Import JsString JsText.

Record BotInfo := {
  botId : string;
  channelId : string;
  meetingUrl : string;
  status : string;
  createdAt : Z;                (* the time in the ISO string, in ms *)
  updatedAt : option Z;
}.

(** [activeBots]: a Map from bot id to info, in insertion order. *)
Definition Bots : Type := list (string * BotInfo).

(** [Map.prototype.get], [set] and [delete]. *)
Definition get (k : string) (m : Bots) : option BotInfo :=
  snd <$> List.find (fun e => String.eqb e.1 k) m.

Definition set (k : string) (v : BotInfo) (m : Bots) : Bots :=
  match get k m with
  | Some _ => (fun e => if String.eqb e.1 k then (k, v) else e) <$> m
  | None => m ++ [(k, v)]
  end.

Definition delete (k : string) (m : Bots) : Bots :=
  List.filter (fun e => negb (String.eqb e.1 k)) m.

Definition TWO_HOURS_MS : Z := 2 * 60 * 60 * 1000.

Definition getBotInfo (id : string) (m : Bots) : option BotInfo := get id m.

(** The first bot of the channel, in the order of the map. *)
Definition getBotByChannelId (c : string) (m : Bots) : option BotInfo :=
  snd <$> List.find (fun e => String.eqb (channelId e.2) c) m.

Definition isStale (now : Z) (info : BotInfo) : bool :=
  (TWO_HOURS_MS <? now - createdAt info)%Z.

Definition fresh (now : Z) (e : string * BotInfo) : bool := negb (isStale now e.2).

(** [cleanupStaleBots()]: goes through the entries and deletes the stale
    ones from the map; returns how many it deleted. *)
Definition cleanupStaleBots (now : Z) (m : Bots) : nat * Bots :=
  fold_left
    (fun (acc : nat * Bots) (e : string * BotInfo) =>
       if isStale now e.2 then (S acc.1, delete e.1 acc.2) else acc)
    m (0, m).

Definition isChannelInMeeting (c : string) (now : Z) (m : Bots) : bool * Bots :=
  let m := (cleanupStaleBots now m).2 in
  (bool_decide (is_Some (getBotByChannelId c m)), m).

Definition updateBotStatus (id newStatus : string) (now : Z) (m : Bots) : Bots :=
  match get id m with
  | Some bot =>
      set id {| botId := botId bot; channelId := channelId bot;
                meetingUrl := meetingUrl bot; status := newStatus;
                createdAt := createdAt bot; updatedAt := Some now |} m
  | None => m
  end.

(** [joinMeeting(meetingUrl, channelId)]; [posted] is what the request to
    Recall.ai gave: the id of the new bot, or the message of the error. *)
Definition joinMeeting (posted : Result string) (url c : string) (now : Z) (m : Bots)
    : Result BotInfo * Bots :=
  match posted with
  | Ok id =>
      let botInfo := {| botId := id; channelId := c; meetingUrl := url;
                        status := "joining"; createdAt := now; updatedAt := None |} in
      (Ok botInfo, set id botInfo m)
  | Throw message => (Throw ("Failed to join meeting: " +:+ message), m)
  end.

Definition getActiveBots (m : Bots) : list BotInfo := snd <$> m.

(** A Map has one entry per key. *)
Definition wellKeyed (m : Bots) : Prop := NoDup (fst <$> m).

(** The bots of a channel. *)
Definition botsOf (c : string) (m : Bots) : list BotInfo :=
  List.filter (fun info => String.eqb (channelId info) c) (snd <$> m).

(** *** The join_google_meet tool *)

(** [execute({ meeting_url }, context)] up to its [await]: the text it
    returns at once, or the request it makes to join. [context] is the
    channel id, if there is one. *)
Inductive Checked :=
| Refused (text : string)
| Request (meeting_url channelId : string).

Definition execute_check (meeting_url : string) (context : option string) (m : Bots)
    : Checked :=
  match context with
  | None => Refused "❌ Error: Channel context required to join meeting"
  | Some c =>
      if negb (truthy c) then Refused "❌ Error: Channel context required to join meeting"
      else if negb (includes meeting_url "meet.google.com") then
        Refused "❌ Invalid Google Meet URL. Please provide a valid meet.google.com link."
      else
        match getBotByChannelId c m with
        | Some existingBot =>
            Refused ("⚠️ Already in a meeting for this channel. Bot ID: " +:+ botId existingBot)
        | None => Request meeting_url c
        end
  end.

(** [execute] from the [await] on: the text for the model, and the map. *)
Definition execute_resume (posted : Result string) (meeting_url c : string)
    (now : Z) (m : Bots) : string * Bots :=
  match joinMeeting posted meeting_url c now m with
  | (Ok botInfo, m') =>
      ("✅ Joining Google Meet!" +:+ LF +:+ LF
       +:+ "Bot ID: " +:+ botId botInfo +:+ LF
       +:+ "Meeting: " +:+ meeting_url +:+ LF +:+ LF
       +:+ "I'm now joining the meeting and will be able to hear and speak. Give me a few seconds to connect...",
       m')
  | (Throw message, m') => ("❌ Failed to join meeting: " +:+ message, m')
  end.

(** *** The registry over time

    What touches the map: the tool (its check, and later the answer to its
    request), the webhook events of Recall.ai (src/routes/meet.js,
    [processWebhookEvent]) and the manager asking [isChannelInMeeting]. *)

Record State := {
  activeBots : Bots;
  clock : Z;
  requests : list (string * string);   (* url and channel of the requests in flight *)
}.

Inductive Event :=
| Join (meeting_url : string) (context : option string)
| Joined (k : nat) (posted : Result string)
| StatusChange (id status : string)     (* 'bot.status_change' *)
| MeetingEnded (id : string)            (* 'bot.meeting_ended' *)
| InMeeting (c : string)
| Wait (dt : Z).

Definition init : State := {| activeBots := []; clock := 0; requests := [] |}.

Definition requestsOf (c : string) (s : State) : list (string * string) :=
  List.filter (fun r => String.eqb r.2 c) (requests s).

(** The tool calls of a channel are made by its runs, one after the other:
    no call starts while a request of the channel is in flight. *)
Definition step (e : Event) (s : State) : option State :=
  match e with
  | Join url context =>
      match execute_check url context (activeBots s) with
      | Refused _ => Some s
      | Request url c =>
          match requestsOf c s with
          | [] => Some {| activeBots := activeBots s; clock := clock s;
                          requests := requests s ++ [(url, c)] |}
          | _ :: _ => None
          end
      end
  | Joined k posted =>
      match requests s !! k with
      | Some (url, c) =>
          Some {| activeBots := (execute_resume posted url c (clock s) (activeBots s)).2;
                  clock := clock s;
                  requests := base.delete k (requests s) |}
      | None => None
      end
  | StatusChange id status =>
      match getBotInfo id (activeBots s) with
      | Some _ => Some {| activeBots := updateBotStatus id status (clock s) (activeBots s);
                          clock := clock s; requests := requests s |}
      | None => Some s
      end
  | MeetingEnded id =>
      match getBotInfo id (activeBots s) with
      | Some _ => Some {| activeBots := delete id (activeBots s);
                          clock := clock s; requests := requests s |}
      | None => Some s
      end
  | InMeeting c =>
      Some {| activeBots := (isChannelInMeeting c (clock s) (activeBots s)).2;
              clock := clock s; requests := requests s |}
  | Wait dt =>
      if (0 <=? dt)%Z
      then Some {| activeBots := activeBots s; clock := clock s + dt; requests := requests s |}
      else None
  end.

Fixpoint steps (es : list Event) (s : State) : option State :=
  match es with
  | [] => Some s
  | e :: es => match step e s with Some s' => steps es s' | None => None end
  end.

Definition reachable (s : State) : Prop := exists es, steps es init = Some s.

(** What the registry keeps: one entry per bot id and, for every channel,
    at most one bot or one request to join in flight. *)
Record tidy (s : State) : Prop := {
  tidy_keys : wellKeyed (activeBots s);
  tidy_channels : forall c,
    length (botsOf c (activeBots s)) + length (requestsOf c s) <= 1;
}.

(** A channel asks to join, and the request is granted. *)
Definition joinedOnce : list Event :=
  [Join "https://meet.google.com/abc" (Some "c"); Joined 0 (Ok "b1")].

(** Two bots to try things on. *)
Definition oldBot : BotInfo :=
  {| botId := "b1"; channelId := "c"; meetingUrl := "https://meet.google.com/abc";
     status := "in_call"; createdAt := 0; updatedAt := None |}.

Definition newBot : BotInfo :=
  {| botId := "b2"; channelId := "d"; meetingUrl := "https://meet.google.com/xyz";
     status := "joining"; createdAt := 7000000; updatedAt := None |}.

End MeetBots.

(** ** The Cliq route (src/routes/cliq.js) *)

Module CliqRoute.
Import JsString JsText.

(** A unit that [/[^a-zA-Z0-9]/g] leaves in place. *)
Definition isAlnum (c : ascii) : bool :=
  let n := nat_of_ascii c in
  (Nat.leb 97 n && Nat.leb n 122) || (Nat.leb 65 n && Nat.leb n 90)
  || (Nat.leb 48 n && Nat.leb n 57).

(** [s.replace(/[^a-zA-Z0-9]/g, '')] *)
Fixpoint keepAlnum (s : string) : string :=
  match s with
  | EmptyString => EmptyString
  | String c s' => if isAlnum c then String c (keepAlnum s') else keepAlnum s'
  end.

(** [s.substring(1)] *)
Definition substring1 (s : string) : string :=
  match s with
  | EmptyString => EmptyString
  | String _ s' => s'
  end.

Definition formatChannelUniqueName (channelName : string) : string :=
  let uniqueName := channelName in
  let uniqueName :=
    if startsWith uniqueName "#" then substring1 uniqueName else uniqueName in
  let uniqueName := keepAlnum uniqueName in
  toLowerCase uniqueName.

(** A lower-case letter or a digit. *)
Definition isLowerAlnum (c : ascii) : bool :=
  let n := nat_of_ascii c in
  (Nat.leb 97 n && Nat.leb n 122) || (Nat.leb 48 n && Nat.leb n 57).

Fixpoint forallUnits (p : ascii -> bool) (s : string) : bool :=
  match s with
  | EmptyString => true
  | String c s' => p c && forallUnits p s'
  end.

(** *** processWithAgentSDK *)

Record Attachment := {
  att_type : string;
  att_name : string;
  att_url : string;
}.

(** The blocks of one attachment; [download] is [downloadImageAsBase64],
    which gives the data or [null]. *)
Definition attachmentBlocks (download : string -> option string) (a : Attachment)
    : list Block :=
  if truthy (att_type a) && startsWith (att_type a) "image/" then
    match download (att_url a) with
    | Some base64Data => if truthy base64Data then [Image base64Data] else []
    | None => []
    end
  else
    [Text (LF +:+ "Attachment: " +:+ att_name a +:+ " (" +:+ att_type a +:+ "): "
           +:+ att_url a)].

(** [messageContent] as the function builds it. *)
Definition messageContentOf (download : string -> option string)
    (message : string) (attachments : list Attachment) : list Block :=
  (if truthy message then [Text message] else [])
  ++ concat (attachmentBlocks download <$> attachments).

Definition formattedMessage (userName message : string) : string :=
  (userName +:+ ": ") +:+ (if truthy message then message else "[sent an image]").

(** The call [processWithAgentSDK] makes to the manager. *)
Definition processWithAgentSDK {W : Type} (download : string -> option string)
    (channelId : string) (channelName : option string) (userName message : string)
    (attachments : list Attachment) (s : Manager.State W) : nat * Manager.State W :=
  Manager.sendMessage channelId (formattedMessage userName message) channelName
    (Some (messageContentOf download message attachments)) s.

End CliqRoute.

(** ** The Meet route (src/routes/meet.js) *)

Module MeetRoute.
Import JsString JsText.

(** *** Transcripts already seen *)

Definition MAX_HISTORY : nat := 10.

Definition getTranscriptHash (botId speaker transcript : string) : string :=
  botId +:+ ":" +:+ speaker +:+ ":" +:+ toLowerCase (trim transcript).

(** A [Set] of strings, as the list of its elements in insertion order. *)
Definition add (x : string) (set : list string) : list string :=
  if bool_decide (x ∈ set) then set else set ++ [x].

(** [processedTranscripts] maps a bot id to the set of its hashes. *)

Definition isTranscriptProcessed (botId speaker transcript : string) (p : gmap string (list string))
    : bool :=
  let hash := getTranscriptHash botId speaker transcript in
  match p !! botId with
  | Some history => bool_decide (hash ∈ history)
  | None => false
  end.

Definition markTranscriptProcessed (botId speaker transcript : string) (p : gmap string (list string)) : gmap string (list string) :=
  let hash := getTranscriptHash botId speaker transcript in
  let p := match p !! botId with
           | Some _ => p
           | None => <[botId := []]> p
           end in
  let history := add hash (default [] (p !! botId)) in
  (* the first value of the set is deleted *)
  let history := if Nat.ltb MAX_HISTORY (length history) then drop 1 history else history in
  <[botId := history]> p.

(** The states of the table: what marking, from the empty table, gives. *)
Definition markAll (ms : list (string * string * string)) (p : gmap string (list string)) : gmap string (list string) :=
  foldl (fun p m => markTranscriptProcessed m.1.1 m.1.2 m.2 p) p ms.

Definition marked (p : gmap string (list string)) : Prop := exists ms, p = markAll ms ∅.

(** Every set of the table has at most [MAX_HISTORY] elements, each once. *)
Definition bounded (p : gmap string (list string)) : Prop :=
  forall botId history,
    p !! botId = Some history -> length history <= MAX_HISTORY /\ NoDup history.

(** Ten transcripts of one speaker. *)
Definition tenTranscripts : list (string * string * string) :=
  (fun t => ("b", "ann", t)) <$>
    ["t0"; "t1"; "t2"; "t3"; "t4"; "t5"; "t6"; "t7"; "t8"; "t9"].

End MeetRoute.

(** *** Transcript buffering (src/routes/meet.js)

    Transcripts of a bot are collected until nobody has spoken for five
    seconds and then sent to the agent as one message; what is heard while
    the agent works waits in a second buffer. *)

Module Buffering.
Import JsString JsText.

Definition BUFFER_TIMEOUT_MS : Z := 5000.

(** The instructions that head every message; only their first line is
    kept, the text plays no role in what follows. *)
Definition MEET_CONTEXT_INSTRUCTIONS : string :=
  "CONTEXT: You're listening to a live Google Meet call. You're an active-passive listener.".

Record Item := {
  speaker : string;
  transcript : string;
  timestamp : Z;
}.

Record BufferData := {
  currentBuffer : list Item;
  pendingBuffer : list Item;
  isProcessing : bool;
  timer : option Z;              (* the deadline of the timer, while it is armed *)
  lastSpeaker : option string;   (* null: None *)
  speakers : list string;        (* a Set, in insertion order *)
  lastTranscriptTime : Z;
}.

(** A call [agentManager.sendMessage(channelId, message)], with the time and
    the bot it was made for. *)
Record Sent := {
  sent_at : Z;
  sent_botId : string;
  sent_channelId : string;
  sent_message : string;
}.

Record State := {
  transcriptBuffers : gmap string BufferData;
  clock : Z;
  outbox : list Sent;
}.

Definition init : State := {| transcriptBuffers := ∅; clock := 0; outbox := [] |}.

(** [new Set(xs)], in insertion order. *)
Fixpoint newSet (xs : list string) : list string :=
  match xs with
  | [] => []
  | x :: xs => x :: List.filter (fun y => negb (String.eqb y x)) (newSet xs)
  end.

Definition add (x : string) (set : list string) : list string :=
  if existsb (String.eqb x) set then set else set ++ [x].

Definition bufferTranscript (botId spk text : string) (s : State) : State :=
  let buffers :=
    match transcriptBuffers s !! botId with
    | Some _ => transcriptBuffers s
    | None =>
        <[botId := {| currentBuffer := []; pendingBuffer := []; isProcessing := false;
                      timer := None; lastSpeaker := None; speakers := [];
                      lastTranscriptTime := clock s |}]> (transcriptBuffers s)
    end in
  match buffers !! botId with
  | None => s
  | Some bufferData =>
      let now := clock s in
      let item := {| speaker := spk; transcript := text; timestamp := now |} in
      let bufferData :=
        {| currentBuffer :=
             if isProcessing bufferData then currentBuffer bufferData
             else currentBuffer bufferData ++ [item];
           pendingBuffer :=
             if isProcessing bufferData then pendingBuffer bufferData ++ [item]
             else pendingBuffer bufferData;
           isProcessing := isProcessing bufferData;
           timer :=
             if isProcessing bufferData then timer bufferData
             else Some (now + BUFFER_TIMEOUT_MS)%Z;   (* clearTimeout, then setTimeout *)
           lastSpeaker := Some spk;
           speakers := add spk (speakers bufferData);
           lastTranscriptTime := now |} in
      {| transcriptBuffers := <[botId := bufferData]> buffers;
         clock := clock s; outbox := outbox s |}
  end.

(** The text made of the buffered transcripts. *)
Definition formattedTranscript (items : list Item) : string :=
  let uniqueSpeakers := newSet (speaker <$> items) in
  if Nat.ltb 1 (length uniqueSpeakers)
  then join ", " ((fun item => speaker item +:+ ": " +:+ transcript item) <$> items)
  else join " " (transcript <$> items).

Definition messageFor (spk : string) (items : list Item) : string :=
  MEET_CONTEXT_INSTRUCTIONS +:+ LF +:+ LF
  +:+ "[Google Meet] " +:+ spk +:+ ": " +:+ formattedTranscript items.

(** [processBufferedTranscripts(botId)] up to its [await]; [registry] is the
    map of the bot manager at that time. *)
Definition processBufferedTranscripts (botId : string) (registry : MeetBots.Bots)
    (s : State) : State :=
  match transcriptBuffers s !! botId with
  | None => s
  | Some bufferData =>
      match currentBuffer bufferData with
      | [] => s
      | _ :: _ =>
          let items := currentBuffer bufferData in
          let uniqueSpeakers := newSet (speaker <$> items) in
          let spk :=
            if Nat.eqb (length uniqueSpeakers) 1
            then default "null" (lastSpeaker bufferData)
            else "Multiple speakers" in
          let bufferData' :=
            {| currentBuffer := []; pendingBuffer := pendingBuffer bufferData;
               isProcessing := true; timer := timer bufferData;
               lastSpeaker := None; speakers := [];
               lastTranscriptTime := lastTranscriptTime bufferData |} in
          let channelId :=
            match MeetBots.getBotInfo botId registry with
            | None => "test_" +:+ botId
            | Some botInfo => MeetBots.channelId botInfo
            end in
          {| transcriptBuffers := <[botId := bufferData']> (transcriptBuffers s);
             clock := clock s;
             outbox := outbox s ++ [{| sent_at := clock s; sent_botId := botId;
                                       sent_channelId := channelId;
                                       sent_message := messageFor spk items |}] |}
      end
  end.

(** [processPendingBuffer(botId)] *)
Definition processPendingBuffer (botId : string) (s : State) : State :=
  match transcriptBuffers s !! botId with
  | None => s
  | Some bufferData =>
      match pendingBuffer bufferData with
      | [] => s
      | _ :: _ =>
          let current := pendingBuffer bufferData in
          let bufferData' :=
            {| currentBuffer := current; pendingBuffer := [];
               isProcessing := isProcessing bufferData;
               timer := Some (clock s + BUFFER_TIMEOUT_MS)%Z;
               lastSpeaker := speaker <$> last current;
               speakers := foldl (fun set item => add (speaker item) set) [] current;
               lastTranscriptTime := lastTranscriptTime bufferData |} in
          {| transcriptBuffers := <[botId := bufferData']> (transcriptBuffers s);
             clock := clock s; outbox := outbox s |}
      end
  end.

(** The [finally] of [processBufferedTranscripts]. *)
Definition finishProcessing (botId : string) (s : State) : State :=
  match transcriptBuffers s !! botId with
  | None => s
  | Some bufferData =>
      let bufferData' :=
        {| currentBuffer := currentBuffer bufferData;
           pendingBuffer := pendingBuffer bufferData;
           isProcessing := false; timer := timer bufferData;
           lastSpeaker := lastSpeaker bufferData; speakers := speakers bufferData;
           lastTranscriptTime := lastTranscriptTime bufferData |} in
      processPendingBuffer botId
        {| transcriptBuffers := <[botId := bufferData']> (transcriptBuffers s);
           clock := clock s; outbox := outbox s |}
  end.

Inductive Event :=
| Heard (botId spk text : string)                      (* bufferTranscript is called *)
| Fire (botId : string) (registry : MeetBots.Bots)     (* the timer of the bot fires *)
| Done (botId : string)                                (* the agent has answered, or failed *)
| Wait (dt : Z).

Definition step (e : Event) (s : State) : option State :=
  match e with
  | Heard botId spk text => Some (bufferTranscript botId spk text s)
  | Fire botId registry =>
      match transcriptBuffers s !! botId with
      | Some bufferData =>
          match timer bufferData with
          | Some deadline =>
              if (deadline <=? clock s)%Z then
                let fired :=
                  {| currentBuffer := currentBuffer bufferData;
                     pendingBuffer := pendingBuffer bufferData;
                     isProcessing := isProcessing bufferData; timer := None;
                     lastSpeaker := lastSpeaker bufferData;
                     speakers := speakers bufferData;
                     lastTranscriptTime := lastTranscriptTime bufferData |} in
                Some (processBufferedTranscripts botId registry
                        {| transcriptBuffers := <[botId := fired]> (transcriptBuffers s);
                           clock := clock s; outbox := outbox s |})
              else None
          | None => None
          end
      | None => None
      end
  | Done botId =>
      match transcriptBuffers s !! botId with
      | Some bufferData =>
          if isProcessing bufferData then Some (finishProcessing botId s) else None
      | None => None
      end
  | Wait dt =>
      if (0 <=? dt)%Z
      then Some {| transcriptBuffers := transcriptBuffers s; clock := clock s + dt;
                   outbox := outbox s |}
      else None
  end.

Fixpoint steps (es : list Event) (s : State) : option State :=
  match es with
  | [] => Some s
  | e :: es => match step e s with Some s' => steps es s' | None => None end
  end.

(** What was heard for a bot, in order. *)
Fixpoint heard (botId : string) (es : list Event) : list (string * string) :=
  match es with
  | [] => []
  | Heard b spk text :: es =>
      if String.eqb b botId then (spk, text) :: heard botId es else heard botId es
  | _ :: es => heard botId es
  end.

Definition said (item : Item) : string * string := (speaker item, transcript item).

(** The message for a batch of transcripts: one speaker is named, several
    are not. *)
Definition render (items : list Item) : string :=
  let spk :=
    if Nat.eqb (length (newSet (speaker <$> items))) 1
    then default "null" (speaker <$> last items)
    else "Multiple speakers" in
  messageFor spk items.

Definition sentFor (botId : string) (s : State) : list Sent :=
  List.filter (fun m => String.eqb (sent_botId m) botId) (outbox s).

Definition bufferOf (botId : string) (s : State) : BufferData :=
  default {| currentBuffer := []; pendingBuffer := []; isProcessing := false;
             timer := None; lastSpeaker := None; speakers := [];
             lastTranscriptTime := 0 |}
          (transcriptBuffers s !! botId).

(** What holds of the buffers of a bot, the messages sent for it and what
    was heard for it. *)
Record orderly (bd : BufferData) (now : Z) (sent : list Sent)
    (hd : list (string * string)) : Prop := {
  ord_processing :
    isProcessing bd = true -> timer bd = None /\ currentBuffer bd = [];
  ord_idle :
    isProcessing bd = false ->
    pendingBuffer bd = []
    /\ (currentBuffer bd <> [] ->
        is_Some (timer bd) /\ lastSpeaker bd = speaker <$> last (currentBuffer bd));
  ord_timer : forall deadline,
    timer bd = Some deadline ->
    Forall (fun item => (timestamp item + BUFFER_TIMEOUT_MS <= deadline)%Z)
           (currentBuffer bd);
  ord_past :
    Forall (fun item => (timestamp item <= now)%Z) (currentBuffer bd ++ pendingBuffer bd);
  ord_batches :
    exists batches,
      Forall2 (fun batch m =>
                 batch <> [] /\ sent_message m = render batch
                 /\ Forall (fun item => (timestamp item + BUFFER_TIMEOUT_MS <= sent_at m)%Z)
                           batch)
              batches sent
      /\ said <$> (concat batches ++ currentBuffer bd ++ pendingBuffer bd) = hd;
}.

(** A conversation: two people speak, the timer fires, a third remark comes
    while the agent works, the agent finishes. *)
Definition meeting : list Event :=
  [Heard "b" "ann" "the login page is broken"; Wait 1000;
   Heard "b" "bob" "yes since friday"; Wait 5000; Fire "b" [];
   Heard "b" "ann" "and the logo is gone"; Done "b"].

End Buffering.

(** ** The update_memory tool (src/tools/update-memory/index.js) *)

Module UpdateMemory.
Import JsString JsText.

(** The memory a first note is added to. *)
Definition freshMemory : string :=
  "# BugBuster Memory" +:+ LF +:+ LF
  +:+ "Things I've learned while helping the team." +:+ LF +:+ LF.

(** The first loop: the index of the first line that is the header, plus
    one; 0 when there is none ([categoryIndex] is -1 then). *)
Fixpoint afterHeader (categoryHeader : string) (lines : list string) (i : nat)
    : option nat :=
  match lines with
  | [] => None
  | line :: rest =>
      if String.eqb line categoryHeader then Some (S i)
      else afterHeader categoryHeader rest (S i)
  end.

(** The second loop, from line [i] on: the index of the next line that
    starts a section, or the number of lines. *)
Fixpoint nextSection (lines : list string) (i : nat) : nat :=
  match lines with
  | [] => i
  | line :: rest => if startsWith line "## " then i else nextSection rest (S i)
  end.

(** [lines.splice(insertIndex, 0, newEntry)] *)
Definition splice (insertIndex : nat) (newEntry : string) (lines : list string)
    : list string :=
  take insertIndex lines ++ newEntry :: drop insertIndex lines.

Definition insertIndexOf (categoryHeader : string) (lines : list string) : nat :=
  let start := default 0 (afterHeader categoryHeader lines 0) in
  nextSection (drop start lines) start.

(** The memory with the note added; [today] is the date of the day. *)
Definition updated (memory note category today : string) : string :=
  let categoryHeader := "## " +:+ category in
  let newEntry := "- [" +:+ today +:+ "] " +:+ note in
  if includes memory categoryHeader then
    let lines := split memory in
    join LF (splice (insertIndexOf categoryHeader lines) newEntry lines)
  else
    memory +:+ LF +:+ categoryHeader +:+ LF +:+ newEntry +:+ LF.

(** [execute({ note, category })]: the text for the model and what is
    written to the file, if anything. [stored] is what reading the file gives
    when the file exists, [written] what writing gives. *)
Definition execute (stored : option (Result string)) (written : Result unit)
    (note category today : string) : string * option string :=
  match stored with
  | Some (Throw message) => ("❌ Failed to save: " +:+ message, None)
  | _ =>
      let memory :=
        match stored with
        | Some (Ok content) => content
        | _ => freshMemory
        end in
      let memory := updated memory note category today in
      match written with
      | Ok _ => ("✅ Saved to memory", Some memory)
      | Throw message => ("❌ Failed to save: " +:+ message, None)
      end
  end.

(** A memory with two sections, and one that only mentions a section. *)
Definition twoSections : string :=
  "# Memory" +:+ LF +:+ "## jira" +:+ LF +:+ "- a" +:+ LF +:+ "## workflow" +:+ LF +:+ "- b".

Definition mentionOnly : string :=
  "# Memory" +:+ LF +:+ "see ## jira below" +:+ LF +:+ "## workflow" +:+ LF +:+ "- b".

End UpdateMemory.

(** ** Properties of the reasoning loop *)

Module LoopFacts.
Import JsString Loop Props.

Section WithCollaborators.
Context {W : Type} (C : Collaborators W).
Implicit Type f : Frame W.

Lemma prefix_refl (s : string) : String.prefix s s = true.
Proof.
  induction s as [|c s IH]; simpl; [reflexivity|].
  destruct (ascii_dec c c); [exact IH | congruence].
Qed.

Lemma includes_self (s : string) : includes s s = true.
Proof. destruct s; cbn [includes]; rewrite prefix_refl; reflexivity. Qed.

Lemma carriesSentinel_includes (text : string) :
  carriesSentinel text = includes (toUpperCase (trim text)) SILENT.
Proof.
  unfold carriesSentinel.
  destruct (String.eqb (toUpperCase (trim text)) SILENT) eqn:E; [|reflexivity].
  apply String.eqb_eq in E. rewrite E. simpl orb. symmetry. apply includes_self.
Qed.

(** *** Text chunks *)


(** *** What the steps of a round leave alone *)

Lemma emit_block_history names channelId block f :
  history (emit_block C names channelId block f) = history f.
Proof.
  unfold emit_block. repeat case_match; reflexivity.
Qed.

Lemma emit_block_modelCalls names channelId block f :
  modelCalls (trace (emit_block C names channelId block f)) = modelCalls (trace f).
Proof.
  unfold emit_block, modelCalls. repeat case_match; try reflexivity.
  cbn [record trace]. rewrite omap_app. cbn. apply app_nil_r.
Qed.

Lemma emit_blocks_history names channelId blocks f :
  history (emit_blocks C names channelId blocks f) = history f.
Proof.
  unfold emit_blocks. revert f.
  induction blocks as [|b bs IH]; intros f; cbn [fold_left]; [reflexivity|].
  rewrite IH. apply emit_block_history.
Qed.

Lemma emit_blocks_modelCalls names channelId blocks f :
  modelCalls (trace (emit_blocks C names channelId blocks f)) = modelCalls (trace f).
Proof.
  unfold emit_blocks. revert f.
  induction blocks as [|b bs IH]; intros f; cbn [fold_left]; [reflexivity|].
  rewrite IH. apply emit_block_modelCalls.
Qed.

Lemma execute_tools_app channelId toolCalls acc f :
  execute_tools C channelId toolCalls acc f
  = (acc ++ (execute_tools C channelId toolCalls [] f).1,
     (execute_tools C channelId toolCalls [] f).2).
Proof.
  revert acc f. induction toolCalls as [|c rest IH]; intros acc f; cbn [execute_tools].
  { cbn. rewrite app_nil_r. reflexivity. }
  destruct (executeTool C (name c) (input c) channelId (world f)) as [[result|message] w].
  - rewrite IH. rewrite (IH ([] ++ _)). cbn [fst snd]. rewrite <- app_assoc. reflexivity.
  - rewrite IH. rewrite (IH ([] ++ _)). cbn [fst snd]. rewrite <- app_assoc. reflexivity.
Qed.

Lemma execute_tools_history channelId toolCalls acc f :
  history (execute_tools C channelId toolCalls acc f).2 = history f.
Proof.
  revert acc f. induction toolCalls as [|c rest IH]; intros acc f; cbn [execute_tools];
    [reflexivity|].
  destruct (executeTool C (name c) (input c) channelId (world f)) as [[result|message] w];
    rewrite IH; reflexivity.
Qed.

Lemma execute_tools_modelCalls channelId toolCalls acc f :
  modelCalls (trace (execute_tools C channelId toolCalls acc f).2) = modelCalls (trace f).
Proof.
  revert acc f. induction toolCalls as [|c rest IH]; intros acc f; cbn [execute_tools];
    [reflexivity|].
  destruct (executeTool C (name c) (input c) channelId (world f)) as [[result|message] w];
    rewrite IH; unfold modelCalls; cbn [record trace]; rewrite omap_app; cbn;
    apply app_nil_r.
Qed.

(** Every requested call gets its result, at its own position: the value the
    tool returned, or the message of the error it threw, with [is_error]. *)
Lemma execute_tools_lookup channelId toolCalls f k toolCall :
  toolCalls !! k = Some toolCall ->
  (execute_tools C channelId toolCalls [] f).1 !! k
  = Some (toolResultOf C channelId toolCall
            (world (execute_tools C channelId (take k toolCalls) [] f).2)).
Proof.
  revert f k. induction toolCalls as [|c rest IH]; intros f k Hk; [discriminate|].
  destruct k as [|k].
  - injection Hk as ->. cbn [take execute_tools snd]. unfold toolResultOf.
    destruct (executeTool C (name toolCall) (input toolCall) channelId (world f))
      as [[result|message] w]; rewrite execute_tools_app; reflexivity.
  - cbn [lookup list_lookup] in Hk. cbn [take execute_tools].
    destruct (executeTool C (name c) (input c) channelId (world f))
      as [[result|message] w];
      rewrite execute_tools_app, (execute_tools_app _ (take k rest));
      cbn [fst snd app]; apply IH; exact Hk.
Qed.

(** *** Rounds *)

Lemma tool_rounds_done sys names channelId n round response f :
  toolCallsOf (response_content response) = [] ->
  tool_rounds C sys names channelId n round response f
  = (match n with
     | O => f
     | S _ => emit_blocks C names channelId (response_content response) f
     end, Ok (response, round)).
Proof.
  intros Hnone. destruct n; cbn [tool_rounds]; [reflexivity|].
  rewrite Hnone. reflexivity.
Qed.

Lemma tool_rounds_round sys names channelId n round response f :
  toolCallsOf (response_content response) <> [] ->
  tool_rounds C sys names channelId (S n) round response f
  = let f4 := afterTools C names channelId response f in
    let f5 := record (ModelCall sys (history f4))
                (messages_create C sys (history f4) (world f4)).2 f4 in
    match (messages_create C sys (history f4) (world f4)).1 with
    | Throw message => (f5, Throw message)
    | Ok response' => tool_rounds C sys names channelId n (S round) response' f5
    end.
Proof.
  intros Hsome. cbn [tool_rounds].
  destruct (toolCallsOf (response_content response)) as [|c cs] eqn:Ecalls; [congruence|].
  cbn [length Nat.eqb]. unfold afterTools, roundResults, beforeTools. rewrite Ecalls.
  destruct (execute_tools C channelId (c :: cs) [] _) as [toolResults f3]. cbn [fst snd].
  destruct (messages_create C sys _ _) as [[response'|message] w]; reflexivity.
Qed.

Lemma afterTools_history names channelId response f :
  history (afterTools C names channelId response f)
  = history f ++ [{| role := assistant; content := Blocks (response_content response) |};
                  {| role := user;
                     content := Blocks (roundResults C names channelId response f) |}].
Proof.
  unfold afterTools, beforeTools. cbn [push history].
  rewrite execute_tools_history. cbn [push history].
  rewrite emit_blocks_history, <- app_assoc. reflexivity.
Qed.

Lemma afterTools_modelCalls names channelId response f :
  modelCalls (trace (afterTools C names channelId response f)) = modelCalls (trace f).
Proof.
  unfold afterTools, beforeTools. cbn [push trace].
  rewrite execute_tools_modelCalls. cbn [push trace].
  apply emit_blocks_modelCalls.
Qed.

Lemma record_modelCalls system messages w f :
  modelCalls (trace (record (ModelCall system messages) w f))
  = modelCalls (trace f) ++ [(system, messages)].
Proof. unfold modelCalls. cbn [record trace]. rewrite omap_app. reflexivity. Qed.

(** The loop asks the model at most [remaining] more times, and leaves with
    a round count it reached from [toolRound] in at most that many rounds. *)
Lemma tool_rounds_bound sys names channelId n round response f :
  length (modelCalls (trace (tool_rounds C sys names channelId n round response f).1))
  <= length (modelCalls (trace f)) + n
  /\ forall response' k,
       (tool_rounds C sys names channelId n round response f).2 = Ok (response', k) ->
       round <= k <= round + n.
Proof.
  revert round response f. induction n as [|n IH]; intros round response f.
  { cbn. split; [lia|]. intros ? ? [= _ <-]. lia. }
  destruct (toolCallsOf (response_content response)) as [|c cs] eqn:Ecalls.
  { rewrite tool_rounds_done by exact Ecalls. cbn [fst snd].
    rewrite emit_blocks_modelCalls. split; [lia|]. intros ? ? [= _ <-]. lia. }
  rewrite tool_rounds_round by (rewrite Ecalls; discriminate). cbv zeta.
  destruct (messages_create C sys _ _) as [[response'|message] w]; cbn [fst snd].
  - destruct (IH (S round) response'
                (record (ModelCall sys (history (afterTools C names channelId response f))) w
                   (afterTools C names channelId response f))) as [Hcalls Hround].
    rewrite record_modelCalls, length_app, afterTools_modelCalls in Hcalls.
    cbn [length] in Hcalls. split; [lia|].
    intros r k Hk. apply Hround in Hk. lia.
  - rewrite record_modelCalls, length_app, afterTools_modelCalls. cbn [length].
    split; [lia|]. discriminate.
Qed.

(** With a model that asks for tools in every response the loop is only left
    by its condition: all [remaining] rounds are done. *)
Lemma tool_rounds_insistent sys names channelId n round response f :
  alwaysAsksForTools C ->
  toolCallsOf (response_content response) <> [] ->
  exists f' response',
    tool_rounds C sys names channelId n round response f = (f', Ok (response', round + n))
    /\ toolCallsOf (response_content response') <> []
    /\ length (modelCalls (trace f')) = length (modelCalls (trace f)) + n.
Proof.
  intros Hasks. revert round response f.
  induction n as [|n IH]; intros round response f Hcalls.
  { exists f, response. cbn [tool_rounds]. rewrite !Nat.add_0_r. auto. }
  rewrite tool_rounds_round by exact Hcalls. cbv zeta.
  destruct (Hasks sys (history (afterTools C names channelId response f))
              (world (afterTools C names channelId response f)))
    as (response' & w' & Hcreate & Hcalls').
  rewrite Hcreate. cbn [fst snd].
  destruct (IH (S round) response'
              (record (ModelCall sys (history (afterTools C names channelId response f))) w'
                 (afterTools C names channelId response f)) Hcalls')
    as (f' & response'' & Hrun & Hcalls'' & Hlen).
  exists f', response''. rewrite Hrun. split; [f_equal; f_equal; f_equal; lia|].
  split; [exact Hcalls''|].
  rewrite Hlen, record_modelCalls, length_app, afterTools_modelCalls. cbn [length]. lia.
Qed.

(** C7: a tool that throws does not end the run. Its error message is put
    in the batch of tool results as ["Error: " + message] with [is_error]
    set, at the position of the call; the batch is pushed to the history
    after the assistant turn; the next model call is made on that history;
    and when the model then answers without tool calls, the loop returns
    normally with that answer. *)
Theorem tool_failure_contained (sys : string) (names : gmap string string)
    (channelId : string) (n round : nat) (response : Response) f
    (k : nat) (toolCall : ToolUseBlock) (message : string)
    (response' : Response) (w' : W) :
  let toolCalls := toolCallsOf (response_content response) in
  let toolResults := roundResults C names channelId response f in
  let f4 := afterTools C names channelId response f in
  toolCalls !! k = Some toolCall ->
  (executeTool C (name toolCall) (input toolCall) channelId
     (world (execute_tools C channelId (take k toolCalls) []
               (beforeTools C names channelId response f)).2)).1 = Throw message ->
  messages_create C sys (history f4) (world f4) = (Ok response', w') ->
  toolCallsOf (response_content response') = [] ->
  toolResults !! k = Some (ToolResult (id toolCall) ("Error: " +:+ message) true)
  /\ history f4
     = history f ++ [{| role := assistant; content := Blocks (response_content response) |};
                     {| role := user; content := Blocks toolResults |}]
  /\ exists f',
       tool_rounds C sys names channelId (S n) round response f
       = (f', Ok (response', S round))
       /\ last (modelCalls (trace f')) = Some (sys, history f4).
Proof.
  intros toolCalls toolResults f4 Hk Hthrow Hcreate Hdone.
  split.
  { unfold toolResults, roundResults. rewrite (execute_tools_lookup _ _ _ _ _ Hk).
    unfold toolResultOf. fold toolCalls. rewrite Hthrow. reflexivity. }
  split; [apply afterTools_history|].
  assert (Hsome : toolCallsOf (response_content response) <> []).
  { fold toolCalls. intros E. rewrite E in Hk. discriminate. }
  rewrite tool_rounds_round by exact Hsome. cbv zeta. fold f4.
  rewrite Hcreate. cbn [fst snd]. rewrite tool_rounds_done by exact Hdone.
  eexists. split; [reflexivity|].
  destruct n; [|rewrite emit_blocks_modelCalls];
    rewrite record_modelCalls; apply last_snoc.
Qed.

(** C3, as amended: the run always ends. It asks the model at most
    1 + 50 times and does at most 50 tool rounds. With a model that asks for
    a tool in every response it does exactly 50 rounds and 51 model calls and
    then returns normally: the returned text is the text accumulated from the
    responses, and the last response, which still asks for tools, is pushed
    to the history as the final assistant turn. *)
Theorem tool_rounds_limit (sys systemPrompt : string) (names : gmap string string)
    (channelId : string) f :
  let out := run_model C sys systemPrompt names channelId f in
  length (modelCalls (trace out.1)) <= length (modelCalls (trace f)) + 1 + MAX_TOOL_ROUNDS
  /\ (forall a, out.2 = Ok a -> answer_rounds a <= MAX_TOOL_ROUNDS)
  /\ (alwaysAsksForTools C ->
      exists a,
        out.2 = Ok a
        /\ answer_rounds a = MAX_TOOL_ROUNDS
        /\ length (modelCalls (trace out.1))
           = length (modelCalls (trace f)) + 1 + MAX_TOOL_ROUNDS
        /\ answer_text a = assistantText out.1
        /\ toolCallsOf (response_content (answer_response a)) <> []
        /\ last (history out.1)
           = Some {| role := assistant;
                     content := Blocks (response_content (answer_response a)) |}).
Proof.
  cbv zeta. unfold run_model.
  destruct (messages_create C systemPrompt (history f) (world f))
    as [[response|message] w] eqn:Hfirst.
  2:{ cbn [fst snd]. rewrite record_modelCalls, length_app. cbn [length].
      split; [lia|]. split; [discriminate|].
      intros Hasks. destruct (Hasks systemPrompt (history f) (world f))
        as (r & w0 & Hr & _). congruence. }
  set (f1 := record (ModelCall systemPrompt (history f)) w f).
  pose proof (tool_rounds_bound sys names channelId MAX_TOOL_ROUNDS 0 response f1)
    as [Hcalls Hround].
  assert (Hf1 : length (modelCalls (trace f1)) = length (modelCalls (trace f)) + 1).
  { unfold f1. rewrite record_modelCalls, length_app. reflexivity. }
  split; [|split].
  - destruct (tool_rounds C sys names channelId MAX_TOOL_ROUNDS 0 response f1)
      as [f' [[r k]|m]]; cbn [fst snd push trace] in *; lia.
  - destruct (tool_rounds C sys names channelId MAX_TOOL_ROUNDS 0 response f1)
      as [f' [[r k]|m]]; cbn [fst snd] in *; [|discriminate].
    intros a [= <-]. cbn [answer_rounds]. specialize (Hround r k eq_refl). lia.
  - intros Hasks.
    assert (Hcalls0 : toolCallsOf (response_content response) <> []).
    { destruct (Hasks systemPrompt (history f) (world f)) as (r & w0 & Hr & Hc).
      rewrite Hfirst in Hr. injection Hr as <- <-. exact Hc. }
    destruct (tool_rounds_insistent sys names channelId MAX_TOOL_ROUNDS 0 response f1
                Hasks Hcalls0) as (f' & r & Hrun & Hcalls' & Hlen).
    rewrite Hrun. cbn [fst snd]. eexists. split; [reflexivity|].
    cbn [answer_rounds answer_text answer_response push trace history assistantText].
    split; [reflexivity|]. split; [lia|]. split; [reflexivity|].
    split; [exact Hcalls'|]. apply last_snoc.
Qed.

End WithCollaborators.
End LoopFacts.

(** *** The loop on the stubs *)

Module LoopExamples.
Import JsString Loop Props LoopFacts Stub Scenarios.



(** The first of two tools throws: its error is in the batch, the second
    tool still runs, and the loop returns the model's next answer. *)
Lemma tool_failure_contained_witness :
  roundResults scripted ∅ "c" failingRound (frame0 [] [])
  = [ToolResult "t1" "Error: disk full" true; ToolResult "t2" "uptime" false]
  /\ exists f',
       tool_rounds scripted "sys" ∅ "c" 50 0 failingRound (frame0 [] [])
       = (f', Ok (reply [Text "done"] 0 0, 1)).
Proof.
  assert (Hcreate :
    messages_create scripted "sys"
      (history (afterTools scripted ∅ "c" failingRound (frame0 [] [])))
      (world (afterTools scripted ∅ "c" failingRound (frame0 [] [])))
    = (Ok (reply [Text "done"] 0 0), [])) by (vm_compute; reflexivity).
  destruct (tool_failure_contained scripted "sys" ∅ "c" 49 0 failingRound (frame0 [] [])
              0 {| id := "t1"; name := "boom"; input := "disk full" |} "disk full"
              (reply [Text "done"] 0 0) [] eq_refl eq_refl Hcreate eq_refl)
    as (_ & _ & f' & Hrun & _).
  split; [vm_compute; reflexivity|]. exists f'. exact Hrun.
Defined.

Lemma insistent_asks (say : string) : alwaysAsksForTools (insistent say).
Proof.
  intros system messages w. eexists _, _. split; [reflexivity|]. discriminate.
Qed.

(** The insistent model is stopped after 50 rounds. *)
Lemma tool_rounds_limit_witness :
  exists a,
    (run_model (insistent "a") "sys" "sys" ∅ "c" (frame0 [] tt)).2 = Ok a
    /\ answer_rounds a = 50.
Proof.
  destruct (tool_rounds_limit (insistent "a") "sys" "sys" ∅ "c" (frame0 [] tt))
    as (_ & _ & Hlimit).
  destruct (Hlimit (insistent_asks "a")) as (a & Hout & Hrounds & _).
  exists a. split; [exact Hout | exact Hrounds].
Defined.

(** Models that ask for a tool in every response: what the run returns
    depends on what they said, so it is no fixed message. *)
Lemma no_timeout_message :
  (forall say, alwaysAsksForTools (insistent say))
  /\ ~ exists message, forall say,
         returned (run_model (insistent say) "sys" "sys" ∅ "c" (frame0 [] tt))
         = Some message.
Proof.
  split; [exact insistent_asks|].
  intros [message Hfixed].
  pose proof (Hfixed "a") as Ha. pose proof (Hfixed "b") as Hb.
  vm_compute in Ha, Hb. congruence.
Qed.

End LoopExamples.

(** ** Properties of the manager *)

Module ManagerFacts.
Import JsString Loop Manager Props.

Section Lists.
Context {A B : Type} (f : A -> B).

Lemma delete_fmap_NoDup (l : list A) (i : nat) (a : A) :
  NoDup (f <$> l) -> l !! i = Some a ->
  NoDup (f <$> delete i l)
  /\ forall b, b ∈ f <$> delete i l <-> b <> f a /\ b ∈ f <$> l.
Proof.
  intros Hnd Hi.
  pose proof (take_drop_middle l i a Hi) as Hl.
  rewrite delete_take_drop.
  assert (Hin : forall b, b ∈ f <$> l
                          <-> b ∈ f <$> take i l \/ b = f a \/ b ∈ f <$> drop (S i) l).
  { intros b. rewrite <- Hl at 1. rewrite fmap_app, fmap_cons, elem_of_app, elem_of_cons.
    reflexivity. }
  rewrite <- Hl, fmap_app, fmap_cons in Hnd.
  apply NoDup_app in Hnd as (Hleft & Hdisjoint & Hright).
  apply NoDup_cons in Hright as (Ha & Hright).
  rewrite fmap_app. split.
  - apply NoDup_app. split; [exact Hleft|]. split; [|exact Hright].
    intros b Hb Hb'. apply (Hdisjoint b Hb). right. exact Hb'.
  - intros b. rewrite elem_of_app, Hin. split; [|tauto].
    intros [Hb|Hb]; (split; [|tauto]); intros ->.
    + apply (Hdisjoint _ Hb). left.
    + exact (Ha Hb).
Qed.

Lemma filter_fmap_absent `{EqDecision B} (l : list A) (b : B) :
  b ∉ f <$> l -> filter (fun a => f a = b) l = [].
Proof.
  induction l as [|a l IH]; intros Hb; [reflexivity|].
  rewrite fmap_cons, not_elem_of_cons in Hb. destruct Hb as [Hne Hb].
  rewrite filter_cons. destruct (decide (f a = b)); [congruence|auto].
Qed.

Lemma filter_fmap_present `{EqDecision B} (l : list A) (b : B) :
  b ∈ f <$> l -> filter (fun a => f a = b) l <> [].
Proof.
  intros Hb Hnil. apply list_elem_of_fmap in Hb as (a & -> & Ha).
  exact (filter_nil_not_elem_of _ _ a Hnil eq_refl Ha).
Qed.

Lemma filter_fmap_NoDup `{EqDecision B} (l : list A) (b : B) :
  NoDup (f <$> l) -> length (filter (fun a => f a = b) l) <= 1.
Proof.
  induction l as [|a l IH]; intros Hnd; [cbn; lia|].
  rewrite fmap_cons in Hnd. apply NoDup_cons in Hnd as (Ha & Hnd).
  rewrite filter_cons. destruct (decide (f a = b)) as [<-|]; [|auto].
  rewrite (filter_fmap_absent l (f a) Ha). cbn. lia.
Qed.

End Lists.

Ltac unfold_ops :=
  unfold finish, resume_processMessage, immediate, resume, sendMessage,
    begin_processMessage, getOrInitHistory, resetInactivityTimer, newPromise, settle,
    addCost, closeSession in *.

Section WithCollaborators.
Context {W : Type} (C : Collaborators W).
Implicit Type s : State W.

Lemma settleIn_lookup p v ps q pr' :
  settleIn p v ps !! q = Some pr' ->
  exists pr, ps !! q = Some pr /\ origin pr' = origin pr
    /\ (settled pr' = settled pr \/ (q = p /\ settled pr = Pending /\ settled pr' = v)).
Proof.
  unfold settleIn. destruct (ps !! p) as [[o st]|] eqn:Hp; [|eauto].
  destruct st; eauto. intros Hq. destruct (decide (q = p)) as [->|Hne].
  - rewrite list_lookup_insert_eq in Hq by (eapply lookup_lt_Some; exact Hp).
    injection Hq as <-. eexists. split; [exact Hp|]. cbn. auto.
  - rewrite list_lookup_insert_ne in Hq by done. eauto.
Qed.

Lemma settleIn_origin p v ps q pr :
  ps !! q = Some pr ->
  exists pr', settleIn p v ps !! q = Some pr' /\ origin pr' = origin pr.
Proof.
  intros Hq. unfold settleIn. destruct (ps !! p) as [[o st]|] eqn:Hp; [|eauto].
  destruct st; eauto. destruct (decide (q = p)) as [->|Hne].
  - rewrite list_lookup_insert_eq by (eapply lookup_lt_Some; exact Hp).
    rewrite Hp in Hq. injection Hq as <-. eauto.
  - rewrite list_lookup_insert_ne by done. eauto.
Qed.

Lemma sendMessage_effect channelId userMessage channelName messageContent s :
  let s' := (sendMessage channelId userMessage channelName messageContent s).2 in
  now s' = now s
  /\ immediates s' = immediates s
  /\ awaiting s' = awaiting s
  /\ ((is_Some (processingLocks s !! channelId)
       /\ promises s' = promises s ++ [{| origin := OfQueue; settled := Pending |}]
       /\ running s' = running s
       /\ processingLocks s' = processingLocks s
       /\ inactivityTimers s' = inactivityTimers s)
      \/ (processingLocks s !! channelId = None
          /\ promises s' = promises s ++ [{| origin := OfRun; settled := Pending |}]
          /\ processingLocks s' = <[channelId := true]> (processingLocks s)
          /\ inactivityTimers s'
             = <[channelId := (now s + INACTIVITY_TIMEOUT_MS)%Z]> (inactivityTimers s)
          /\ exists r,
               running s' = running s ++ [r]
               /\ run_channelId r = channelId
               /\ run_promise r = length (promises s)
               /\ run_started r = now s)).
Proof.
  unfold_ops.
  destruct (processingLocks s !! channelId) as [b|] eqn:Hlock.
  - repeat case_match; simplify_eq/=; repeat split; try done; left; rewrite ?Hlock;
      eauto 10.
  - repeat case_match; simplify_eq/=; repeat split; try done; right; rewrite ?Hlock;
      eauto 10.
Qed.

Lemma finish_effect i r s :
  let s' := finish C i r s in
  now s' = now s
  /\ awaiting s' = awaiting s
  /\ running s' = delete i (running s)
  /\ processingLocks s' = delete (run_channelId r) (processingLocks s)
  /\ inactivityTimers s' = inactivityTimers s
  /\ conversationHistory s' = conversationHistory s
  /\ promises s'
     = settleIn (run_promise r) (outcome (resume_processMessage C r s).2) (promises s).
Proof.
  unfold_ops. repeat case_match; simplify_eq/=; repeat split; done.
Qed.

Lemma closeSession_effect channelId s :
  let s' := closeSession channelId s in
  now s' = now s
  /\ immediates s' = immediates s
  /\ awaiting s' = awaiting s
  /\ running s' = running s
  /\ processingLocks s' = processingLocks s
  /\ promises s' = promises s
  /\ messageQueues s' = messageQueues s
  /\ forall c deadline,
       inactivityTimers s' !! c = Some deadline -> inactivityTimers s !! c = Some deadline.
Proof.
  unfold_ops. case_match; simplify_eq/=; repeat split; try done.
  intros c deadline [_ Hc]%lookup_delete_Some. exact Hc.
Qed.


(** *** The invariant *)

Lemma consistent_same s s' :
  running s' = running s ->
  processingLocks s' = processingLocks s ->
  promises s' = promises s ->
  (forall c deadline,
     inactivityTimers s' !! c = Some deadline -> inactivityTimers s !! c = Some deadline) ->
  consistent s -> consistent s'.
Proof.
  intros Hrun Hlock Hprom Htimer [H1 H2 H3 H4 H5].
  split; unfold runChannels in *; rewrite ?Hrun, ?Hlock, ?Hprom; auto.
Qed.

Lemma consistent_init prompt (w : W) : consistent (init prompt w).
Proof.
  split; unfold runChannels; cbn.
  - constructor.
  - intros c. rewrite lookup_empty. split; [intros [? ?]; discriminate|].
    intros ?%elem_of_nil. contradiction.
  - intros r ?%elem_of_nil. contradiction.
  - intros r d ?%elem_of_nil. contradiction.
  - intros p pr ?. discriminate.
Qed.

Lemma consistent_sendMessage channelId userMessage channelName messageContent s :
  consistent s ->
  consistent (sendMessage channelId userMessage channelName messageContent s).2.
Proof.
  intros [Hnd Hlocked Hprom Htimer Hqueued].
  destruct (sendMessage_effect channelId userMessage channelName messageContent s)
    as (_ & _ & _ & Hcases).
  unfold runChannels in *.
  destruct Hcases as [(Hlock & Hp & Hr & Hl & Ht)
                     |(Hlock & Hp & Hl & Ht & r & Hr & Hrc & Hrp & Hrs)].
  - split; unfold runChannels; rewrite ?Hp, ?Hr, ?Hl, ?Ht; auto.
    + intros r0 Hr0. destruct (Hprom r0 Hr0) as (pr & Hpr & Ho).
      exists pr. split; [|exact Ho]. apply lookup_app_l_Some. exact Hpr.
    + intros p pr Hpr Ho. apply lookup_app_Some in Hpr as [Hpr|[_ Hpr]]; [eauto|].
      apply list_lookup_singleton_Some in Hpr as [_ <-]. discriminate.
  - assert (Hfresh : channelId ∉ run_channelId <$> running s).
    { intros Hin. apply Hlocked in Hin. rewrite Hlock in Hin. destruct Hin; discriminate. }
    split; unfold runChannels; rewrite ?Hp, ?Hr, ?Hl, ?Ht.
    + rewrite fmap_app. apply NoDup_app. split; [exact Hnd|]. split.
      * intros c Hc. cbn. rewrite Hrc. intros ->%list_elem_of_singleton. auto.
      * cbn. apply NoDup_singleton.
    + intros c. rewrite fmap_app, elem_of_app. cbn. rewrite Hrc, list_elem_of_singleton.
      rewrite <- Hlocked. destruct (decide (channelId = c)) as [->|Hne].
      * rewrite lookup_insert_eq. split; eauto.
      * rewrite lookup_insert_ne by done. split; [auto|]. intros [?|?]; [done|congruence].
    + intros r0 [Hr0| ->%list_elem_of_singleton]%elem_of_app.
      * destruct (Hprom r0 Hr0) as (pr & Hpr & Ho).
        exists pr. split; [|exact Ho]. apply lookup_app_l_Some. exact Hpr.
      * eexists. rewrite Hrp. split; [apply list_lookup_middle; reflexivity|reflexivity].
    + intros r0 d [Hr0| ->%list_elem_of_singleton]%elem_of_app.
      * rewrite lookup_insert_ne; [eauto|].
        intros ->. apply Hfresh. apply list_elem_of_fmap. eauto.
      * rewrite Hrc, lookup_insert_eq, Hrs. congruence.
    + intros p pr Hpr Ho. apply lookup_app_Some in Hpr as [Hpr|[_ Hpr]]; [eauto|].
      apply list_lookup_singleton_Some in Hpr as [_ <-]. discriminate.
Qed.

Lemma consistent_finish i r s :
  running s !! i = Some r -> consistent s -> consistent (finish C i r s).
Proof.
  intros Hi [Hnd Hlocked Hprom Htimer Hqueued].
  destruct (finish_effect i r s) as (_ & _ & Hr & Hl & Ht & _ & Hp).
  unfold runChannels in *.
  destruct (delete_fmap_NoDup run_channelId _ _ _ Hnd Hi) as [Hnd' Hin'].
  assert (Hsub : forall r0, r0 ∈ delete i (running s) -> r0 ∈ running s).
  { intros r0. apply list_elem_of_delete_inv. }
  split; unfold runChannels; rewrite ?Hr, ?Hl, ?Ht, ?Hp.
  - exact Hnd'.
  - intros c. rewrite Hin', <- Hlocked. destruct (decide (run_channelId r = c)) as [<-|Hne].
    + rewrite lookup_delete_eq. split; [intros [? ?]; discriminate|tauto].
    + rewrite lookup_delete_ne by done. split; [auto|tauto].
  - intros r0 Hr0. destruct (Hprom r0 (Hsub _ Hr0)) as (pr & Hpr & Ho).
    destruct (settleIn_origin (run_promise r) (outcome (resume_processMessage C r s).2)
                _ _ _ Hpr) as (pr' & Hpr' & Ho').
    exists pr'. split; [exact Hpr'|congruence].
  - intros r0 d Hr0. apply Htimer, Hsub, Hr0.
  - intros p pr' Hpr' Ho reason Hrej.
    apply settleIn_lookup in Hpr' as (pr & Hpr & Ho' & [Hst|(-> & _ & _)]).
    + refine (Hqueued p pr Hpr _ reason _); congruence.
    + destruct (Hprom r) as (pr0 & Hpr0 & Ho0).
      { apply list_elem_of_lookup. eauto. }
      congruence.
Qed.

Lemma consistent_settle_fulfilled p value s :
  consistent s -> consistent (settle p (Fulfilled value) s).
Proof.
  intros [Hnd Hlocked Hprom Htimer Hqueued]. unfold settle.
  split; unfold runChannels; cbn; auto.
  - intros r0 Hr0. destruct (Hprom r0 Hr0) as (pr & Hpr & Ho).
    destruct (settleIn_origin p (Fulfilled value) _ _ _ Hpr) as (pr' & Hpr' & Ho').
    exists pr'. split; [exact Hpr'|congruence].
  - intros q pr' Hpr' Ho reason Hrej.
    apply settleIn_lookup in Hpr' as (pr & Hpr & Ho' & [Hst|(-> & _ & Hst)]).
    + refine (Hqueued q pr Hpr _ reason _); congruence.
    + congruence.
Qed.

Lemma consistent_step e s s' :
  step C e s = Some s' -> consistent s -> consistent s'.
Proof.
  destruct e as [c m n b|i| |k|dt|c|c]; cbn [step]; intros Hstep Hs.
  - injection Hstep as <-. apply consistent_sendMessage, Hs.
  - destruct (running s !! i) as [r|] eqn:Hi; [|discriminate].
    injection Hstep as <-. apply consistent_finish; assumption.
  - destruct (immediates s) as [|[c next] rest]; [discriminate|].
    injection Hstep as <-. unfold immediate.
    destruct (sendMessage c (userMessage next) (channelName next) (messageContent next)
                (set_immediates rest s)) as [p s1] eqn:Hsend.
    apply (consistent_same s1); try reflexivity; [auto|].
    replace s1 with (sendMessage c (userMessage next) (channelName next)
                       (messageContent next) (set_immediates rest s)).2
      by (rewrite Hsend; reflexivity).
    apply consistent_sendMessage. apply (consistent_same s); try reflexivity; auto.
  - destruct (awaiting s !! k) as [[awaited entry]|]; [|discriminate].
    unfold resume in Hstep.
    destruct (settled <$> promises s !! awaited) as [[|value|reason]|]; try discriminate;
      injection Hstep as <-; apply consistent_settle_fulfilled;
      apply (consistent_same s); try reflexivity; auto.
  - destruct (0 <=? dt)%Z; [|discriminate]. injection Hstep as <-.
    apply (consistent_same s); try reflexivity; auto.
  - destruct (inactivityTimers s !! c) as [deadline|]; [|discriminate].
    destruct (deadline <=? now s)%Z; [|discriminate]. injection Hstep as <-.
    destruct (closeSession_effect c s) as (_ & _ & _ & Hr & Hl & Hp & _ & Ht).
    apply (consistent_same s); auto.
  - injection Hstep as <-.
    destruct (closeSession_effect c s) as (_ & _ & _ & Hr & Hl & Hp & _ & Ht).
    apply (consistent_same s); auto.
Qed.

Lemma consistent_steps es s s' :
  steps C es s = Some s' -> consistent s -> consistent s'.
Proof.
  revert s. induction es as [|e es IH]; intros s; cbn [steps].
  - intros [= <-]. auto.
  - destruct (step C e s) as [s1|] eqn:Hstep; [|discriminate].
    intros Hsteps Hs. apply (IH s1 Hsteps). eapply consistent_step; eassumption.
Qed.

Lemma consistent_reachable s : reachable C s -> consistent s.
Proof.
  intros (prompt & w & es & Hsteps).
  eapply consistent_steps; [exact Hsteps|apply consistent_init].
Qed.


(** *** Cost accounting *)







Lemma finish_sessionStats i r s :
  sessionStats (finish C i r s)
  = match (resume_processMessage C r s).2 with
    | Ok answer =>
        sessionStats (addCost (run_channelId r)
                        (responseCost (usage (answer_response answer))) s)
    | Throw _ => sessionStats s
    end.
Proof.
  unfold finish. destruct (resume_processMessage C r s) as [frame [answer|message]];
    cbn [snd]; [|reflexivity].
  unfold addCost, settle. repeat case_match; simplify_eq/=; reflexivity.
Qed.


Lemma closeSession_other c s channelId :
  c <> channelId ->
  conversationHistory (closeSession c s) !! channelId = conversationHistory s !! channelId
  /\ getSessionStats channelId (closeSession c s) = getSessionStats channelId s.
Proof.
  intros Hne. unfold closeSession, getSessionStats.
  case_match; cbn; simplify_map_eq; done.
Qed.




(** *** Who holds the promise of a queued message *)

Lemma owned_preserved s s' (g : Holder -> Holder) (hnew : Holder) :
  owned s ->
  (forall h1 h2, g h1 = g h2 -> h1 = h2) ->
  (forall h p, heldAt s' h = Some p ->
     heldAt s (g h) = Some p \/ (p = length (promises s) /\ h = hnew)) ->
  (forall h p, heldAt s' h = Some p -> promises s !! p = Some waiting ->
     promises s' !! p = Some waiting) ->
  (heldAt s' hnew = Some (length (promises s)) ->
     promises s' !! length (promises s) = Some waiting) ->
  owned s'.
Proof.
  intros [Hwait Honce] Hinj Hheld Hkeep Hnew. split.
  - intros h p Hh. destruct (Hheld h p Hh) as [Hold|[-> ->]].
    + apply (Hkeep h p Hh). eapply Hwait. exact Hold.
    + apply Hnew. exact Hh.
  - intros h1 h2 p H1 H2.
    destruct (Hheld h1 p H1) as [Hold1|[Hp1 Hh1]], (Hheld h2 p H2) as [Hold2|[Hp2 Hh2]].
    + apply Hinj. eapply Honce; eassumption.
    + apply Hwait, lookup_lt_Some in Hold1. lia.
    + apply Hwait, lookup_lt_Some in Hold2. lia.
    + congruence.
Qed.

Lemma owned_init prompt (w : W) : owned (init prompt w).
Proof.
  split.
  - intros [c i|i|i] p; cbn; [rewrite lookup_empty|..]; discriminate.
  - intros [c i|i|i] h2 p; cbn; [rewrite lookup_empty|..]; discriminate.
Qed.

Lemma settleIn_other p v ps q : q <> p -> settleIn p v ps !! q = ps !! q.
Proof.
  intros Hne. unfold settleIn. destruct (ps !! p) as [[o st]|]; [|reflexivity].
  destruct st; try reflexivity. apply list_lookup_insert_ne. congruence.
Qed.

Lemma sendMessage_queues channelId userMessage channelName messageContent s :
  let s' := (sendMessage channelId userMessage channelName messageContent s).2 in
  (is_Some (processingLocks s !! channelId) ->
     exists entry,
       resolve entry = length (promises s)
       /\ messageQueues s'
          = <[channelId := default [] (messageQueues s !! channelId) ++ [entry]]>
              (messageQueues s))
  /\ (processingLocks s !! channelId = None -> messageQueues s' = messageQueues s).
Proof.
  unfold_ops. split.
  - intros [b Hlock]. repeat case_match; simplify_eq/=; simplify_map_eq; eexists;
      (split; [|first [reflexivity | rewrite insert_insert_eq; reflexivity]]);
      reflexivity.
  - intros Hlock. repeat case_match; simplify_eq/=; reflexivity.
Qed.

Lemma finish_queues i r s :
  let s' := finish C i r s in
  (messageQueues s' = messageQueues s /\ immediates s' = immediates s)
  \/ exists next queue,
       messageQueues s !! run_channelId r = Some (next :: queue)
       /\ messageQueues s' = <[run_channelId r := queue]> (messageQueues s)
       /\ immediates s' = immediates s ++ [(run_channelId r, next)].
Proof.
  unfold_ops. repeat case_match; simplify_eq/=; eauto 10.
Qed.


Lemma owned_renamed s s' (g : Holder -> Holder) :
  owned s ->
  (forall h1 h2, g h1 = g h2 -> h1 = h2) ->
  (forall h p, heldAt s' h = Some p -> heldAt s (g h) = Some p) ->
  (forall h p, heldAt s' h = Some p -> promises s !! p = Some waiting ->
     promises s' !! p = Some waiting) ->
  owned s'.
Proof.
  intros Hs Hinj Hheld Hkeep.
  apply (owned_preserved s s' g (InCallback 0) Hs Hinj); [auto|exact Hkeep|].
  intros Hnew%Hheld. apply (held_waiting s Hs), lookup_lt_Some in Hnew. lia.
Qed.

Lemma owned_same s s' :
  messageQueues s' = messageQueues s ->
  immediates s' = immediates s ->
  awaiting s' = awaiting s ->
  promises s' = promises s ->
  owned s -> owned s'.
Proof.
  intros Hq Hi Ha Hp Hs. apply (owned_renamed s s' (fun h => h) Hs); [auto| |].
  - intros [c i|i|i] p; cbn; rewrite ?Hq, ?Hi, ?Ha; auto.
  - intros h p _. rewrite Hp. auto.
Qed.

(** The queue entries after a call of [sendMessage]: the old ones, and at
    the end of the channel's queue the new one if the channel was locked. *)
Lemma sendMessage_held channelId userMessage channelName messageContent s c i p :
  let s' := (sendMessage channelId userMessage channelName messageContent s).2 in
  heldAt s' (InQueue c i) = Some p ->
  heldAt s (InQueue c i) = Some p
  \/ (p = length (promises s)
      /\ InQueue c i = InQueue channelId (length (default [] (messageQueues s !! channelId)))
      /\ is_Some (processingLocks s !! channelId)).
Proof.
  cbv zeta.
  destruct (sendMessage_queues channelId userMessage channelName messageContent s)
    as [Hlocked Hfree].
  destruct (processingLocks s !! channelId) as [b|] eqn:Hlock.
  - destruct (Hlocked (ex_intro _ b eq_refl)) as (entry & Hentry & Hq).
    cbn [heldAt]. rewrite Hq.
    destruct (decide (channelId = c)) as [<-|Hne];
      [rewrite lookup_insert_eq|rewrite lookup_insert_ne by done; auto].
    destruct (messageQueues s !! channelId) as [queue|]; cbn [default].
    + change (Datatypes.id queue) with queue.
      intros Hi. destruct (decide (i < length queue)) as [Hlt|Hge].
      * rewrite lookup_app_l in Hi by exact Hlt. auto.
      * rewrite lookup_app_r in Hi by lia.
        destruct (i - length queue) as [|j] eqn:Hj; [|discriminate].
        cbn in Hi. right. split; [congruence|]. split; [f_equal; lia|by eexists].
    + destruct i as [|i]; [|discriminate]. cbn.
      intros [= <-]. right. split; [congruence|]. split; [reflexivity|by eexists].
  - cbn [heldAt]. rewrite (Hfree eq_refl). auto.
Qed.

Lemma owned_sendMessage channelId userMessage channelName messageContent s :
  owned s -> owned (sendMessage channelId userMessage channelName messageContent s).2.
Proof.
  intros Hs.
  destruct (sendMessage_effect channelId userMessage channelName messageContent s)
    as (_ & Hi & Ha & Hcases).
  assert (Hp : exists pr,
            promises (sendMessage channelId userMessage channelName messageContent s).2
            = promises s ++ [pr]
            /\ (is_Some (processingLocks s !! channelId) -> pr = waiting)).
  { destruct Hcases as [(_ & Hp & _)|(Hfree & Hp & _)]; eexists; (split; [exact Hp|]).
    - reflexivity.
    - rewrite Hfree. intros [? ?]. discriminate. }
  destruct Hp as (pr & Hp & Hpr).
  apply (owned_preserved s _ (fun h => h)
           (InQueue channelId (length (default [] (messageQueues s !! channelId)))) Hs).
  - auto.
  - intros [c i|i|i] p Hh.
    + apply sendMessage_held in Hh as [Hold|(Hfresh & Hnew & _)]; auto.
    + left. cbn in *. rewrite <- Hi. exact Hh.
    + left. cbn in *. rewrite <- Ha. exact Hh.
  - intros h p _ Hw. rewrite Hp. apply lookup_app_l_Some. exact Hw.
  - intros Hh. apply sendMessage_held in Hh as [Hold|(_ & _ & Hlock)].
    + apply (held_waiting s Hs), lookup_lt_Some in Hold. lia.
    + rewrite Hp, (Hpr Hlock). apply list_lookup_middle. reflexivity.
Qed.


Lemma beforeShift_inj channelId n h1 h2 :
  beforeShift channelId n h1 = beforeShift channelId n h2 -> h1 = h2.
Proof.
  destruct h1 as [c1 i1|i1|i1], h2 as [c2 i2|i2|i2]; cbn;
    repeat case_decide; intros; simplify_eq; congruence.
Qed.

Lemma beforeImmediate_inj n h1 h2 :
  beforeImmediate n h1 = beforeImmediate n h2 -> h1 = h2.
Proof.
  destruct h1 as [c1 i1|i1|i1], h2 as [c2 i2|i2|i2]; cbn;
    repeat case_decide; intros; simplify_eq; congruence.
Qed.

Lemma beforeResume_inj k h1 h2 :
  beforeResume k h1 = beforeResume k h2 -> h1 = h2.
Proof.
  destruct h1 as [c1 i1|i1|i1], h2 as [c2 i2|i2|i2]; cbn;
    repeat case_decide; intros; simplify_eq; try congruence; lia.
Qed.

Lemma owned_finish i r s :
  running s !! i = Some r -> consistent s -> owned s -> owned (finish C i r s).
Proof.
  intros Hi Hcons Hs.
  destruct (finish_effect i r s) as (_ & Ha & _ & _ & _ & _ & Hp).
  assert (Hkeep : forall p, promises s !! p = Some waiting ->
                            promises (finish C i r s) !! p = Some waiting).
  { intros p Hw. rewrite Hp, settleIn_other; [exact Hw|].
    intros ->. destruct (runs_promise s Hcons r) as (pr & Hpr & Ho).
    { apply list_elem_of_lookup. eauto. }
    rewrite Hw in Hpr. injection Hpr as <-. discriminate. }
  destruct (finish_queues i r s) as [[Hq Him]|(next & queue & Hhead & Hq & Him)].
  - apply (owned_renamed s _ (fun h => h) Hs); [auto| |auto].
    intros [c j|j|j] p; cbn; rewrite ?Hq, ?Him, ?Ha; auto.
  - apply (owned_renamed s _ (beforeShift (run_channelId r) (length (immediates s))) Hs);
      [apply beforeShift_inj| |auto].
    intros [c j|j|j] p; cbn [heldAt beforeShift]; rewrite ?Hq, ?Him, ?Ha; [| |auto].
    + destruct (decide (c = run_channelId r)) as [->|Hne]; cbn [heldAt].
      * rewrite lookup_insert_eq, Hhead. auto.
      * rewrite lookup_insert_ne by done. auto.
    + destruct (decide (j = length (immediates s))) as [->|Hne]; cbn [heldAt].
      * rewrite list_lookup_middle by reflexivity. rewrite Hhead. auto.
      * intros Hj. destruct (decide (j < length (immediates s))) as [Hlt|Hge].
        -- rewrite lookup_app_l in Hj by exact Hlt. exact Hj.
        -- rewrite lookup_app_r in Hj by lia.
           destruct (j - length (immediates s)) as [|j'] eqn:Hj'; [lia|discriminate].
Qed.

Lemma owned_immediate channelId next rest s :
  immediates s = (channelId, next) :: rest ->
  owned s -> owned (immediate channelId next (set_immediates rest s)).
Proof.
  intros Him Hs. unfold immediate.
  pose proof (sendMessage_effect channelId (userMessage next) (channelName next)
                (messageContent next) (set_immediates rest s)) as (_ & Hi & Ha & Hcases).
  pose proof (fun c i p =>
                sendMessage_held channelId (userMessage next) (channelName next)
                  (messageContent next) (set_immediates rest s) c i p) as Hheld.
  destruct (sendMessage channelId (userMessage next) (channelName next)
              (messageContent next) (set_immediates rest s)) as [promise s2].
  cbn [snd] in *. cbn [heldAt immediates awaiting set_immediates promises messageQueues
                       processingLocks] in *.
  assert (Hp : exists pr, promises s2 = promises s ++ [pr]
                 /\ (is_Some (processingLocks s !! channelId) -> pr = waiting)).
  { destruct Hcases as [(_ & Hp & _)|(Hfree & Hp & _)]; eexists; (split; [exact Hp|]).
    - reflexivity.
    - rewrite Hfree. intros [? ?]. discriminate. }
  destruct Hp as (pr & Hp & Hpr).
  apply (owned_preserved s _ (beforeImmediate (length (awaiting s)))
           (InQueue channelId (length (default [] (messageQueues s !! channelId)))) Hs).
  - apply beforeImmediate_inj.
  - intros [c j|j|j] p; cbn [heldAt beforeImmediate awaiting set_awaiting immediates
                              messageQueues].
    + intros Hh. apply Hheld in Hh as [Hold|(Hfresh & Hnew & _)]; auto.
    + rewrite Hi, Him. auto.
    + rewrite Ha. destruct (decide (j = length (awaiting s))) as [->|Hne]; cbn [heldAt].
      * rewrite list_lookup_middle by reflexivity. rewrite Him. auto.
      * intros Hj. left. destruct (decide (j < length (awaiting s))) as [Hlt|Hge].
        -- rewrite lookup_app_l in Hj by exact Hlt. exact Hj.
        -- rewrite lookup_app_r in Hj by lia.
           destruct (j - length (awaiting s)) as [|j'] eqn:Hj'; [lia|discriminate].
  - intros h p _ Hw. cbn [promises set_awaiting]. rewrite Hp.
    apply lookup_app_l_Some. exact Hw.
  - cbn [heldAt set_awaiting messageQueues promises]. intros Hh.
    apply Hheld in Hh as [Hold|(_ & _ & Hlock)].
    + apply (held_waiting s Hs (InQueue channelId _)), lookup_lt_Some in Hold. lia.
    + rewrite Hp, (Hpr Hlock). apply list_lookup_middle. reflexivity.
Qed.

Lemma owned_resume k awaited entry s s' :
  awaiting s !! k = Some (awaited, entry) ->
  resume k awaited entry s = Some s' ->
  owned s -> owned s'.
Proof.
  intros Hk Hresume Hs.
  assert (Hs' : exists v, s' = settle entry v (set_awaiting (delete k (awaiting s)) s)).
  { unfold resume in Hresume.
    destruct (settled <$> promises s !! awaited) as [[|value|reason]|];
      try discriminate; injection Hresume as <-; eauto. }
  destruct Hs' as (v & ->).
  assert (Hheld : forall h p,
            heldAt (settle entry v (set_awaiting (delete k (awaiting s)) s)) h = Some p ->
            heldAt s (beforeResume k h) = Some p).
  { intros [c j|j|j] p; cbn [heldAt beforeResume settle set_promises set_awaiting
                              messageQueues immediates awaiting]; [auto|auto|].
    destruct (decide (j < k)) as [Hlt|Hge]; cbn [heldAt].
    - rewrite list_lookup_delete_lt by exact Hlt. auto.
    - rewrite list_lookup_delete_ge by lia. auto. }
  apply (owned_renamed s _ (beforeResume k) Hs); [apply beforeResume_inj|exact Hheld|].
  intros h p Hh Hw. cbn [settle set_promises promises]. rewrite settleIn_other; [exact Hw|].
  intros ->. apply Hheld in Hh.
  assert (Hentry : heldAt s (InCallback k) = Some entry) by (cbn; rewrite Hk; reflexivity).
  pose proof (held_once s Hs _ _ _ Hh Hentry) as Heq.
  destruct h as [c j|j|j]; cbn in Heq; try discriminate.
  destruct (decide (j < k)); injection Heq; lia.
Qed.

Lemma owned_step e s s' :
  step C e s = Some s' -> consistent s -> owned s -> owned s'.
Proof.
  destruct e as [c m n b|i| |k|dt|c|c]; cbn [step]; intros Hstep Hcons Hs.
  - injection Hstep as <-. apply owned_sendMessage, Hs.
  - destruct (running s !! i) as [r|] eqn:Hi; [|discriminate].
    injection Hstep as <-. apply owned_finish; assumption.
  - destruct (immediates s) as [|[c next] rest] eqn:Him; [discriminate|].
    injection Hstep as <-. apply owned_immediate; assumption.
  - destruct (awaiting s !! k) as [[awaited entry]|] eqn:Hk; [|discriminate].
    eapply owned_resume; eassumption.
  - destruct (0 <=? dt)%Z; [|discriminate]. injection Hstep as <-.
    apply (owned_same s); auto.
  - destruct (inactivityTimers s !! c) as [deadline|]; [|discriminate].
    destruct (deadline <=? now s)%Z; [|discriminate]. injection Hstep as <-.
    destruct (closeSession_effect c s) as (_ & Hi & Ha & _ & _ & Hp & Hq & _).
    apply (owned_same s); auto.
  - injection Hstep as <-.
    destruct (closeSession_effect c s) as (_ & Hi & Ha & _ & _ & Hp & Hq & _).
    apply (owned_same s); auto.
Qed.

Lemma owned_steps es s s' :
  steps C es s = Some s' -> consistent s -> owned s -> owned s'.
Proof.
  revert s. induction es as [|e es IH]; intros s; cbn [steps].
  - intros [= <-]. auto.
  - destruct (step C e s) as [s1|] eqn:Hstep; [|discriminate].
    intros Hsteps Hcons Hs. apply (IH s1 Hsteps).
    + eapply consistent_step; eassumption.
    + eapply owned_step; eassumption.
Qed.

Lemma owned_reachable s : reachable C s -> owned s.
Proof.
  intros (prompt & w & es & Hsteps).
  eapply owned_steps; [exact Hsteps|apply consistent_init|apply owned_init].
Qed.

(** *** The processing lock *)

Lemma sendMessage_enqueues channelId userMessage channelName messageContent s :
  is_Some (processingLocks s !! channelId) ->
  let out := sendMessage channelId userMessage channelName messageContent s in
  running out.2 = running s
  /\ arrays out.2 = arrays s
  /\ conversationHistory out.2 = conversationHistory s
  /\ promises out.2 !! out.1 = Some {| origin := OfQueue; settled := Pending |}
  /\ messageQueues out.2 !! channelId
     = Some (default [] (messageQueues s !! channelId)
             ++ [{| Manager.userMessage := userMessage;
                    Manager.channelName := channelName;
                    Manager.messageContent := messageContent;
                    resolve := out.1 |}]).
Proof.
  intros [b Hlock]. unfold_ops.
  repeat case_match; simplify_eq/=; simplify_map_eq;
    repeat split; try done; apply list_lookup_middle; reflexivity.
Qed.

(** C1: in every state the manager reaches, a channel has at most one run in
    flight, and it has one exactly when its lock is set. A call of
    [sendMessage] for a locked channel starts no run and touches no history:
    it appends the message to the channel's queue. A call for an unlocked
    channel sets the lock and starts the one run, and the end of a run
    clears the lock and leaves the channel without a run. *)
Theorem one_run_per_channel s channelId :
  reachable C s ->
  length (runsOf channelId s) <= 1
  /\ (is_Some (processingLocks s !! channelId) <-> runsOf channelId s <> [])
  /\ (forall userMessage channelName messageContent,
        let out := sendMessage channelId userMessage channelName messageContent s in
        (is_Some (processingLocks s !! channelId) ->
           running out.2 = running s
           /\ arrays out.2 = arrays s
           /\ processingLocks out.2 = processingLocks s
           /\ exists entry,
                Manager.userMessage entry = userMessage
                /\ messageQueues out.2 !! channelId
                   = Some (default [] (messageQueues s !! channelId) ++ [entry]))
        /\ (processingLocks s !! channelId = None ->
            processingLocks out.2 !! channelId = Some true
            /\ length (runsOf channelId out.2) = 1))
  /\ (forall i r, running s !! i = Some r -> run_channelId r = channelId ->
        processingLocks (finish C i r s) !! channelId = None
        /\ runsOf channelId (finish C i r s) = []).
Proof.
  intros Hreach. pose proof (consistent_reachable s Hreach) as [Hnd Hlocked _ _ _].
  unfold runChannels, runsOf in *.
  assert (Hnone : processingLocks s !! channelId = None ->
                  filter (fun r => run_channelId r = channelId) (running s) = []).
  { intros Hlock. apply filter_fmap_absent. rewrite <- Hlocked, Hlock.
    intros [? ?]; discriminate. }
  split; [apply filter_fmap_NoDup, Hnd|]. split; [|split].
  - rewrite Hlocked. split; [apply filter_fmap_present|].
    intros Hruns. destruct (decide (channelId ∈ run_channelId <$> running s)); [done|].
    exfalso. apply Hruns. apply filter_fmap_absent. done.
  - intros userMessage channelName messageContent. split.
    + intros Hlock.
      destruct (sendMessage_enqueues channelId userMessage channelName messageContent s
                  Hlock) as (Hr & Ha & _ & _ & Hq).
      destruct (sendMessage_effect channelId userMessage channelName messageContent s)
        as (_ & _ & _ & [(_ & _ & _ & Hl & _)|(Hfree & _)]).
      * repeat split; try assumption. eexists. split; [|exact Hq]. reflexivity.
      * rewrite Hfree in Hlock. destruct Hlock; discriminate.
    + intros Hfree.
      destruct (sendMessage_effect channelId userMessage channelName messageContent s)
        as (_ & _ & _ & [(Hlock & _)|(_ & _ & Hl & _ & r & Hr & Hrc & _)]).
      * rewrite Hfree in Hlock. destruct Hlock; discriminate.
      * rewrite Hl, Hr, lookup_insert_eq. split; [reflexivity|].
        rewrite filter_app, (Hnone Hfree), filter_cons.
        destruct (decide (run_channelId r = channelId)); [reflexivity|contradiction].
  - intros i r Hi Hrc.
    destruct (finish_effect i r s) as (_ & _ & Hr & Hl & _).
    rewrite Hl, Hr, Hrc, lookup_delete_eq. split; [reflexivity|].
    apply filter_fmap_absent.
    destruct (delete_fmap_NoDup run_channelId _ _ _ Hnd Hi) as [_ Hin].
    rewrite Hin. intros [Hne _]. congruence.
Qed.

(** C5: whenever a run ends, with an answer or with an error thrown by the
    model call, the step that ends it clears the lock of its channel. *)
Theorem lock_released i r s :
  running s !! i = Some r ->
  exists s',
    step C (Finish i) s = Some s'
    /\ processingLocks s' !! run_channelId r = None
    /\ running s' = delete i (running s)
    /\ forall message,
         (resume_processMessage C r s).2 = Throw message ->
         promises s' = settleIn (run_promise r) (Rejected message) (promises s)
         /\ processingLocks s' = delete (run_channelId r) (processingLocks s).
Proof.
  intros Hi. exists (finish C i r s). cbn [step]. rewrite Hi.
  destruct (finish_effect i r s) as (_ & _ & Hr & Hl & _ & _ & Hp).
  split; [reflexivity|]. rewrite Hl, lookup_delete_eq.
  split; [reflexivity|]. split; [exact Hr|].
  intros message Hthrow. rewrite Hp, Hthrow. split; reflexivity.
Qed.

(** A run that throws leaves the queue of its channel as it is and schedules
    no callback: only the lock goes. *)
Lemma finish_throw_keeps_queue i r s message :
  (resume_processMessage C r s).2 = Throw message ->
  messageQueues (finish C i r s) = messageQueues s
  /\ immediates (finish C i r s) = immediates s.
Proof.
  unfold finish. destruct (resume_processMessage C r s) as [frame [answer|m]];
    cbn [snd]; [discriminate|]. intros _. split; reflexivity.
Qed.

(** *** The promise of a queued message *)

(** C10: the promise handed out for a message that is queued behind a run
    is an unsettled promise of the queueing path, held by the new queue
    entry, and no promise of that path is ever rejected. When the call that
    later processes the entry rejects with a message, the waiting callback
    fulfils the entry's promise with ["Error: " + message]. *)
Theorem queued_promise_never_rejects s :
  reachable C s ->
  (forall channelId userMessage channelName messageContent,
     is_Some (processingLocks s !! channelId) ->
     let out := sendMessage channelId userMessage channelName messageContent s in
     promises out.2 !! out.1 = Some waiting
     /\ exists i, heldAt out.2 (InQueue channelId i) = Some out.1)
  /\ (forall p pr, promises s !! p = Some pr -> origin pr = OfQueue ->
        forall reason, settled pr <> Rejected reason)
  /\ (forall k awaited entry message,
        awaiting s !! k = Some (awaited, entry) ->
        settled <$> promises s !! awaited = Some (Rejected message) ->
        exists s',
          step C (Resume k) s = Some s'
          /\ promises s' !! entry
             = Some {| origin := OfQueue;
                       settled := Fulfilled ("Error: " +:+ message) |}).
Proof.
  intros Hreach. pose proof (consistent_reachable s Hreach) as [_ _ _ _ Hqueued].
  pose proof (owned_reachable s Hreach) as [Hwaiting _].
  split; [|split].
  - intros channelId userMessage channelName messageContent Hlock.
    destruct (sendMessage_enqueues channelId userMessage channelName messageContent s
                Hlock) as (_ & _ & _ & Hp & Hq).
    split; [exact Hp|].
    exists (length (default [] (messageQueues s !! channelId))).
    cbn [heldAt]. rewrite Hq, list_lookup_middle by reflexivity. reflexivity.
  - exact Hqueued.
  - intros k awaited entry message Hk Hrejected.
    assert (Hpending : promises s !! entry = Some waiting).
    { apply (Hwaiting (InCallback k)). cbn. rewrite Hk. reflexivity. }
    cbn [step]. rewrite Hk. unfold resume. rewrite Hrejected.
    eexists. split; [reflexivity|]. unfold settle, settleIn. cbn. rewrite Hpending.
    apply list_lookup_insert_eq. eapply lookup_lt_Some. exact Hpending.
Qed.

(** *** The inactivity timer *)

(** C9, as amended: the inactivity timer of a channel is set to 30 minutes
    from now when a run starts, that is when [sendMessage] finds the channel
    unlocked. It is left alone when a message is queued behind a run and when
    a run ends. So the timer can fire under a run only when the run has been
    in flight for 30 minutes or more. *)
Theorem timer_rearmed_at_run_start s :
  reachable C s ->
  (forall channelId userMessage channelName messageContent,
     let s' := (sendMessage channelId userMessage channelName messageContent s).2 in
     (processingLocks s !! channelId = None ->
        inactivityTimers s' !! channelId = Some (now s + INACTIVITY_TIMEOUT_MS)%Z)
     /\ (is_Some (processingLocks s !! channelId) ->
         inactivityTimers s' = inactivityTimers s))
  /\ (forall i r, running s !! i = Some r ->
        inactivityTimers (finish C i r s) = inactivityTimers s)
  /\ (forall r s', r ∈ running s ->
        step C (Timeout (run_channelId r)) s = Some s' ->
        (run_started r + INACTIVITY_TIMEOUT_MS <= now s)%Z).
Proof.
  intros Hreach. pose proof (consistent_reachable s Hreach) as [_ _ _ Htimer _].
  split; [|split].
  - intros channelId userMessage channelName messageContent s'.
    destruct (sendMessage_effect channelId userMessage channelName messageContent s)
      as (_ & _ & _ & [(Hlock & _ & _ & _ & Ht)|(Hfree & _ & _ & Ht & _)]).
    + split; [|intros _; exact Ht].
      intros Hfree. rewrite Hfree in Hlock. destruct Hlock; discriminate.
    + split; [intros _; subst s'; rewrite Ht; apply lookup_insert_eq|].
      intros Hlock. rewrite Hfree in Hlock. destruct Hlock; discriminate.
  - intros i r _. apply (finish_effect i r s).
  - intros r s' Hr. cbn [step].
    destruct (inactivityTimers s !! run_channelId r) as [deadline|] eqn:Hd; [|discriminate].
    destruct (deadline <=? now s)%Z eqn:Hfire; [|discriminate]. intros _.
    rewrite <- (Htimer r deadline Hr Hd). lia.
Qed.

(** *** Session statistics *)


End WithCollaborators.
End ManagerFacts.

(** *** The manager on the stubs *)

Module ManagerExamples.
Import JsString Loop Manager Props ManagerFacts Stub Scenarios.

Lemma busy_reachable script : reachable scripted (busy script).
Proof.
  exists "sys", script, [Call "c" "R" (Some "chan") None; Call "c" "A" None None].
  reflexivity.
Qed.

(** One run on the busy channel, and its lock is set. *)
Lemma one_run_per_channel_witness :
  length (runsOf "c" (busy [])) <= 1
  /\ (is_Some (processingLocks (busy []) !! "c") <-> runsOf "c" (busy []) <> []).
Proof.
  destruct (one_run_per_channel scripted (busy []) "c" (busy_reachable []))
    as (Hone & Hlock & _).
  split; [exact Hone | exact Hlock].
Defined.

(** The model call of the run throws: the lock is cleared all the same. *)
Lemma lock_released_witness :
  exists s',
    step scripted (Finish 0) (busy [Throw "overloaded"]) = Some s'
    /\ processingLocks s' !! "c" = None.
Proof.
  destruct (lock_released scripted 0 runR (busy [Throw "overloaded"]) eq_refl)
    as (s' & Hstep & Hlock & _).
  exists s'. split; [exact Hstep | exact Hlock].
Defined.

Lemma failedBehind_reachable : reachable scripted failedBehind.
Proof.
  exists "sys", [hi; Throw "overloaded"],
    [Call "c" "R" (Some "chan") None; Call "c" "A" None None; Finish 0; Immediate; Finish 0].
  vm_compute. reflexivity.
Qed.

(** The run of the queued message threw: its promise is fulfilled with the
    error text. *)
Lemma queued_promise_never_rejects_witness :
  exists s',
    step scripted (Resume 0) failedBehind = Some s'
    /\ promises s' !! 1
       = Some {| origin := OfQueue; settled := Fulfilled "Error: overloaded" |}.
Proof.
  destruct (queued_promise_never_rejects scripted failedBehind failedBehind_reachable)
    as (_ & _ & Hresume).
  exact (Hresume 0 2 1 "overloaded" eq_refl eq_refl).
Defined.

(** One second into the run on "c": a message for the idle channel "d" sets
    its timer, a message queued on "c" leaves the timer of "c" alone. *)
Lemma timer_rearmed_at_run_start_witness :
  inactivityTimers
    (sendMessage "d" "hello" None None (after scripted [Tick 1000] (busy []))).2 !! "d"
  = Some 1801000%Z
  /\ inactivityTimers
       (sendMessage "c" "B" None None (after scripted [Tick 1000] (busy []))).2 !! "c"
     = Some 1800000%Z.
Proof.
  assert (Hreach : reachable scripted (after scripted [Tick 1000] (busy []))).
  { exists "sys", [],
      [Call "c" "R" (Some "chan") None; Call "c" "A" None None; Tick 1000].
    vm_compute. reflexivity. }
  destruct (timer_rearmed_at_run_start scripted _ Hreach) as (Hsend & _ & _).
  split.
  - exact (proj1 (Hsend "d" "hello" None None) eq_refl).
  - rewrite (proj2 (Hsend "c" "B" None None) (ex_intro _ true eq_refl)).
    vm_compute. reflexivity.
Defined.


(** A run that takes 30 minutes: the timer set when it started fires while
    it is in flight, and the history and the statistics of its channel are
    gone. And a run that takes one second: when it has ended the timer still
    stands where the start of the run put it. *)
Lemma session_evicted_mid_flight :
  (let s := after scripted [Call "c" "slow" None None; Tick 1800000; Timeout "c"]
              (init "sys" []) in
   steps scripted [Call "c" "slow" None None; Tick 1800000; Timeout "c"] (init "sys" [])
   = Some s
   /\ length (runsOf "c" s) = 1
   /\ historyOf "c" s = None
   /\ sessionStats s !! "c" = None)
  /\ (let s := after scripted [Call "c" "quick" None None; Tick 1000; Finish 0]
                 (init "sys" []) in
      now s = 1000%Z
      /\ runsOf "c" s = []
      /\ inactivityTimers s !! "c" = Some 1800000%Z).
Proof. vm_compute. auto 10. Qed.


(** C2, at a failing input: "R" runs on channel "c", "A" is queued behind
    it, and the model call of "R" throws. The lock is cleared and the call for
    "R" is rejected, but "A" stays in the queue: no callback is scheduled to
    run it, and its promise stays pending. *)
Theorem queue_stranded_after_failure :
  let s := after scripted [Finish 0] (busy [Throw "overloaded"]) in
  steps scripted [Finish 0] (busy [Throw "overloaded"]) = Some s
  /\ processingLocks s !! "c" = None
  /\ running s = []
  /\ immediates s = []
  /\ awaiting s = []
  /\ messageQueues s !! "c"
     = Some [{| userMessage := "A"; channelName := None; messageContent := None;
                resolve := 1 |}]
  /\ promises s = [{| origin := OfRun; settled := Rejected "overloaded" |};
                   {| origin := OfQueue; settled := Pending |}].
Proof. vm_compute. auto 10. Qed.

(** Without an arrival between the end of a run and the callback that
    submits the next entry, the queue is served in arrival order. *)
Lemma arrival_order_without_race :
  let arrivals := [Call "c" "R" None None; Call "c" "A" None None; Call "c" "B" None None] in
  let served := [Finish 0; Immediate; Finish 0; Immediate; Finish 0] in
  let said m := {| role := user; content := Plain m |} in
  let done := {| role := assistant; content := Blocks [Text "done"] |} in
  historyOf "c" (after scripted (arrivals ++ served) (init "sys" []))
  = Some [said "R"; done; said "A"; done; said "B"; done].
Proof. vm_compute. reflexivity. Qed.

(** C4, at a failing input: "A" and then "B" are queued behind the run of
    "R". The run ends and "A" is taken from the queue, to be submitted again
    by a [setImmediate] callback; before the callback runs, "D" arrives, finds
    the channel unlocked and starts its run. The callback then finds the lock
    set and queues "A" again, behind "B". In the final history the turn of
    "B" comes before the turn of "A". *)
Theorem requeue_breaks_arrival_order :
  let arrivals := [Call "c" "R" None None; Call "c" "A" None None; Call "c" "B" None None] in
  let race := [Finish 0; Call "c" "D" None None; Immediate] in
  let rest := [Finish 0; Immediate; Finish 0; Immediate; Finish 0] in
  let said m := {| role := user; content := Plain m |} in
  let done := {| role := assistant; content := Blocks [Text "done"] |} in
  (messageQueues (after scripted (arrivals ++ race) (init "sys" [])) !! "c"
   = Some [{| userMessage := "B"; channelName := None; messageContent := None;
              resolve := 2 |};
           {| userMessage := "A"; channelName := None; messageContent := None;
              resolve := 4 |}])
  /\ is_Some (steps scripted (arrivals ++ race ++ rest) (init "sys" []))
  /\ historyOf "c" (after scripted (arrivals ++ race ++ rest) (init "sys" []))
     = Some [said "R"; done; said "D"; done; said "B"; done; said "A"; done].
Proof. vm_compute. eauto. Qed.

End ManagerExamples.

(** ** More about the reasoning loop *)

Module LoopMore.
Import JsString Loop Props LoopFacts LoopProps.

Section WithCollaborators.
Context {W : Type} (C : Collaborators W).
Implicit Type f : Frame W.

(** X1: the batch of tool results answers the requested calls one for one
    and in order: the [tool_use_id]s of the results are the ids of the calls.
    The tools are run in the order in which the response asked for them. *)
Theorem tool_results_answer_calls (channelId : string) (toolCalls : list ToolUseBlock) f :
  answers <$> (execute_tools C channelId toolCalls [] f).1 = Some ∘ id <$> toolCalls
  /\ trace (execute_tools C channelId toolCalls [] f).2
     = trace f ++ ((fun c => ToolCall (name c) (input c) channelId) <$> toolCalls).
Proof.
  revert f. induction toolCalls as [|c rest IH]; intros f; cbn [execute_tools].
  { cbn. rewrite app_nil_r. auto. }
  destruct (executeTool C (name c) (input c) channelId (world f)) as [[result|message] w];
    rewrite execute_tools_app; cbn [fst snd app fmap list_fmap];
    destruct (IH (record (ToolCall (name c) (input c) channelId) w f)) as [Hids Htrace];
    rewrite Htrace; cbn [record trace]; rewrite <- app_assoc;
    (split; [|reflexivity]); cbn; f_equal; exact Hids.
Qed.

(** *** The history of a run *)

Lemma tool_rounds_history sys names channelId n round response f :
  let out := tool_rounds C sys names channelId n round response f in
  history f `prefix_of` history out.1
  /\ forall response' k, out.2 = Ok (response', k) ->
       length (history out.1) = length (history f) + 2 * (k - round)
       /\ length (modelCalls (trace out.1)) = length (modelCalls (trace f)) + (k - round)
       /\ round <= k.
Proof.
  revert round response f. induction n as [|n IH]; intros round response f.
  { cbn. split; [reflexivity|]. intros ? ? [= _ <-]. rewrite Nat.sub_diag. lia. }
  destruct (toolCallsOf (response_content response)) as [|c cs] eqn:Ecalls.
  { rewrite tool_rounds_done by exact Ecalls. cbn [fst snd].
    rewrite emit_blocks_history, emit_blocks_modelCalls. split; [reflexivity|].
    intros ? ? [= _ <-]. rewrite Nat.sub_diag. lia. }
  rewrite tool_rounds_round by (rewrite Ecalls; discriminate). cbv zeta.
  pose proof (afterTools_history C names channelId response f) as Hh.
  pose proof (afterTools_modelCalls C names channelId response f) as Hm.
  destruct (messages_create C sys _ _) as [[response'|message] w]; cbn [fst snd].
  - specialize (IH (S round) response'
                  (record (ModelCall sys (history (afterTools C names channelId response f))) w
                     (afterTools C names channelId response f))).
    cbv zeta in IH. destruct IH as [Hprefix Hok].
    rewrite record_modelCalls, length_app, Hm in Hok. cbn [record history length] in *.
    split.
    + etransitivity; [|exact Hprefix]. rewrite Hh. apply prefix_app_r. reflexivity.
    + intros r k Hk. destruct (Hok r k Hk) as (Hlen & Hcalls & Hle).
      apply (f_equal length) in Hh. rewrite length_app in Hh. cbn [length] in Hh. lia.
  - cbn [record history]. split; [|discriminate].
    rewrite Hh. apply prefix_app_r. reflexivity.
Qed.

Lemma run_model_prefix (sys systemPrompt : string) (names : gmap string string)
    (channelId : string) f :
  history f `prefix_of` history (run_model C sys systemPrompt names channelId f).1.
Proof.
  unfold run_model.
  destruct (messages_create C systemPrompt (history f) (world f))
    as [[response|message] w]; [|reflexivity].
  pose proof (tool_rounds_history sys names channelId MAX_TOOL_ROUNDS 0 response
                (record (ModelCall systemPrompt (history f)) w f)) as [Hprefix _].
  destruct (tool_rounds C sys names channelId MAX_TOOL_ROUNDS 0 response _)
    as [f' [[r k]|m]]; cbn [fst snd push history record] in *;
    [apply prefix_app_r|]; exact Hprefix.
Qed.

(** X2: a run only appends to the history. When it returns after [k] tool
    rounds it has asked the model [k + 1] times and pushed [2 * k + 1] turns,
    the last of them the assistant turn of the final response. *)
Theorem run_appends_turns (sys systemPrompt : string) (names : gmap string string)
    (channelId : string) f :
  let out := run_model C sys systemPrompt names channelId f in
  history f `prefix_of` history out.1
  /\ forall a, out.2 = Ok a ->
       length (history out.1) = length (history f) + 2 * answer_rounds a + 1
       /\ length (modelCalls (trace out.1))
          = length (modelCalls (trace f)) + answer_rounds a + 1
       /\ last (history out.1)
          = Some {| role := assistant;
                    content := Blocks (response_content (answer_response a)) |}.
Proof.
  cbv zeta. unfold run_model.
  destruct (messages_create C systemPrompt (history f) (world f))
    as [[response|message] w]; [|cbn; split; [reflexivity|discriminate]].
  set (f1 := record (ModelCall systemPrompt (history f)) w f).
  pose proof (tool_rounds_history sys names channelId MAX_TOOL_ROUNDS 0 response f1)
    as [Hprefix Hok]. cbv zeta in Hok.
  assert (Hf1 : length (modelCalls (trace f1)) = length (modelCalls (trace f)) + 1).
  { unfold f1. rewrite record_modelCalls, length_app. reflexivity. }
  destruct (tool_rounds C sys names channelId MAX_TOOL_ROUNDS 0 response f1)
    as [f' [[r k]|m]]; cbn [fst snd] in *.
  - split; [cbn [push history]; apply prefix_app_r; exact Hprefix|].
    intros a [= <-]. destruct (Hok r k eq_refl) as (Hlen & Hcalls & _).
    cbn [answer_rounds answer_response push history trace].
    subst f1. cbn [record history] in Hlen.
    rewrite length_app, last_snoc. cbn [length]. repeat split; lia.
  - split; [exact Hprefix|discriminate].
Qed.

(** *** The round limit *)



(** *** What is sent to the channel *)






End WithCollaborators.

(** *** A webhook that fails *)

Section Webhook.
Context {W : Type} (C1 C2 : Collaborators W).
Hypothesis Hsame : sameButWebhookResult C1 C2.
Implicit Type f : Frame W.

Lemma emit_block_webhook names channelId block f :
  emit_block C1 names channelId block f = emit_block C2 names channelId block f.
Proof.
  destruct Hsame as (_ & _ & Hmeet & Hhook). unfold emit_block.
  destruct block as [text| | |]; try reflexivity.
  destruct (truthy (trim text)); [|reflexivity].
  destruct (String.eqb (toUpperCase (trim text)) SILENT); [reflexivity|].
  destruct (includes (toUpperCase (trim text)) SILENT); [reflexivity|].
  destruct (names !! channelId) as [n|]; [|reflexivity].
  destruct (truthy n); [|reflexivity]. cbn [world]. rewrite Hmeet.
  destruct (isChannelInMeeting C2 channelId (world f)) as [[|] w]; [reflexivity|].
  specialize (Hhook channelId n (trim text) w).
  destruct (sendViaWebhook C1 channelId n (trim text) w) as [ack1 w1],
           (sendViaWebhook C2 channelId n (trim text) w) as [ack2 w2].
  cbn in Hhook. subst w2. reflexivity.
Qed.

Lemma emit_blocks_webhook names channelId blocks f :
  emit_blocks C1 names channelId blocks f = emit_blocks C2 names channelId blocks f.
Proof.
  unfold emit_blocks. revert f.
  induction blocks as [|b bs IH]; intros f; cbn [fold_left]; [reflexivity|].
  rewrite emit_block_webhook. apply IH.
Qed.

Lemma execute_tools_webhook channelId toolCalls acc f :
  execute_tools C1 channelId toolCalls acc f = execute_tools C2 channelId toolCalls acc f.
Proof.
  destruct Hsame as (_ & Htool & _ & _).
  revert acc f. induction toolCalls as [|c rest IH]; intros acc f; cbn [execute_tools];
    [reflexivity|].
  rewrite Htool.
  destruct (executeTool C2 (name c) (input c) channelId (world f)) as [[result|message] w];
    apply IH.
Qed.

Lemma tool_rounds_webhook sys names channelId n round response f :
  tool_rounds C1 sys names channelId n round response f
  = tool_rounds C2 sys names channelId n round response f.
Proof.
  pose proof Hsame as (Hcreate & _ & _ & _).
  revert round response f. induction n as [|n IH]; intros round response f;
    cbn [tool_rounds]; [reflexivity|].
  rewrite emit_blocks_webhook.
  destruct (Nat.eqb (length (toolCallsOf (response_content response))) 0); [reflexivity|].
  rewrite execute_tools_webhook.
  destruct (execute_tools C2 channelId _ [] _) as [toolResults f3].
  rewrite Hcreate.
  destruct (messages_create C2 sys _ _) as [[response'|message] w]; [apply IH|reflexivity].
Qed.

(** X5: delivery is best effort. Whether the webhook call of a chunk returns
    or throws makes no difference to the run: the history, the returned text,
    the calls made and the outcome are the same. *)
Theorem webhook_failure_ignored (sys systemPrompt : string) (names : gmap string string)
    (channelId : string) f :
  run_model C1 sys systemPrompt names channelId f
  = run_model C2 sys systemPrompt names channelId f.
Proof.
  pose proof Hsame as (Hcreate & _ & _ & _). unfold run_model. rewrite Hcreate.
  destruct (messages_create C2 systemPrompt (history f) (world f))
    as [[response|message] w]; [|reflexivity].
  rewrite tool_rounds_webhook. reflexivity.
Qed.

End Webhook.
End LoopMore.

Module LoopMoreExamples.
Import JsString Loop Props LoopFacts LoopProps LoopMore Stub Scenarios.

(** One failing round and the answer "done": three turns are pushed. *)
Lemma run_appends_turns_witness :
  length (history (run_model scripted "sys" "sys" ∅ "c"
                     (frame0 [] [Ok failingRound])).1) = 3.
Proof.
  destruct (run_appends_turns scripted "sys" "sys" ∅ "c" (frame0 [] [Ok failingRound]))
    as [_ Hok].
  destruct (Hok {| answer_text := "checkingdone";
                   answer_response := reply [Text "done"] 0 0;
                   answer_rounds := 1 |}) as (Hlen & _ & _);
    [vm_compute; reflexivity|].
  exact Hlen.
Defined.



(** The same run with a webhook that answers and with one that fails. *)
Lemma webhook_failure_ignored_witness :
  run_model scripted "sys" "sys" {["c" := "chan"]} "c" (frame0 [] [Ok failingRound])
  = run_model deafWebhook "sys" "sys" {["c" := "chan"]} "c" (frame0 [] [Ok failingRound]).
Proof.
  apply (webhook_failure_ignored scripted deafWebhook).
  repeat split; reflexivity.
Defined.

End LoopMoreExamples.

(** ** More about the manager *)

Module ManagerMore.
Import JsString Loop Manager Props ManagerFacts StoreProps.

Section WithCollaborators.
Context {W : Type} (C : Collaborators W).
Implicit Type s : State W.

Lemma storeOk_init prompt (w : W) : storeOk (init prompt w).
Proof.
  split; cbn; intros *; rewrite ?lookup_empty; try discriminate.
  split; intros [? ?]; discriminate.
Qed.

Lemma storeOk_same s s' :
  conversationHistory s' = conversationHistory s ->
  sessionStats s' = sessionStats s ->
  inactivityTimers s' = inactivityTimers s ->
  length (arrays s) <= length (arrays s') ->
  storeOk s -> storeOk s'.
Proof.
  intros Hh Hst Ht Ha [H1 H2 H3 H4]. split; rewrite ?Hh, ?Hst, ?Ht; auto.
  intros c ref Hc. specialize (H3 c ref Hc). lia.
Qed.

Lemma storeOk_getOrInitHistory channelId s :
  storeOk s ->
  storeOk (getOrInitHistory channelId s).2
  /\ conversationHistory (getOrInitHistory channelId s).2 !! channelId
     = Some (getOrInitHistory channelId s).1.
Proof.
  intros [H1 H2 H3 H4]. unfold getOrInitHistory, resetInactivityTimer.
  destruct (conversationHistory s !! channelId) as [ref|] eqn:Hch; cbn.
  - assert (Hstats : is_Some (sessionStats s !! channelId)).
    { destruct (proj2 (H1 channelId) (ex_intro _ ref Hch)) as [d Hd].
      destruct (H2 _ _ Hd) as (st & Hst & _). eauto. }
    destruct Hstats as [st Hst]. rewrite Hst. cbn. split; [|exact Hch].
    split; cbn.
    + intros c. destruct (decide (channelId = c)) as [<-|Hne].
      * rewrite lookup_insert_eq, Hch. split; eauto.
      * rewrite lookup_insert_ne by done. apply H1.
    + intros c d. destruct (decide (channelId = c)) as [<-|Hne].
      * rewrite !lookup_insert_eq. intros [= <-]. eexists. split; [reflexivity|].
        cbn. f_equal. lia.
      * rewrite !lookup_insert_ne by done. apply H2.
    + exact H3.
    + exact H4.
  - rewrite lookup_insert_eq. cbn. rewrite lookup_insert_eq. split; [|reflexivity].
    split; cbn.
    + intros c. destruct (decide (channelId = c)) as [<-|Hne].
      * rewrite !lookup_insert_eq. split; eauto.
      * rewrite !lookup_insert_ne by done. apply H1.
    + intros c d. destruct (decide (channelId = c)) as [<-|Hne].
      * rewrite !lookup_insert_eq. intros [= <-]. eexists. split; [reflexivity|].
        cbn. f_equal. lia.
      * rewrite !lookup_insert_ne by done. apply H2.
    + intros c ref. rewrite length_app. cbn [length].
      destruct (decide (channelId = c)) as [<-|Hne].
      * rewrite lookup_insert_eq. intros [= <-]. lia.
      * rewrite lookup_insert_ne by done. intros Hc%H3. lia.
    + intros c1 c2 ref.
      destruct (decide (channelId = c1)) as [<-|Hne1], (decide (channelId = c2)) as [<-|Hne2];
        rewrite ?lookup_insert_eq, ?lookup_insert_ne by done; try done.
      * intros [= <-] Hc%H3. lia.
      * intros Hc%H3 [= <-]. lia.
      * apply H4.
Qed.

Lemma storeOk_sendMessage channelId userMessage channelName messageContent s :
  storeOk s -> storeOk (sendMessage channelId userMessage channelName messageContent s).2.
Proof.
  intros Hs. unfold sendMessage.
  set (s1 := match channelName with
             | Some n => if truthy n
                         then set_channelNames (<[channelId := n]> (channelNames s)) s
                         else s
             | None => s
             end).
  assert (Hs1 : storeOk s1).
  { subst s1. destruct channelName as [n|]; [|exact Hs]. destruct (truthy n); [|exact Hs].
    apply (storeOk_same s); auto. }
  assert (Hl : processingLocks s1 = processingLocks s).
  { subst s1. destruct channelName as [n|]; [|reflexivity]. destruct (truthy n); reflexivity. }
  clearbody s1. destruct (processingLocks s1 !! channelId) as [b|].
  - unfold newPromise. cbn [snd]. apply (storeOk_same s1); [..|exact Hs1];
      destruct (messageQueues s1 !! channelId); reflexivity.
  - unfold newPromise, begin_processMessage. cbn [snd].
    match goal with
    | |- context [getOrInitHistory channelId ?s2] =>
        pose proof (storeOk_getOrInitHistory channelId s2) as Hget;
        destruct (getOrInitHistory channelId s2) as [ref s3]
    end.
    cbn [fst snd] in Hget. destruct Hget as [Hs3 _].
    { apply (storeOk_same s1); auto. }
    apply (storeOk_same s3); try reflexivity; [|exact Hs3].
    cbn. rewrite length_insert. lia.
Qed.

Lemma storeOk_addCost channelId cost s : storeOk s -> storeOk (addCost channelId cost s).
Proof.
  intros [H1 H2 H3 H4]. unfold addCost.
  destruct (sessionStats s !! channelId) as [st|] eqn:Hst; cbn; rewrite ?lookup_insert_eq;
    cbn; rewrite ?Hst; cbn; split; cbn; auto.
  - intros c d Hd. destruct (decide (channelId = c)) as [<-|Hne].
    + rewrite lookup_insert_eq. destruct (H2 _ _ Hd) as (st' & Hst' & Hact).
      rewrite Hst in Hst'. injection Hst' as <-. eauto.
    + rewrite lookup_insert_ne by done. eauto.
  - intros c d Hd. destruct (decide (channelId = c)) as [<-|Hne].
    + destruct (H2 _ _ Hd) as (st' & Hst' & _). congruence.
    + rewrite insert_insert_eq, lookup_insert_ne by done. eauto.
Qed.

Lemma storeOk_finish i r s : storeOk s -> storeOk (finish C i r s).
Proof.
  intros Hs. unfold finish.
  destruct (resume_processMessage C r s) as [frame [answer|message]].
  - match goal with
    | |- context [addCost ?c ?x ?s0] =>
        assert (Hcost : storeOk (addCost c x s0));
        [apply storeOk_addCost, (storeOk_same s); try reflexivity;
           [cbn; rewrite length_insert; lia|exact Hs]|];
        generalize dependent (addCost c x s0)
    end.
    intros s1 Hs1. unfold settle.
    destruct (messageQueues _ !! run_channelId r) as [[|next queue]|];
      apply (storeOk_same s1); auto.
  - unfold settle. apply (storeOk_same s); try reflexivity; [|exact Hs].
    cbn. rewrite length_insert. lia.
Qed.

Lemma storeOk_closeSession channelId s : storeOk s -> storeOk (closeSession channelId s).
Proof.
  intros [H1 H2 H3 H4]. unfold closeSession.
  destruct (conversationHistory s !! channelId) as [ref|] eqn:Hch;
    [|split; assumption].
  split; cbn.
  - intros c. destruct (decide (channelId = c)) as [<-|Hne].
    + rewrite !lookup_delete_eq. split; intros [? ?]; discriminate.
    + rewrite !lookup_delete_ne by done. apply H1.
  - intros c d. destruct (decide (channelId = c)) as [<-|Hne].
    + rewrite lookup_delete_eq. discriminate.
    + rewrite !lookup_delete_ne by done. apply H2.
  - intros c ref' [_ Hc]%lookup_delete_Some. eauto.
  - intros c1 c2 ref' [_ Hc1]%lookup_delete_Some [_ Hc2]%lookup_delete_Some. eauto.
Qed.

Lemma storeOk_step e s s' : step C e s = Some s' -> storeOk s -> storeOk s'.
Proof.
  destruct e as [c m n b|i| |k|dt|c|c]; cbn [step]; intros Hstep Hs.
  - injection Hstep as <-. apply storeOk_sendMessage, Hs.
  - destruct (running s !! i) as [r|]; [|discriminate].
    injection Hstep as <-. apply storeOk_finish, Hs.
  - destruct (immediates s) as [|[c next] rest]; [discriminate|].
    injection Hstep as <-. unfold immediate.
    pose proof (storeOk_sendMessage c (userMessage next) (channelName next)
                  (messageContent next) (set_immediates rest s)) as Hsend.
    destruct (sendMessage c _ _ _ _) as [p s1]. cbn [snd] in Hsend.
    apply (storeOk_same s1); try reflexivity. apply Hsend.
    apply (storeOk_same s); auto.
  - destruct (awaiting s !! k) as [[awaited entry]|]; [|discriminate].
    unfold resume, settle in Hstep.
    destruct (settled <$> promises s !! awaited) as [[|value|reason]|]; try discriminate;
      injection Hstep as <-; apply (storeOk_same s); auto.
  - destruct (0 <=? dt)%Z; [|discriminate]. injection Hstep as <-.
    apply (storeOk_same s); auto.
  - destruct (inactivityTimers s !! c) as [deadline|]; [|discriminate].
    destruct (deadline <=? now s)%Z; [|discriminate]. injection Hstep as <-.
    apply storeOk_closeSession, Hs.
  - injection Hstep as <-. apply storeOk_closeSession, Hs.
Qed.

Lemma storeOk_reachable s : reachable C s -> storeOk s.
Proof.
  intros (prompt & w & es & Hsteps). pose proof (storeOk_init prompt w) as Hs.
  revert Hsteps Hs. generalize (init prompt w). induction es as [|e es IH]; intros s0; cbn.
  - intros [= <-]. auto.
  - destruct (step C e s0) as [s1|] eqn:Hstep; [|discriminate].
    intros Hsteps Hs. apply (IH s1 Hsteps). eapply storeOk_step; eassumption.
Qed.

(** X6: in every state the manager reaches, a channel has an armed
    inactivity timer exactly when it has a history; the session then has
    statistics, and the timer is due 30 minutes after their [lastActivityAt];
    the history is a valid array that no other channel refers to. *)
Theorem session_store_consistent s channelId :
  reachable C s ->
  (is_Some (inactivityTimers s !! channelId) <-> is_Some (historyOf channelId s))
  /\ (is_Some (historyOf channelId s) -> is_Some (sessionStats s !! channelId))
  /\ (forall deadline, inactivityTimers s !! channelId = Some deadline ->
        lastActivityAt (getSessionStats channelId s)
        = Some (deadline - INACTIVITY_TIMEOUT_MS)%Z)
  /\ (forall other ref,
        conversationHistory s !! channelId = Some ref ->
        conversationHistory s !! other = Some ref -> other = channelId).
Proof.
  intros [H1 H2 H3 H4]%storeOk_reachable.
  assert (Hhist : is_Some (historyOf channelId s)
                  <-> is_Some (conversationHistory s !! channelId)).
  { unfold historyOf. destruct (conversationHistory s !! channelId) as [ref|] eqn:Hch.
    - split; [eauto|]. intros _. apply lookup_lt_is_Some. eauto.
    - split; intros [? ?]; discriminate. }
  split; [rewrite Hhist; apply H1|]. split; [|split].
  - rewrite Hhist, <- H1. intros [d Hd]. destruct (H2 _ _ Hd) as (st & Hst & _). eauto.
  - intros d Hd. destruct (H2 _ _ Hd) as (st & Hst & Hact).
    unfold getSessionStats. rewrite Hst. exact Hact.
  - intros other ref Hc Ho. eauto.
Qed.

(** *** Histories only grow *)

Lemma insert_push (A : list (list Message)) (r : nat) (m : Message) ref l :
  A !! ref = Some l ->
  exists l', <[r := default [] (A !! r) ++ [m]]> A !! ref = Some (l ++ l').
Proof.
  intros Hl. destruct (decide (r = ref)) as [->|Hne].
  - rewrite list_lookup_insert_eq by (eapply lookup_lt_Some; exact Hl).
    rewrite Hl. cbn. eauto.
  - rewrite list_lookup_insert_ne by done. exists []. rewrite app_nil_r. exact Hl.
Qed.

(** What a call does to the session store. *)
Lemma sendMessage_store channelId userMessage channelName messageContent s :
  let s' := (sendMessage channelId userMessage channelName messageContent s).2 in
  let m := {| role := user;
              content := match messageContent with
                         | Some blocks => Blocks blocks
                         | None => Plain userMessage
                         end |} in
  match processingLocks s !! channelId with
  | Some _ =>
      arrays s' = arrays s /\ conversationHistory s' = conversationHistory s
  | None =>
      match conversationHistory s !! channelId with
      | Some ref =>
          conversationHistory s' = conversationHistory s
          /\ arrays s' = <[ref := default [] (arrays s !! ref) ++ [m]]> (arrays s)
      | None =>
          conversationHistory s'
          = <[channelId := length (arrays s)]> (conversationHistory s)
          /\ arrays s' = arrays s ++ [[m]]
      end
  end.
Proof.
  intros s' m. subst s' m. unfold sendMessage.
  set (s1 := match channelName with
             | Some n => if truthy n
                         then set_channelNames (<[channelId := n]> (channelNames s)) s
                         else s
             | None => s
             end).
  assert (Ha : arrays s1 = arrays s /\ conversationHistory s1 = conversationHistory s
               /\ processingLocks s1 = processingLocks s).
  { subst s1. destruct channelName as [n|]; [|auto]. destruct (truthy n); auto. }
  destruct Ha as (Ha & Hh & Hl). clearbody s1. rewrite Hl.
  destruct (processingLocks s !! channelId) as [b|].
  - unfold newPromise. destruct (messageQueues s1 !! channelId); cbn; auto.
  - unfold newPromise, begin_processMessage, getOrInitHistory.
    cbn [snd conversationHistory set_processingLocks set_promises].
    rewrite Hh. destruct (conversationHistory s !! channelId) as [r|].
    + unfold resetInactivityTimer.
      cbn [sessionStats set_processingLocks set_promises].
      destruct (sessionStats s1 !! channelId); cbn; rewrite Ha, Hh; auto.
    + unfold resetInactivityTimer.
      cbn [sessionStats set_sessionStats set_conversationHistory set_arrays
           set_processingLocks set_promises].
      rewrite lookup_insert_eq. cbn. rewrite Ha, Hh. split; [done|].
      rewrite lookup_app_r by lia. rewrite Nat.sub_diag. cbn.
      replace (length (arrays s)) with (length (arrays s) + 0) at 1 by lia.
      by rewrite insert_app_r.
Qed.

Lemma sendMessage_arrays channelId userMessage channelName messageContent s ref l :
  arrays s !! ref = Some l ->
  exists l', arrays (sendMessage channelId userMessage channelName messageContent s).2 !! ref
             = Some (l ++ l').
Proof.
  intros Hl.
  pose proof (sendMessage_store channelId userMessage channelName messageContent s) as H.
  cbv zeta in H.
  destruct (processingLocks s !! channelId) as [b|].
  - destruct H as [-> _]. exists []. by rewrite app_nil_r.
  - destruct (conversationHistory s !! channelId) as [r|].
    + destruct H as [_ ->]. by apply insert_push.
    + destruct H as [_ ->]. exists []. rewrite app_nil_r.
      by apply lookup_app_l_Some.
Qed.

Lemma finish_arrays i r s ref l :
  arrays s !! ref = Some l ->
  exists l', arrays (finish C i r s) !! ref = Some (l ++ l').
Proof.
  intros Hl.
  assert (Harr : arrays (finish C i r s)
                 = <[run_history r := history (resume_processMessage C r s).1]> (arrays s)).
  { unfold finish, settle, addCost.
    destruct (resume_processMessage C r s) as [frame [answer|message]]; cbn [fst];
      repeat case_match; reflexivity. }
  rewrite Harr. destruct (decide (run_history r = ref)) as [Heq|Hne].
  - rewrite <- Heq in Hl |- *.
    rewrite list_lookup_insert_eq by (eapply lookup_lt_Some; exact Hl).
    unfold resume_processMessage. rewrite Hl.
    match goal with
    | |- context [run_model C ?a ?b ?c ?d ?f] =>
        destruct (LoopMore.run_model_prefix C a b c d f) as [l' Hl']
    end.
    rewrite Hl'. cbn. eauto.
  - rewrite list_lookup_insert_ne by done. exists []. rewrite app_nil_r. exact Hl.
Qed.

Lemma step_arrays e s s' ref l :
  step C e s = Some s' -> arrays s !! ref = Some l ->
  exists l', arrays s' !! ref = Some (l ++ l').
Proof.
  assert (Hsame : arrays s' = arrays s -> arrays s !! ref = Some l ->
                  exists l', arrays s' !! ref = Some (l ++ l')).
  { intros -> Hl. exists []. rewrite app_nil_r. exact Hl. }
  destruct e as [c m n b|i| |k|dt|c|c]; cbn [step]; intros Hstep Hl.
  - injection Hstep as <-. apply sendMessage_arrays, Hl.
  - destruct (running s !! i) as [r|]; [|discriminate].
    injection Hstep as <-. apply finish_arrays, Hl.
  - destruct (immediates s) as [|[c next] rest]; [discriminate|].
    injection Hstep as <-. unfold immediate.
    pose proof (sendMessage_arrays c (userMessage next) (channelName next)
                  (messageContent next) (set_immediates rest s) ref l Hl) as Hsend.
    destruct (sendMessage c _ _ _ _) as [p s1]. exact Hsend.
  - destruct (awaiting s !! k) as [[awaited entry]|]; [|discriminate].
    unfold resume, settle in Hstep.
    destruct (settled <$> promises s !! awaited) as [[|value|reason]|]; try discriminate;
      injection Hstep as <-; apply Hsame; auto.
  - destruct (0 <=? dt)%Z; [|discriminate]. injection Hstep as <-. apply Hsame; auto.
  - destruct (inactivityTimers s !! c) as [deadline|]; [|discriminate].
    destruct (deadline <=? now s)%Z; [|discriminate]. injection Hstep as <-.
    apply Hsame; [|exact Hl]. unfold closeSession. case_match; reflexivity.
  - injection Hstep as <-. apply Hsame; [|exact Hl].
    unfold closeSession. case_match; reflexivity.
Qed.

Lemma sendMessage_keeps_session c userMessage channelName messageContent s
    channelId ref :
  conversationHistory s !! channelId = Some ref ->
  conversationHistory (sendMessage c userMessage channelName messageContent s).2
    !! channelId = Some ref.
Proof.
  intros Hch.
  pose proof (sendMessage_store c userMessage channelName messageContent s) as H.
  cbv zeta in H.
  destruct (processingLocks s !! c) as [b|].
  - destruct H as [_ ->]. exact Hch.
  - destruct (conversationHistory s !! c) as [r|] eqn:Hc.
    + destruct H as [-> _]. exact Hch.
    + destruct H as [-> _]. rewrite lookup_insert_ne; [exact Hch|]. congruence.
Qed.

Lemma step_keeps_session e s s' channelId ref :
  step C e s = Some s' -> ~ closes channelId e ->
  conversationHistory s !! channelId = Some ref ->
  conversationHistory s' !! channelId = Some ref.
Proof.
  unfold closes.
  destruct e as [c m n b|i| |k|dt|c|c]; cbn [step]; intros Hstep Hopen Hch.
  - injection Hstep as <-. by apply sendMessage_keeps_session.
  - destruct (running s !! i) as [r|]; [|discriminate].
    injection Hstep as <-. destruct (finish_effect C i r s) as (_ & _ & _ & _ & _ & -> & _).
    exact Hch.
  - destruct (immediates s) as [|[c next] rest]; [discriminate|].
    injection Hstep as <-. unfold immediate.
    pose proof (sendMessage_keeps_session c (userMessage next) (channelName next)
                  (messageContent next) (set_immediates rest s) channelId ref Hch) as Hk.
    destruct (sendMessage c (userMessage next) (channelName next) (messageContent next)
                (set_immediates rest s)) as [p s1].
    exact Hk.
  - destruct (awaiting s !! k) as [[awaited entry]|]; [|discriminate].
    unfold resume, settle in Hstep.
    destruct (settled <$> promises s !! awaited) as [[|value|reason]|]; try discriminate;
      injection Hstep as <-; exact Hch.
  - destruct (0 <=? dt)%Z; [|discriminate]. injection Hstep as <-. exact Hch.
  - destruct (inactivityTimers s !! c) as [deadline|]; [|discriminate].
    destruct (deadline <=? now s)%Z; [|discriminate]. injection Hstep as <-.
    assert (Hne : c <> channelId) by (intros ->; tauto).
    rewrite (proj1 (closeSession_other c s channelId Hne)). exact Hch.
  - injection Hstep as <-.
    assert (Hne : c <> channelId) by (intros ->; tauto).
    rewrite (proj1 (closeSession_other c s channelId Hne)). exact Hch.
Qed.

(** X7: as long as the session of a channel is not closed, its history
    only grows: whatever the manager does, the turns already there stay in
    place and new turns are appended after them. *)
Theorem history_only_grows es s s' channelId turns :
  steps C es s = Some s' ->
  Forall (fun e => ~ closes channelId e) es ->
  historyOf channelId s = Some turns ->
  exists more, historyOf channelId s' = Some (turns ++ more).
Proof.
  revert s turns. induction es as [|e es IH]; intros s turns; cbn [steps].
  - intros [= <-] _ Hh. exists []. rewrite app_nil_r. exact Hh.
  - destruct (step C e s) as [s1|] eqn:Hstep; [|discriminate].
    intros Hsteps [He Hes]%Forall_cons Hh. unfold historyOf in Hh.
    destruct (conversationHistory s !! channelId) as [ref|] eqn:Hch; [|discriminate].
    destruct (step_arrays e s s1 ref turns Hstep Hh) as [l1 Hl1].
    pose proof (step_keeps_session e s s1 channelId ref Hstep He Hch) as Hch1.
    destruct (IH s1 (turns ++ l1) Hsteps Hes) as [more Hmore].
    { unfold historyOf. rewrite Hch1. exact Hl1. }
    exists (l1 ++ more). rewrite Hmore, app_assoc. reflexivity.
Qed.

(** *** Closing a session *)

(** X8: [closeSession] forgets the history, the statistics and the timer of
    a channel that has a history, and does nothing for a channel without one.
    It never touches the lock, the queue, the stored channel name, the runs or
    the promises, nor the session of another channel; closing twice is the
    same as closing once. *)
Theorem closeSession_scope channelId s :
  let s' := closeSession channelId s in
  (is_Some (conversationHistory s !! channelId) ->
     historyOf channelId s' = None
     /\ sessionStats s' !! channelId = None
     /\ inactivityTimers s' !! channelId = None)
  /\ (conversationHistory s !! channelId = None -> s' = s)
  /\ processingLocks s' = processingLocks s
  /\ messageQueues s' = messageQueues s
  /\ channelNames s' = channelNames s
  /\ running s' = running s
  /\ promises s' = promises s
  /\ (forall other, other <> channelId ->
        historyOf other s' = historyOf other s
        /\ sessionStats s' !! other = sessionStats s !! other
        /\ inactivityTimers s' !! other = inactivityTimers s !! other)
  /\ closeSession channelId s' = s'.
Proof.
  cbv zeta. unfold closeSession, historyOf.
  destruct (conversationHistory s !! channelId) as [ref|] eqn:Hch; cbn.
  - rewrite !lookup_delete_eq. repeat split; try reflexivity; try discriminate.
    all: intros; rewrite ?lookup_delete_ne by done; reflexivity.
  - rewrite Hch. repeat split; try reflexivity;
      match goal with H : is_Some None |- _ => destruct H; discriminate end.
Qed.

(** X9: the first message after a reset starts the session afresh. For an
    unlocked channel, closing the session and sending a message leaves a
    history with the new user turn alone, zeroed statistics created now, and
    a timer due in 30 minutes. *)
Theorem reset_starts_afresh channelId userMessage channelName messageContent s :
  processingLocks s !! channelId = None ->
  let s' := (sendMessage channelId userMessage channelName messageContent
               (closeSession channelId s)).2 in
  historyOf channelId s'
  = Some [{| role := user;
             content := match messageContent with
                        | Some blocks => Blocks blocks
                        | None => Plain userMessage
                        end |}]
  /\ sessionStats s' !! channelId
     = Some {| totalCost := 0; messageCount := 0; createdAt := Some (now s);
               lastActivityAt := Some (now s) |}
  /\ inactivityTimers s' !! channelId = Some (now s + INACTIVITY_TIMEOUT_MS)%Z.
Proof.
  intros Hlock. cbv zeta.
  assert (Hclosed : conversationHistory (closeSession channelId s) !! channelId = None
                    /\ processingLocks (closeSession channelId s) = processingLocks s
                    /\ now (closeSession channelId s) = now s).
  { unfold closeSession. destruct (conversationHistory s !! channelId) eqn:Hch; cbn;
      rewrite ?lookup_delete_eq; auto. }
  destruct Hclosed as (Hch & Hl & Hnow). generalize dependent (closeSession channelId s).
  intros s0 Hch Hl Hnow. rewrite <- Hl in Hlock. rewrite <- Hnow.
  unfold historyOf. unfold_ops.
  destruct channelName as [n|]; [destruct (truthy n)|]; cbn; rewrite Hlock; cbn;
    rewrite Hch; cbn; rewrite !lookup_insert_eq; cbn; rewrite ?lookup_insert_eq;
    rewrite list_lookup_insert_eq by (rewrite length_app; cbn; lia);
    rewrite lookup_app_r, Nat.sub_diag by lia; cbn;
    rewrite ?insert_insert_eq, ?lookup_insert_eq; auto.
Qed.

(** *** The queue of a channel *)

(** X10: one step of the manager changes the queue of a channel at its ends
    only: it appends one entry at the back, or takes the entry at the front,
    or leaves the queue alone. Entries are never reordered or dropped from
    the middle. *)
Theorem queue_changes_at_ends e s s' channelId :
  step C e s = Some s' ->
  queueOf channelId s' = queueOf channelId s
  \/ (exists entry, queueOf channelId s' = queueOf channelId s ++ [entry])
  \/ (exists next, queueOf channelId s = next :: queueOf channelId s').
Proof.
  assert (Hsend : forall c m n b s0,
            queueOf channelId (sendMessage c m n b s0).2 = queueOf channelId s0
            \/ exists entry, queueOf channelId (sendMessage c m n b s0).2
                             = queueOf channelId s0 ++ [entry]).
  { intros c m n b s0. unfold queueOf.
    destruct (sendMessage_queues c m n b s0) as [Hlocked Hfree].
    destruct (processingLocks s0 !! c) as [l|] eqn:Hlock.
    - destruct (Hlocked (ex_intro _ l eq_refl)) as (entry & _ & ->).
      destruct (decide (c = channelId)) as [->|Hne].
      + rewrite lookup_insert_eq. cbn. eauto.
      + rewrite lookup_insert_ne by done. auto.
    - rewrite (Hfree eq_refl). auto. }
  destruct e as [c m n b|i| |k|dt|c|c]; cbn [step]; intros Hstep.
  - injection Hstep as <-. destruct (Hsend c m n b s); auto.
  - destruct (running s !! i) as [r|]; [|discriminate]. injection Hstep as <-.
    unfold queueOf.
    destruct (finish_queues C i r s) as [[-> _]|(next & queue & Hhead & -> & _)]; [auto|].
    destruct (decide (run_channelId r = channelId)) as [<-|Hne].
    + rewrite lookup_insert_eq, Hhead. cbn. eauto.
    + rewrite lookup_insert_ne by done. auto.
  - destruct (immediates s) as [|[c next] rest]; [discriminate|].
    injection Hstep as <-. unfold immediate.
    pose proof (Hsend c (userMessage next) (channelName next) (messageContent next)
                  (set_immediates rest s)) as H.
    destruct (sendMessage c _ _ _ _) as [p s1]. destruct H; auto.
  - destruct (awaiting s !! k) as [[awaited entry]|]; [|discriminate].
    unfold resume, settle in Hstep.
    destruct (settled <$> promises s !! awaited) as [[|value|reason]|]; try discriminate;
      injection Hstep as <-; auto.
  - destruct (0 <=? dt)%Z; [|discriminate]. injection Hstep as <-. auto.
  - destruct (inactivityTimers s !! c) as [deadline|]; [|discriminate].
    destruct (deadline <=? now s)%Z; [|discriminate]. injection Hstep as <-.
    left. unfold queueOf, closeSession. case_match; reflexivity.
  - injection Hstep as <-. left. unfold queueOf, closeSession. case_match; reflexivity.
Qed.

(** *** A run that outlives its session *)

(** X11: when the session of a channel is closed while a run of the channel
    is in flight, the run goes on with the array it holds. When it returns,
    the channel still has no history, so its turns are out of reach, and
    [addCost] creates statistics that hold this run alone and have no
    [lastActivityAt]. *)
Theorem run_outlives_session i r s answer :
  conversationHistory s !! run_channelId r = None ->
  sessionStats s !! run_channelId r = None ->
  (resume_processMessage C r s).2 = Ok answer ->
  let s' := finish C i r s in
  historyOf (run_channelId r) s' = None
  /\ inactivityTimers s' = inactivityTimers s
  /\ sessionStats s' !! run_channelId r
     = Some {| totalCost := 0 + responseCost (usage (answer_response answer));
               messageCount := 0 + 1;
               createdAt := Some (now s);
               lastActivityAt := None |}.
Proof.
  intros Hch Hst Hok. cbv zeta.
  destruct (finish_effect C i r s) as (_ & _ & _ & _ & Ht & Hh & _).
  unfold historyOf. rewrite Hh, Hch, Ht. split; [reflexivity|]. split; [reflexivity|].
  rewrite finish_sessionStats, Hok. unfold addCost. rewrite Hst. cbn.
  rewrite lookup_insert_eq. cbn. rewrite insert_insert_eq, lookup_insert_eq. reflexivity.
Qed.

End WithCollaborators.
End ManagerMore.

Module ManagerMoreExamples.
Import JsString Loop Manager Props ManagerFacts StoreProps ManagerMore Stub Scenarios
  MoreScenarios.

(** The busy channel has its timer and its history. *)
Lemma session_store_consistent_witness :
  is_Some (inactivityTimers (busy []) !! "c") <-> is_Some (historyOf "c" (busy [])).
Proof.
  assert (Hreach : reachable scripted (busy [])).
  { exists "sys", [], [Call "c" "R" (Some "chan") None; Call "c" "A" None None].
    reflexivity. }
  exact (proj1 (session_store_consistent scripted (busy []) "c" Hreach)).
Defined.

(** The run of "R" and then the run of "A": the turn of "R" stays in front. *)
Lemma history_only_grows_witness :
  exists more,
    historyOf "c" (after scripted [Finish 0; Immediate; Finish 0] (busy [hi]))
    = Some ([{| role := user; content := Plain "R" |}] ++ more).
Proof.
  apply (history_only_grows scripted [Finish 0; Immediate; Finish 0] (busy [hi])).
  - vm_compute. reflexivity.
  - repeat constructor; intros [?|?]; discriminate.
  - vm_compute. reflexivity.
Defined.

(** Closing the session of the busy channel: the history goes, the lock stays. *)
Lemma closeSession_scope_witness :
  historyOf "c" (closeSession "c" (busy [])) = None
  /\ processingLocks (closeSession "c" (busy [])) = processingLocks (busy []).
Proof.
  destruct (closeSession_scope "c" (busy [])) as (Hgone & _ & Hlock & _).
  split; [|exact Hlock]. apply Hgone. vm_compute. eauto.
Defined.

(** After the run of "R" has ended, a reset and a new message. *)
Lemma reset_starts_afresh_witness :
  historyOf "d"
    (sendMessage "d" "again" None None
       (closeSession "d" (after scripted [Call "d" "first" None None; Finish 0]
                            (init "sys" [])))).2
  = Some [{| role := user; content := Plain "again" |}].
Proof.
  apply (reset_starts_afresh "d" "again" None None
           (after scripted [Call "d" "first" None None; Finish 0] (init "sys" []))).
  vm_compute. reflexivity.
Defined.

(** The end of the run of "R" takes "A" from the front of the queue. *)
Lemma queue_changes_at_ends_witness :
  queueOf "c" (after scripted [Finish 0] (busy [hi])) = queueOf "c" (busy [hi])
  \/ (exists entry,
        queueOf "c" (after scripted [Finish 0] (busy [hi])) = queueOf "c" (busy [hi]) ++ [entry])
  \/ (exists next,
        queueOf "c" (busy [hi]) = next :: queueOf "c" (after scripted [Finish 0] (busy [hi]))).
Proof.
  apply (queue_changes_at_ends scripted (Finish 0) (busy [hi])).
  vm_compute. reflexivity.
Defined.

(** The evicted run returns "hi": statistics for one message, no history. *)
Lemma run_outlives_session_witness :
  historyOf "c" (finish scripted 0 runSlow evicted) = None
  /\ messageCount (getSessionStats "c" (finish scripted 0 runSlow evicted)) = 1%Z.
Proof.
  destruct (run_outlives_session scripted 0 runSlow evicted
              {| answer_text := "hi"; answer_response := reply [Text "hi"] 1000000 0;
                 answer_rounds := 0 |})
    as (Hhist & _ & Hstats); [vm_compute; reflexivity..|].
  split; [exact Hhist|]. unfold getSessionStats. cbn [run_channelId runSlow] in Hstats.
  rewrite Hstats. reflexivity.
Defined.

End ManagerMoreExamples.

(** ** The tool registry and the command whitelist *)

Module ToolFacts.
Import JsString JsText Loop Props LoopFacts ServerExec.

(** X12: a call of a tool the registry does not know does not reach any
    tool and does not end the run: its result in the batch is
    ["Error: Unknown tool: " + name], flagged [is_error], whatever the four
    tools are; the other calls of the response are run as usual. *)
Theorem unknown_tool_is_reported {W : Type} (E : ToolRegistry.Executors W) (C : Collaborators W)
    (names : gmap string string) (channelId : string) (response : Response)
    (f : Frame W) (k : nat) (toolCall : ToolUseBlock) :
  toolCallsOf (response_content response) !! k = Some toolCall ->
  name toolCall ∉ ToolRegistry.knownTools ->
  roundResults (ToolRegistry.withRegistry E C) names channelId response f !! k
  = Some (ToolResult (id toolCall) ("Error: Unknown tool: " +:+ name toolCall) true)
  /\ length (roundResults (ToolRegistry.withRegistry E C) names channelId response f)
     = length (toolCallsOf (response_content response)).
Proof.
  intros Hk Hunknown. split.
  - unfold roundResults. rewrite (execute_tools_lookup _ _ _ _ _ _ Hk).
    unfold toolResultOf. cbn [executeTool ToolRegistry.withRegistry]. unfold ToolRegistry.executeTool.
    assert (Hne : forall t, t ∈ ToolRegistry.knownTools -> String.eqb (name toolCall) t = false).
    { intros t Ht. apply String.eqb_neq. intros Heq. apply Hunknown. rewrite Heq. exact Ht. }
    rewrite !Hne by (unfold ToolRegistry.knownTools; set_solver). reflexivity.
  - unfold roundResults.
    generalize (beforeTools (ToolRegistry.withRegistry E C) names channelId response f).
    generalize (toolCallsOf (response_content response)). clear.
    intros calls f. rewrite execute_tools_app. cbn [fst app].
    revert f. induction calls as [|c rest IH]; intros f; cbn [execute_tools]; [reflexivity|].
    destruct (executeTool (ToolRegistry.withRegistry E C) (name c) (input c) channelId (world f))
      as [[result|message] w]; rewrite execute_tools_app; cbn [fst app length];
      rewrite IH; reflexivity.
Qed.

(** *** validateCommand *)

Lemma trimStart_solid (c : ascii) (s : string) :
  isWhiteSpace c = false -> trimStart (String c s) = String c s.
Proof. intros Hc. cbn. rewrite Hc. reflexivity. Qed.

Lemma trimEnd_app_fixed (a rest : string) :
  a <> EmptyString -> trimEnd a = a -> exists rest', trimEnd (a +:+ rest) = a +:+ rest'.
Proof.
  induction a as [|c a IH]; [congruence|]. intros _ Hfix.
  change (trimEnd (String c a)) with
    (match trimEnd a with
     | EmptyString => if isWhiteSpace c then EmptyString else String c EmptyString
     | String d t => String c (String d t)
     end) in Hfix.
  change (String c a +:+ rest) with (String c (a +:+ rest)).
  change (trimEnd (String c (a +:+ rest))) with
    (match trimEnd (a +:+ rest) with
     | EmptyString => if isWhiteSpace c then EmptyString else String c EmptyString
     | String d t => String c (String d t)
     end).
  destruct (trimEnd a) as [|d t] eqn:Ha.
  - destruct (isWhiteSpace c) eqn:Hc; [discriminate|]. injection Hfix as <-.
    change (EmptyString +:+ rest) with rest.
    exists (trimEnd rest). destruct (trimEnd rest); reflexivity.
  - injection Hfix as Hat. destruct IH as [rest' Hrest']; [congruence..|].
    rewrite Hrest'. exists rest'. rewrite <- Hat. reflexivity.
Qed.

Lemma trimEnd_app_solid (a rest : string) :
  solidEnds a = true -> exists rest', trimEnd (a +:+ rest) = a +:+ rest'.
Proof.
  unfold solidEnds. intros [_ Hend]%andb_prop.
  destruct (trimEnd a) as [|d t] eqn:Ha; [discriminate|].
  apply String.eqb_eq in Hend. apply trimEnd_app_fixed; congruence.
Qed.

Lemma prefix_app (a b : string) : String.prefix a (a +:+ b) = true.
Proof.
  induction a as [|c a IH]; [destruct b; reflexivity|]. simpl.
  destruct (ascii_dec c c); [exact IH|congruence].
Qed.

(** X13: the whitelist is a test on the beginning of the command only. A
    command made of an allowed word followed by any text at all is accepted,
    and what is handed on is the trimmed command, with that text in it. *)
Theorem whitelist_checks_prefix_only (allowed rest : string) :
  allowed ∈ ALLOWED_COMMANDS ->
  validateCommand (allowed +:+ rest) = Ok (trim (allowed +:+ rest))
  /\ exists rest', trim (allowed +:+ rest) = allowed +:+ rest'.
Proof.
  intros Hin.
  assert (Hsolid : solidEnds allowed = true).
  { assert (Hall : forallb solidEnds ALLOWED_COMMANDS = true) by (vm_compute; reflexivity).
    rewrite forallb_forall in Hall. apply Hall. apply list_elem_of_In. exact Hin. }
  assert (Htrim : exists rest', trim (allowed +:+ rest) = allowed +:+ rest').
  { unfold trim. destruct allowed as [|c a]; [discriminate|].
    apply andb_prop in Hsolid as Hs. destruct Hs as [Hc%negb_true_iff _].
    change (String c a +:+ rest) with (String c (a +:+ rest)).
    rewrite trimStart_solid by exact Hc.
    exact (trimEnd_app_solid (String c a) rest Hsolid). }
  split; [|exact Htrim]. unfold validateCommand. cbv zeta.
  replace (existsb _ ALLOWED_COMMANDS) with true; [reflexivity|].
  symmetry. apply existsb_exists. exists allowed.
  split; [apply list_elem_of_In; exact Hin|].
  destruct Htrim as [rest' ->]. apply prefix_app.
Qed.

(** The word "ss" lets an ssh command through. *)
Lemma whitelist_checks_prefix_only_witness :
  validateCommand "ssh root@db 'rm -rf /'" = Ok "ssh root@db 'rm -rf /'".
Proof.
  destruct (whitelist_checks_prefix_only "ss" "h root@db 'rm -rf /'") as [Hok _].
  - unfold ALLOWED_COMMANDS.
    repeat first [apply list_elem_of_here | apply list_elem_of_further].
  - exact Hok.
Defined.

(** The model asks for a tool "restart_db" that does not exist. *)
Lemma unknown_tool_is_reported_witness :
  roundResults (ToolRegistry.withRegistry ToolRegistry.echo Stub.scripted) ∅ "c"
    (Stub.reply [Stub.call "t1" "restart_db" "now"] 1 1) (Stub.frame0 [] [])
  !! 0
  = Some (ToolResult "t1" "Error: Unknown tool: restart_db" true).
Proof.
  destruct (unknown_tool_is_reported ToolRegistry.echo Stub.scripted ∅ "c"
              (Stub.reply [Stub.call "t1" "restart_db" "now"] 1 1) (Stub.frame0 [] []) 0
              {| id := "t1"; name := "restart_db"; input := "now" |} eq_refl)
    as [Hk _].
  - unfold ToolRegistry.knownTools. cbn [name]. intros Hin.
    repeat (apply elem_of_cons in Hin as [Hin|Hin]; [discriminate|]).
    inversion Hin.
  - exact Hk.
Defined.

End ToolFacts.

(** ** Properties of the Meet bot registry *)

Module MeetFacts.
Import JsString JsText MeetBots.

Lemma delete_keys (k : string) (m : Bots) :
  fst <$> delete k m = List.filter (fun k' => negb (String.eqb k' k)) (fst <$> m).
Proof.
  unfold delete. induction m as [|[k' v] m IH]; [reflexivity|].
  cbn. destruct (String.eqb k' k); cbn; by rewrite IH.
Qed.

Lemma filter_NoDup {A} (p : A -> bool) (l : list A) : NoDup l -> NoDup (List.filter p l).
Proof.
  induction 1 as [|x l Hx Hl IH]; cbn; [constructor|].
  destruct (p x); [constructor|]; auto.
  intros Hin. apply Hx. apply list_elem_of_In in Hin. apply filter_In in Hin as [Hin _].
  by apply list_elem_of_In.
Qed.

Lemma wellKeyed_delete (k : string) (m : Bots) : wellKeyed m -> wellKeyed (delete k m).
Proof. unfold wellKeyed. rewrite delete_keys. apply filter_NoDup. Qed.

Lemma wellKeyed_filter (p : string * BotInfo -> bool) (m : Bots) :
  wellKeyed m -> wellKeyed (List.filter p m).
Proof.
  unfold wellKeyed. induction m as [|e m IH]; cbn; [done|].
  intros Hnd. apply NoDup_cons in Hnd as [Hx Hnd].
  destruct (p e); cbn; [|by auto].
  apply NoDup_cons. split; [|by auto].
  intros Hin. apply Hx. apply list_elem_of_fmap in Hin as (e' & -> & Hin).
  apply list_elem_of_fmap. exists e'. split; [done|].
  apply list_elem_of_In in Hin. apply filter_In in Hin as [Hin _].
  by apply list_elem_of_In.
Qed.

(** With one entry per key, [get] finds the place of its entry and [set]
    overwrites it there. *)
Lemma get_Some_split (k : string) (b : BotInfo) (m : Bots) :
  wellKeyed m -> get k m = Some b ->
  exists m1 m2, m = m1 ++ (k, b) :: m2 /\ (k ∉ fst <$> m1) /\ (k ∉ fst <$> m2).
Proof.
  unfold wellKeyed, get.
  induction m as [|[k' v] m IH]; [done|].
  cbn. intros Hnd. apply NoDup_cons in Hnd as [Hx Hnd].
  destruct (String.eqb_spec k' k) as [->|Hne]; cbn.
  - intros [= ->]. exists [], m. split; [done|]. split; [apply not_elem_of_nil|done].
  - intros Hg. destruct (IH Hnd Hg) as (m1 & m2 & -> & H1 & H2).
    exists ((k', v) :: m1), m2. split; [done|]. split; [|done].
    cbn. apply not_elem_of_cons. split; [congruence|done].
Qed.

Lemma get_None_notin (k : string) (m : Bots) : get k m = None <-> k ∉ fst <$> m.
Proof.
  unfold get. induction m as [|[k' v] m IH]; cbn.
  - split; [intros _; apply not_elem_of_nil|done].
  - destruct (String.eqb_spec k' k) as [->|Hne]; cbn.
    + split; [done|]. intros Hn. exfalso. apply Hn. left.
    + rewrite IH. rewrite not_elem_of_cons. split; [intros; split; congruence|tauto].
Qed.

Lemma replace_notin (k : string) (v : BotInfo) (m : Bots) :
  k ∉ fst <$> m -> (fun e : string * BotInfo => if String.eqb e.1 k then (k, v) else e) <$> m = m.
Proof.
  induction m as [|[k' v'] m IH]; [done|].
  cbn. intros Hn. apply not_elem_of_cons in Hn as [Hne Hn].
  destruct (String.eqb_spec k' k) as [->|_]; [done|]. by rewrite IH.
Qed.

Lemma set_split (k : string) (b v : BotInfo) (m1 m2 : Bots) :
  k ∉ fst <$> m1 -> k ∉ fst <$> m2 ->
  set k v (m1 ++ (k, b) :: m2) = m1 ++ (k, v) :: m2.
Proof.
  intros H1 H2. unfold set.
  assert (Hg : get k (m1 ++ (k, b) :: m2) = Some b).
  { unfold get. clear H2. induction m1 as [|[k' v'] m1 IH]; cbn.
    - by rewrite String.eqb_refl.
    - cbn in H1. apply not_elem_of_cons in H1 as [Hne H1].
      destruct (String.eqb_spec k' k) as [->|_]; [done|]. by apply IH. }
  rewrite Hg. rewrite fmap_app. cbn. rewrite String.eqb_refl.
  by rewrite !replace_notin.
Qed.

Lemma wellKeyed_set (k : string) (v : BotInfo) (m : Bots) :
  wellKeyed m -> wellKeyed (set k v m).
Proof.
  intros Hm. destruct (get k m) as [b|] eqn:Hg.
  - destruct (get_Some_split k b m Hm Hg) as (m1 & m2 & -> & H1 & H2).
    rewrite set_split by done.
    unfold wellKeyed in *. by rewrite fmap_app in *.
  - unfold set. rewrite Hg. unfold wellKeyed in *. rewrite fmap_app. cbn.
    apply NoDup_app. split; [done|]. split; [|apply NoDup_singleton].
    intros x Hx Hx'. apply list_elem_of_singleton in Hx' as ->.
    by apply get_None_notin in Hg.
Qed.

(** The sweep as a fold, whatever the keys are. *)
Lemma cleanup_fold (now : Z) (l : Bots) (n : nat) (a : Bots) :
  fold_left
    (fun (acc : nat * Bots) (e : string * BotInfo) =>
       if isStale now e.2 then (S acc.1, delete e.1 acc.2) else acc)
    l (n, a)
  = (n + length (List.filter (fun e => isStale now e.2) l),
     List.filter
       (fun e => negb (existsb (fun e' => isStale now e'.2 && String.eqb e.1 e'.1) l)) a).
Proof.
  revert n a. induction l as [|e l IH]; intros n a; cbn.
  - f_equal; [lia|]. induction a as [|x a IHa]; cbn; [done|]. by rewrite <- IHa.
  - destruct (isStale now e.2) eqn:Hs; cbn.
    + rewrite IH. f_equal; [lia|].
      unfold delete. induction a as [|x a IHa]; cbn; [done|].
      destruct (String.eqb x.1 e.1); cbn; [done|].
      destruct (existsb _ l); cbn; by rewrite IHa.
    + by rewrite IH.
Qed.

Lemma cleanup_filter (now : Z) (m : Bots) :
  wellKeyed m ->
  cleanupStaleBots now m
  = (length (List.filter (fun e => isStale now e.2) m), List.filter (fresh now) m).
Proof.
  intros Hm. unfold cleanupStaleBots. rewrite cleanup_fold. f_equal.
  apply filter_ext_in. intros e Hin. unfold fresh. f_equal.
  destruct (isStale now e.2) eqn:Hs.
  - apply existsb_exists. exists e. split; [done|]. by rewrite Hs, String.eqb_refl.
  - apply not_true_is_false. intros Hex. apply existsb_exists in Hex as (e' & Hin' & He').
    apply andb_true_iff in He' as [Hs' Heq]. apply String.eqb_eq in Heq.
    assert (e = e') as <-; [|congruence].
    apply list_elem_of_In in Hin, Hin'.
    clear -Hm Hin Hin' Heq. unfold wellKeyed in Hm.
    induction m as [|x m IH]; [by apply elem_of_nil in Hin|].
    cbn in Hm. apply NoDup_cons in Hm as [Hx Hm].
    apply elem_of_cons in Hin as [->|Hin]; apply elem_of_cons in Hin' as [->|Hin'];
      [done| | |by auto].
    + exfalso. apply Hx. rewrite Heq. by apply list_elem_of_fmap_2.
    + exfalso. apply Hx. rewrite <- Heq. by apply list_elem_of_fmap_2.
Qed.

Lemma wellKeyed_cleanup (now : Z) (m : Bots) :
  wellKeyed m -> wellKeyed (cleanupStaleBots now m).2.
Proof. intros Hm. rewrite cleanup_filter by done. by apply wellKeyed_filter. Qed.

Lemma getBotByChannelId_Some (c : string) (m : Bots) :
  is_Some (getBotByChannelId c m) <-> exists e, e ∈ m /\ channelId e.2 = c.
Proof.
  unfold getBotByChannelId. split.
  - intros [b Hb]. destruct (List.find _ m) as [e|] eqn:Hf; [|done].
    apply find_some in Hf as [Hin He]. exists e. split; [by apply list_elem_of_In|].
    by apply String.eqb_eq.
  - intros (e & Hin & He). destruct (List.find _ m) as [e'|] eqn:Hf; [by eexists|].
    exfalso. apply list_elem_of_In in Hin.
    pose proof (find_none _ _ Hf e Hin) as Hn. cbn in Hn.
    apply String.eqb_neq in Hn. done.
Qed.

Lemma inMeeting_spec (c : string) (now : Z) (m : Bots) :
  wellKeyed m ->
  (isChannelInMeeting c now m).1 = true
  <-> exists e, e ∈ m /\ channelId e.2 = c /\ (now - createdAt e.2 <= TWO_HOURS_MS)%Z.
Proof.
  intros Hm. unfold isChannelInMeeting. cbn [fst].
  rewrite cleanup_filter by done. cbn [snd].
  rewrite bool_decide_eq_true, getBotByChannelId_Some.
  split.
  - intros (e & Hin & He). apply list_elem_of_In, filter_In in Hin as [Hin Hf].
    exists e. split; [by apply list_elem_of_In|]. split; [done|].
    unfold fresh, isStale in Hf. apply negb_true_iff, Z.ltb_ge in Hf. done.
  - intros (e & Hin & He & Hage). exists e. split; [|done].
    apply list_elem_of_In, filter_In. split; [by apply list_elem_of_In|].
    unfold fresh, isStale. apply negb_true_iff, Z.ltb_ge. done.
Qed.

(** X14: [cleanupStaleBots] deletes while it goes through the map; with
    one entry per bot id, what is left are the bots created at most two
    hours before, in their order, and the count returned is the number of
    bots removed. *)
Theorem stale_bots_swept (now : Z) (m : Bots) :
  wellKeyed m ->
  (cleanupStaleBots now m).2
    = List.filter (fun e => (now - createdAt e.2 <=? TWO_HOURS_MS)%Z) m
  /\ (cleanupStaleBots now m).1 + length (cleanupStaleBots now m).2 = length m.
Proof.
  intros Hm. rewrite cleanup_filter by done. cbn [fst snd]. split.
  - apply filter_ext. intros e. unfold fresh, isStale.
    by rewrite Z.leb_antisym.
  - unfold fresh. clear Hm. induction m as [|e m IH]; cbn; [done|].
    destruct (isStale now e.2); cbn; lia.
Qed.

Lemma stale_bots_swept_witness :
  wellKeyed [("b1", oldBot); ("b2", newBot)]
  /\ (cleanupStaleBots 7200001 [("b1", oldBot); ("b2", newBot)]).2 = [("b2", newBot)]
  /\ (cleanupStaleBots 7200000 [("b1", oldBot); ("b2", newBot)]).1 = 0.
Proof.
  assert (Hm : wellKeyed [("b1", oldBot); ("b2", newBot)]).
  { unfold wellKeyed. cbn. apply NoDup_cons. split; [|apply NoDup_singleton].
    intros H. apply list_elem_of_singleton in H. discriminate. }
  split; [exact Hm|].
  pose proof (stale_bots_swept 7200001 _ Hm) as [H1 _].
  pose proof (stale_bots_swept 7200000 _ Hm) as [_ H2].
  split; [rewrite H1; reflexivity|]. vm_compute. reflexivity.
Defined.

(** X15: [isChannelInMeeting] answers true exactly when the registry holds
    a bot of the channel that was created at most two hours before; the
    status of the bot plays no part. *)
Theorem in_meeting_iff_young_bot (c : string) (now : Z) (m : Bots) :
  wellKeyed m ->
  (isChannelInMeeting c now m).1 = true
  <-> exists info, info ∈ getActiveBots m /\ channelId info = c
                   /\ (now - createdAt info <= TWO_HOURS_MS)%Z.
Proof.
  intros Hm. rewrite inMeeting_spec by done. unfold getActiveBots. split.
  - intros (e & Hin & He & Hage). exists e.2. split; [|done].
    by apply list_elem_of_fmap_2.
  - intros (info & Hin & He & Hage). apply list_elem_of_fmap in Hin as (e & -> & Hin).
    by exists e.
Qed.

Lemma in_meeting_iff_young_bot_witness :
  (isChannelInMeeting "c" 7200000 [("b1", oldBot)]).1 = true.
Proof.
  assert (Hm : wellKeyed [("b1", oldBot)]).
  { unfold wellKeyed. cbn. apply NoDup_singleton. }
  apply (in_meeting_iff_young_bot "c" 7200000 _ Hm).
  exists oldBot. split; [apply list_elem_of_here|]. split; [reflexivity|].
  vm_compute. discriminate.
Defined.

Lemma updateBotStatus_split (id st : string) (t : Z) (m : Bots) :
  wellKeyed m ->
  updateBotStatus id st t m = m
  \/ exists m1 m2 b b',
       m = m1 ++ (id, b) :: m2 /\ updateBotStatus id st t m = m1 ++ (id, b') :: m2
       /\ channelId b' = channelId b /\ createdAt b' = createdAt b
       /\ botId b' = botId b /\ meetingUrl b' = meetingUrl b.
Proof.
  intros Hm. unfold updateBotStatus. destruct (get id m) as [b|] eqn:Hg; [|by left].
  right. destruct (get_Some_split id b m Hm Hg) as (m1 & m2 & -> & H1 & H2).
  eexists m1, m2, b, _. split; [done|]. split; [by apply set_split|]. done.
Qed.

Lemma wellKeyed_updateBotStatus (id st : string) (t : Z) (m : Bots) :
  wellKeyed m -> wellKeyed (updateBotStatus id st t m).
Proof.
  intros Hm. unfold updateBotStatus. destruct (get id m); [|done].
  by apply wellKeyed_set.
Qed.

(** X16: a status reported for a bot, whatever it is, changes neither
    the channel nor the age of any bot: every channel is in a meeting after
    [updateBotStatus] exactly if it was before. *)
Theorem status_change_keeps_meeting (id st c : string) (t now : Z) (m : Bots) :
  wellKeyed m ->
  (isChannelInMeeting c now (updateBotStatus id st t m)).1
  = (isChannelInMeeting c now m).1.
Proof.
  intros Hm. pose proof (wellKeyed_updateBotStatus id st t m Hm) as Hm'.
  apply eq_true_iff_eq. rewrite !inMeeting_spec by done.
  destruct (updateBotStatus_split id st t m Hm)
    as [->|(m1 & m2 & b & b' & -> & -> & Hc & Ht & _)]; [done|].
  split; intros (e & Hin & He & Hage).
  - apply elem_of_app in Hin as [Hin|Hin]; [exists e; set_solver|].
    apply elem_of_cons in Hin as [->|Hin]; [|exists e; set_solver].
    exists (id, b). cbn in *. split; [set_solver|]. split; [congruence|]. by rewrite <- Ht.
  - apply elem_of_app in Hin as [Hin|Hin]; [exists e; set_solver|].
    apply elem_of_cons in Hin as [->|Hin]; [|exists e; set_solver].
    exists (id, b'). cbn in *. split; [set_solver|]. split; [congruence|]. by rewrite Ht.
Qed.

Lemma status_change_keeps_meeting_witness :
  (isChannelInMeeting "c" 100 (updateBotStatus "b1" "done" 50 [("b1", oldBot)])).1 = true.
Proof.
  assert (Hm : wellKeyed [("b1", oldBot)]).
  { unfold wellKeyed. cbn. apply NoDup_singleton. }
  rewrite (status_change_keeps_meeting "b1" "done" "c" 50 100 _ Hm).
  vm_compute. reflexivity.
Defined.

Lemma botsOf_app (c : string) (m1 m2 : Bots) :
  botsOf c (m1 ++ m2) = botsOf c m1 ++ botsOf c m2.
Proof. unfold botsOf. by rewrite fmap_app, List.filter_app. Qed.

Lemma botsOf_cons (c : string) (e : string * BotInfo) (m : Bots) :
  length (botsOf c (e :: m))
  = (if String.eqb (channelId e.2) c then 1 else 0) + length (botsOf c m).
Proof. unfold botsOf. cbn. by destruct (String.eqb (channelId e.2) c). Qed.

Lemma botsOf_filter (c : string) (p : string * BotInfo -> bool) (m : Bots) :
  length (botsOf c (List.filter p m)) <= length (botsOf c m).
Proof.
  induction m as [|e m IH]; [done|].
  cbn [List.filter]. destruct (p e); rewrite ?botsOf_cons; lia.
Qed.

Lemma botsOf_set (c k : string) (v : BotInfo) (m : Bots) :
  wellKeyed m ->
  length (botsOf c (set k v m))
  <= (if String.eqb (channelId v) c then 1 else 0) + length (botsOf c m).
Proof.
  intros Hm. destruct (get k m) as [b|] eqn:Hg.
  - destruct (get_Some_split k b m Hm Hg) as (m1 & m2 & -> & H1 & H2).
    rewrite set_split by done.
    rewrite !botsOf_app, !length_app, !botsOf_cons. cbn.
    destruct (String.eqb (channelId v) c), (String.eqb (channelId b) c); lia.
  - unfold set. rewrite Hg, botsOf_app, length_app, botsOf_cons. cbn. lia.
Qed.

Lemma botsOf_updateBotStatus (c id st : string) (t : Z) (m : Bots) :
  wellKeyed m ->
  length (botsOf c (updateBotStatus id st t m)) = length (botsOf c m).
Proof.
  intros Hm.
  destruct (updateBotStatus_split id st t m Hm)
    as [->|(m1 & m2 & b & b' & -> & -> & Hc & _)]; [done|].
  rewrite !botsOf_app, !length_app, !botsOf_cons. cbn. by rewrite Hc.
Qed.

Lemma botsOf_none (c : string) (m : Bots) :
  getBotByChannelId c m = None -> botsOf c m = [].
Proof.
  unfold getBotByChannelId, botsOf. induction m as [|e m IH]; [done|].
  cbn. destruct (String.eqb (channelId e.2) c); [done|]. exact IH.
Qed.

Lemma execute_check_request (url : string) (context : option string) (m : Bots)
    (url' c : string) :
  execute_check url context m = Request url' c ->
  url' = url /\ context = Some c /\ truthy c = true
  /\ includes url "meet.google.com" = true /\ getBotByChannelId c m = None.
Proof.
  unfold execute_check. destruct context as [c0|]; [|done].
  destruct (truthy c0) eqn:Ht; cbn; [|done].
  destruct (includes url _) eqn:Hi; cbn; [|done].
  destruct (getBotByChannelId c0 m) eqn:Hb; [done|].
  intros [= <- <-]. done.
Qed.

Lemma filter_delete_length {A} (p : A -> bool) (k : nat) (x : A) (l : list A) :
  l !! k = Some x ->
  (if p x then 1 else 0) + length (List.filter p (base.delete k l))
  = length (List.filter p l).
Proof.
  revert k. induction l as [|y l IH]; intros [|k]; cbn; try done.
  - intros [= ->]. by destruct (p x).
  - intros Hk. destruct (p y); cbn; rewrite <- (IH k Hk); by destruct (p x).
Qed.

Lemma tidy_init : tidy init.
Proof. split; [apply NoDup_nil_2|]. intros c. cbn. lia. Qed.

Lemma tidy_step (e : Event) (s s' : State) : tidy s -> step e s = Some s' -> tidy s'.
Proof.
  intros [Hk Hc]. unfold requestsOf in Hc.
  destruct e as [url context|k posted|id st|id|c|dt]; cbn [step].
  - destruct (execute_check url context (activeBots s)) as [|url' c'] eqn:Hx.
    { intros [= <-]. by split. }
    apply execute_check_request in Hx as (_ & _ & _ & _ & Hnone).
    destruct (requestsOf c' s) eqn:Hr; [|done]. intros [= <-].
    split; [done|]. intros c. unfold requestsOf in *. cbn [activeBots requests].
    rewrite List.filter_app, length_app. cbn [List.filter snd].
    destruct (String.eqb_spec c' c) as [->|_]; cbn [length]; [|specialize (Hc c); lia].
    rewrite Hr, (botsOf_none _ _ Hnone). cbn. lia.
  - destruct (requests s !! k) as [[url c']|] eqn:Hr; [|done]. intros [= <-].
    unfold execute_resume, joinMeeting. destruct posted as [id|message]; cbn [snd].
    + split; [by apply wellKeyed_set|]. intros c.
      unfold requestsOf. cbn [activeBots requests].
      pose proof (botsOf_set c id
        {| botId := id; channelId := c'; meetingUrl := url; status := "joining";
           createdAt := clock s; updatedAt := None |} (activeBots s) Hk) as Hle.
      pose proof (filter_delete_length (fun r => String.eqb r.2 c) k _ _ Hr) as Hd.
      cbn [channelId snd] in Hle, Hd. specialize (Hc c).
      destruct (String.eqb c' c); lia.
    + split; [done|]. intros c. unfold requestsOf. cbn [activeBots requests].
      pose proof (filter_delete_length (fun r => String.eqb r.2 c) k _ _ Hr) as Hd.
      cbn [snd] in Hd. specialize (Hc c).
      destruct (String.eqb c' c); lia.
  - destruct (getBotInfo id (activeBots s)); intros [= <-]; [|by split].
    split; [by apply wellKeyed_updateBotStatus|]. intros c.
    unfold requestsOf. cbn [activeBots requests].
    rewrite botsOf_updateBotStatus by done. apply Hc.
  - destruct (getBotInfo id (activeBots s)); intros [= <-]; [|by split].
    split; [by apply wellKeyed_delete|]. intros c.
    unfold requestsOf. cbn [activeBots requests].
    pose proof (botsOf_filter c (fun e => negb (String.eqb e.1 id)) (activeBots s)).
    specialize (Hc c). unfold delete. lia.
  - intros [= <-]. unfold isChannelInMeeting. cbn [snd].
    split; [by apply wellKeyed_cleanup|]. intros c0.
    unfold requestsOf. cbn [activeBots requests].
    rewrite cleanup_filter by done. cbn [snd].
    pose proof (botsOf_filter c0 (fresh (clock s)) (activeBots s)).
    specialize (Hc c0). lia.
  - destruct (0 <=? dt)%Z; [|done]. intros [= <-]. by split.
Qed.

Lemma tidy_steps (es : list Event) (s s' : State) :
  tidy s -> steps es s = Some s' -> tidy s'.
Proof.
  revert s. induction es as [|e es IH]; intros s Hs; cbn.
  - by intros [= <-].
  - destruct (step e s) as [s1|] eqn:He; [|done]. intros Hes.
    eapply IH; [|done]. by eapply tidy_step.
Qed.

(** X17: however tool calls, answers of Recall.ai, webhook events and
    checks of the manager follow each other, a channel never has two bots:
    for every channel the bots registered and the requests to join in flight
    are at most one together. *)
Theorem one_bot_per_channel (s : State) (c : string) :
  reachable s ->
  length (botsOf c (activeBots s)) + length (requestsOf c s) <= 1.
Proof. intros [es Hes]. by apply (tidy_steps es init s tidy_init Hes). Qed.

End MeetFacts.

Module MeetExamples.
Import JsString JsText MeetBots.

Lemma one_bot_per_channel_witness :
  exists s, steps joinedOnce init = Some s
    /\ length (botsOf "c" (activeBots s)) + length (requestsOf "c" s) <= 1.
Proof.
  assert (Hs : exists s, steps joinedOnce init = Some s).
  { vm_compute. eexists. reflexivity. }
  destruct Hs as [s Hs]. exists s. split; [exact Hs|].
  apply MeetFacts.one_bot_per_channel. exists joinedOnce. exact Hs.
Defined.

End MeetExamples.

(** ** Properties of the Cliq route *)

Module CliqFacts.
Import JsString JsText CliqRoute.

Lemma keepAlnum_app (a b : string) : keepAlnum (a +:+ b) = keepAlnum a +:+ keepAlnum b.
Proof.
  induction a as [|c a IH]; [reflexivity|].
  change (String c a +:+ b) with (String c (a +:+ b)). cbn [keepAlnum].
  destruct (isAlnum c); rewrite IH; reflexivity.
Qed.

Lemma toLowerCase_app (a b : string) :
  toLowerCase (a +:+ b) = toLowerCase a +:+ toLowerCase b.
Proof.
  induction a as [|c a IH]; [reflexivity|].
  change (String c a +:+ b) with (String c (a +:+ b)). cbn [toLowerCase].
  rewrite IH. reflexivity.
Qed.

Lemma lowerUnit_facts (c : ascii) :
  isAlnum (lowerUnit c) = isAlnum c
  /\ lowerUnit (lowerUnit c) = lowerUnit c
  /\ (isAlnum c = true -> isLowerAlnum (lowerUnit c) = true).
Proof. destruct c as [[] [] [] [] [] [] [] []]; vm_compute; auto. Qed.

Lemma isLowerAlnum_facts (c : ascii) :
  isLowerAlnum c = true -> isAlnum c = true /\ lowerUnit c = c.
Proof.
  destruct c as [[] [] [] [] [] [] [] []]; vm_compute; intros;
    first [discriminate | auto].
Qed.

(** Stripping the leading [#] first changes nothing: the filter removes it. *)
Lemma format_eq (s : string) : formatChannelUniqueName s = toLowerCase (keepAlnum s).
Proof.
  unfold formatChannelUniqueName, startsWith. destruct s as [|c s]; [reflexivity|].
  cbn [String.prefix].
  destruct (ascii_dec "#"%char c) as [<-|Hne]; [|reflexivity].
  destruct s; reflexivity.
Qed.

Lemma format_units (s : string) :
  forallUnits isLowerAlnum (toLowerCase (keepAlnum s)) = true.
Proof.
  induction s as [|c s IH]; [reflexivity|].
  cbn [keepAlnum]. destruct (isAlnum c) eqn:Hc; [|exact IH].
  cbn [toLowerCase forallUnits]. rewrite IH.
  by rewrite (proj2 (proj2 (lowerUnit_facts c)) Hc).
Qed.

Lemma format_fixed (s : string) :
  forallUnits isLowerAlnum s = true -> toLowerCase (keepAlnum s) = s.
Proof.
  induction s as [|c s IH]; [reflexivity|].
  cbn [forallUnits]. intros H. apply andb_true_iff in H as [Hc Hs].
  destruct (isLowerAlnum_facts c Hc) as [Ha Hl].
  cbn [keepAlnum]. rewrite Ha. cbn [toLowerCase]. by rewrite Hl, IH.
Qed.

(** X18: the unique name of a channel is made of the letters a..z and
    the digits only, and formatting it again gives it back. *)
Theorem unique_name_is_lowercase_alnum (channelName : string) :
  forallUnits isLowerAlnum (formatChannelUniqueName channelName) = true
  /\ formatChannelUniqueName (formatChannelUniqueName channelName)
     = formatChannelUniqueName channelName.
Proof.
  rewrite !format_eq. split; [apply format_units|].
  apply format_fixed, format_units.
Qed.

(** X19: channel names that differ by a unit that is no letter or digit
    (anywhere, not only a leading [#]), or by the case of a letter, get the
    same unique name. *)
Theorem unique_name_blind_to_punctuation_and_case (s1 s2 : string) (c : ascii) :
  (isAlnum c = false ->
   formatChannelUniqueName (s1 +:+ String c s2) = formatChannelUniqueName (s1 +:+ s2))
  /\ formatChannelUniqueName (s1 +:+ String (lowerUnit c) s2)
     = formatChannelUniqueName (s1 +:+ String c s2).
Proof.
  rewrite !format_eq, !keepAlnum_app. cbn [keepAlnum].
  destruct (lowerUnit_facts c) as (Ha & Hl & _). rewrite Ha. split.
  - intros ->. reflexivity.
  - destruct (isAlnum c); [|reflexivity].
    rewrite !toLowerCase_app. cbn [toLowerCase]. by rewrite Hl.
Qed.

Lemma unique_name_blind_to_punctuation_and_case_witness :
  formatChannelUniqueName "test agent" = formatChannelUniqueName "testagent"
  /\ formatChannelUniqueName "test agent" = formatChannelUniqueName "Test agent".
Proof.
  split.
  - apply (proj1 (unique_name_blind_to_punctuation_and_case "test" "agent" " "%char)).
    reflexivity.
  - apply (proj2 (unique_name_blind_to_punctuation_and_case
                    EmptyString "est agent" "T"%char)).
Defined.

Lemma attachmentBlocks_nil (download : string -> option string) (a : Attachment) :
  attachmentBlocks download a = []
  <-> startsWith (att_type a) "image/" = true
      /\ (download (att_url a) = None \/ download (att_url a) = Some EmptyString).
Proof.
  unfold attachmentBlocks.
  destruct (startsWith (att_type a) "image/") eqn:Hi.
  - assert (Ht : truthy (att_type a) = true).
    { destruct (att_type a); [discriminate Hi|reflexivity]. }
    rewrite Ht. cbn [andb].
    destruct (download (att_url a)) as [d|]; [|tauto].
    destruct d as [|c d]; cbn.
    + tauto.
    + split; [discriminate|]. intros [_ [H|H]]; discriminate.
  - rewrite andb_false_r. split; [discriminate|]. intros [H _]. discriminate.
Qed.

(** X20: the content handed to the manager has no block at all exactly
    when the message has no text and every attachment is an image whose
    download failed or came back empty. *)
Theorem empty_content_iff_nothing_usable (download : string -> option string)
    (message : string) (attachments : list Attachment) :
  messageContentOf download message attachments = []
  <-> message = EmptyString
      /\ Forall (fun a => startsWith (att_type a) "image/" = true
                          /\ (download (att_url a) = None
                              \/ download (att_url a) = Some EmptyString))
                attachments.
Proof.
  unfold messageContentOf. split.
  - intros H. apply app_eq_nil in H as [Hm Ha]. split.
    + destruct message; [reflexivity|discriminate].
    + clear Hm. induction attachments as [|a l IH]; [constructor|].
      cbn in Ha. apply app_eq_nil in Ha as [H1 H2].
      constructor; [by apply attachmentBlocks_nil|by apply IH].
  - intros [-> Ha]. cbn. induction Ha as [|a l H1 _ IH]; [reflexivity|].
    cbn. apply attachmentBlocks_nil in H1. by rewrite H1, IH.
Qed.

Section WithWorld.
Context {W : Type}.
Implicit Types s : Manager.State W.

(** X21: when the channel is idle, the user turn that the route adds to
    the history is the list of blocks, not the line that starts with the
    name of the user: the name is in no message the model gets. *)
Theorem user_turn_is_the_blocks (download : string -> option string)
    (channelId : string) (channelName : option string) (userName message : string)
    (attachments : list Attachment) s :
  StoreProps.storeOk s ->
  Manager.processingLocks s !! channelId = None ->
  Manager.historyOf channelId
    (processWithAgentSDK download channelId channelName userName message attachments s).2
  = Some (default [] (Manager.historyOf channelId s)
          ++ [{| role := user;
                 content := Blocks (messageContentOf download message attachments) |}]).
Proof.
  intros Hok Hlock. unfold processWithAgentSDK.
  pose proof (ManagerMore.sendMessage_store channelId (formattedMessage userName message)
                channelName (Some (messageContentOf download message attachments)) s) as H.
  cbv zeta in H. rewrite Hlock in H. unfold Manager.historyOf.
  destruct (Manager.conversationHistory s !! channelId) as [r|] eqn:Hr.
  - destruct H as [-> ->]. rewrite Hr.
    pose proof (StoreProps.refs_valid s Hok channelId r Hr) as Hlt.
    by apply list_lookup_insert_eq.
  - destruct H as [-> ->]. rewrite lookup_insert_eq. cbn.
    rewrite lookup_app_r by lia. by rewrite Nat.sub_diag.
Qed.

End WithWorld.

Lemma user_turn_is_the_blocks_witness :
  Manager.historyOf "c"
    (processWithAgentSDK (fun _ => None) "c" None "ann" "hello" []
       (Manager.init "prompt" tt)).2
  = Some [{| role := user; content := Blocks [Text "hello"] |}].
Proof.
  apply (user_turn_is_the_blocks (fun _ => None) "c" None "ann" "hello" []
           (Manager.init "prompt" tt)).
  - apply ManagerMore.storeOk_init.
  - reflexivity.
Defined.

End CliqFacts.

(** ** Properties of the Meet route *)

Module MeetRouteFacts.
Import JsString JsText MeetRoute.

Lemma add_NoDup (x : string) (set : list string) : NoDup set -> NoDup (add x set).
Proof.
  intros Hnd. unfold add. case_bool_decide as Hin; [done|].
  apply NoDup_app. split; [done|]. split; [|apply NoDup_singleton].
  intros y Hy Hy'. apply list_elem_of_singleton in Hy' as ->. done.
Qed.

Lemma add_length (x : string) (set : list string) : length (add x set) <= S (length set).
Proof. unfold add. case_bool_decide; [lia|]. rewrite length_app. cbn. lia. Qed.

Lemma add_elem (x : string) (set : list string) : x ∈ add x set.
Proof. unfold add. case_bool_decide; [done|]. set_solver. Qed.

Lemma drop1_NoDup (l : list string) : NoDup l -> NoDup (drop 1 l).
Proof. destruct l as [|x l]; [done|]. cbn. rewrite drop_0. by intros [_ ?]%NoDup_cons. Qed.

(** What marking does to the set of the bot, and that it leaves the others. *)
Lemma mark_lookup (botId speaker transcript : string) (p : gmap string (list string)) :
  let hash := getTranscriptHash botId speaker transcript in
  let history := add hash (default [] (p !! botId)) in
  markTranscriptProcessed botId speaker transcript p !! botId
  = Some (if Nat.ltb MAX_HISTORY (length history) then drop 1 history else history)
  /\ forall b, b <> botId ->
       markTranscriptProcessed botId speaker transcript p !! b = p !! b.
Proof.
  intros hash history. subst hash history. unfold markTranscriptProcessed.
  destruct (p !! botId) as [h|] eqn:Hp.
  - rewrite Hp. cbn [default]. split; [apply lookup_insert_eq|].
    intros b Hb. by apply lookup_insert_ne.
  - assert (Hnew : <[botId := []]> p !! botId = Some ([] : list string))
      by apply lookup_insert_eq.
    rewrite Hnew. cbn [default]. split; [apply lookup_insert_eq|].
    intros b Hb. rewrite lookup_insert_ne by done. by apply lookup_insert_ne.
Qed.

Lemma bounded_mark (botId speaker transcript : string) (p : gmap string (list string)) :
  bounded p -> bounded (markTranscriptProcessed botId speaker transcript p).
Proof.
  intros Hp b history.
  destruct (mark_lookup botId speaker transcript p) as [Hsame Hother].
  destruct (decide (b = botId)) as [->|Hne].
  - rewrite Hsame. intros [= <-].
    set (hash := getTranscriptHash botId speaker transcript).
    assert (Hold : length (default [] (p !! botId)) <= MAX_HISTORY
                   /\ NoDup (default [] (p !! botId))).
    { destruct (p !! botId) as [h|] eqn:Hb; cbn; [by apply (Hp botId)|].
      split; [lia|apply NoDup_nil_2]. }
    destruct Hold as [Hlen Hnd].
    pose proof (add_length hash (default [] (p !! botId))) as Hal.
    pose proof (add_NoDup hash _ Hnd) as Han.
    destruct (Nat.ltb MAX_HISTORY (length (add hash (default [] (p !! botId))))) eqn:Hlt.
    + split; [|by apply drop1_NoDup]. rewrite length_drop. lia.
    + apply Nat.ltb_ge in Hlt. done.
  - rewrite Hother by done. apply Hp.
Qed.

Lemma bounded_marked (p : gmap string (list string)) : marked p -> bounded p.
Proof.
  intros [ms ->]. unfold markAll.
  induction ms as [|m ms IH] using rev_ind.
  - intros b h. cbn. by rewrite lookup_empty.
  - rewrite foldl_app. cbn. by apply bounded_mark.
Qed.

(** X22: whatever transcripts were marked, the table keeps for every bot
    at most ten hashes, each of them once. *)
Theorem dedupe_history_bounded (p : gmap string (list string)) (botId : string) (history : list string) :
  marked p ->
  p !! botId = Some history ->
  length history <= 10 /\ NoDup history.
Proof. intros Hm. by apply (bounded_marked p Hm). Qed.

Lemma dedupe_history_bounded_witness :
  exists history,
    markAll [("b", "ann", "hello"); ("b", "ann", "Hello ")] ∅ !! "b" = Some history
    /\ length history <= 10 /\ NoDup history.
Proof.
  assert (H : exists history,
    markAll [("b", "ann", "hello"); ("b", "ann", "Hello ")] ∅ !! "b" = Some history).
  { vm_compute. eexists. reflexivity. }
  destruct H as [history H]. exists history. split; [exact H|].
  apply (dedupe_history_bounded
           (markAll [("b", "ann", "hello"); ("b", "ann", "Hello ")] ∅) "b" history);
    [|exact H].
  eexists. reflexivity.
Defined.

(** X23: a transcript that was just marked is taken for processed, and so
    is any transcript of the same bot and speaker that differs from it only
    by white space at the ends or by the case of its letters. *)
Theorem marked_transcript_is_recognised (p : gmap string (list string))
    (botId speaker transcript transcript' : string) :
  marked p ->
  toLowerCase (trim transcript') = toLowerCase (trim transcript) ->
  isTranscriptProcessed botId speaker transcript'
    (markTranscriptProcessed botId speaker transcript p) = true.
Proof.
  intros Hm Hnorm. apply bounded_marked in Hm.
  unfold isTranscriptProcessed.
  destruct (mark_lookup botId speaker transcript p) as [-> _].
  assert (Hh : getTranscriptHash botId speaker transcript'
               = getTranscriptHash botId speaker transcript).
  { unfold getTranscriptHash. by rewrite Hnorm. }
  rewrite Hh. set (hash := getTranscriptHash botId speaker transcript).
  apply bool_decide_eq_true.
  assert (Hold : length (default [] (p !! botId)) <= MAX_HISTORY).
  { destruct (p !! botId) as [h|] eqn:Hb; cbn; [by apply (Hm botId)|lia]. }
  unfold add. case_bool_decide as Hin.
  - replace (Nat.ltb MAX_HISTORY _) with false; [done|].
    symmetry. by apply Nat.ltb_ge.
  - destruct (Nat.ltb MAX_HISTORY _) eqn:Hlt; [|set_solver].
    destruct (default [] (p !! botId)) as [|x l]; cbn in *.
    + unfold MAX_HISTORY in Hlt. discriminate.
    + rewrite drop_0. set_solver.
Qed.

Lemma marked_transcript_is_recognised_witness :
  isTranscriptProcessed "b" "ann" "  HELLO there "
    (markTranscriptProcessed "b" "ann" "Hello there" ∅) = true.
Proof.
  apply marked_transcript_is_recognised.
  - exists []. reflexivity.
  - vm_compute. reflexivity.
Defined.

(** X24: the table forgets in the order of arrival: with ten hashes kept
    for a bot, marking a transcript that is not among them drops the oldest
    one, which is then no longer taken for processed. *)
Theorem eleventh_transcript_evicts_first (p : gmap string (list string))
    (botId speaker transcript : string) (oldest : string) (others : list string) :
  marked p ->
  p !! botId = Some (oldest :: others) ->
  length others = 9 ->
  getTranscriptHash botId speaker transcript ∉ oldest :: others ->
  markTranscriptProcessed botId speaker transcript p !! botId
  = Some (others ++ [getTranscriptHash botId speaker transcript])
  /\ oldest ∉ others ++ [getTranscriptHash botId speaker transcript].
Proof.
  intros Hm Hp Hlen Hnew. apply bounded_marked in Hm.
  destruct (Hm botId _ Hp) as [_ Hnd].
  destruct (mark_lookup botId speaker transcript p) as [-> _].
  rewrite Hp. cbn [default]. unfold add. rewrite bool_decide_eq_false_2 by done.
  replace (Nat.ltb MAX_HISTORY _) with true.
  2:{ symmetry. apply Nat.ltb_lt. rewrite length_app. cbn. unfold MAX_HISTORY. lia. }
  cbn. rewrite drop_0. split; [done|].
  apply NoDup_cons in Hnd as [Hx _].
  rewrite not_elem_of_app. split; [done|].
  rewrite list_elem_of_singleton. intros ->. apply Hnew. left.
Qed.

Lemma eleventh_transcript_evicts_first_witness :
  isTranscriptProcessed "b" "ann" "t0" (markAll tenTranscripts ∅) = true
  /\ isTranscriptProcessed "b" "ann" "t0"
       (markTranscriptProcessed "b" "ann" "t10" (markAll tenTranscripts ∅)) = false.
Proof.
  split; [vm_compute; reflexivity|].
  assert (Hp : markAll tenTranscripts ∅ !! "b"
               = Some ("b:ann:t0" :: ["b:ann:t1"; "b:ann:t2"; "b:ann:t3"; "b:ann:t4";
                                      "b:ann:t5"; "b:ann:t6"; "b:ann:t7"; "b:ann:t8";
                                      "b:ann:t9"])).
  { vm_compute. reflexivity. }
  assert (Hnew : getTranscriptHash "b" "ann" "t10" ∉
                 "b:ann:t0" :: ["b:ann:t1"; "b:ann:t2"; "b:ann:t3"; "b:ann:t4";
                                "b:ann:t5"; "b:ann:t6"; "b:ann:t7"; "b:ann:t8";
                                "b:ann:t9"]).
  { intros H. repeat (apply elem_of_cons in H as [H|H]; [discriminate H|]).
    by apply elem_of_nil in H. }
  destruct (eleventh_transcript_evicts_first (markAll tenTranscripts ∅) "b" "ann" "t10" _ _
              (ex_intro _ tenTranscripts eq_refl) Hp eq_refl Hnew) as [Hafter Hgone].
  unfold isTranscriptProcessed. rewrite Hafter.
  apply bool_decide_eq_false. exact Hgone.
Defined.

End MeetRouteFacts.

(** ** Properties of the transcript buffers *)

Module BufferingFacts.
Import JsString JsText Buffering.

Lemma steps_app (es1 es2 : list Event) (s : State) :
  steps (es1 ++ es2) s
  = match steps es1 s with Some s' => steps es2 s' | None => None end.
Proof.
  revert s. induction es1 as [|e es1 IH]; intros s; cbn; [done|].
  destruct (step e s); [apply IH|done].
Qed.

Lemma heard_app (b : string) (es1 es2 : list Event) :
  heard b (es1 ++ es2) = heard b es1 ++ heard b es2.
Proof.
  induction es1 as [|e es1 IH]; cbn; [done|].
  destruct e; try done. destruct (String.eqb botId b); cbn; by rewrite IH.
Qed.

Lemma sentFor_app (b : string) (s : State) (m : Sent) (out : list Sent) :
  outbox s = out ++ [m] ->
  sentFor b s
  = List.filter (fun m => String.eqb (sent_botId m) b) out
    ++ (if String.eqb (sent_botId m) b then [m] else []).
Proof. intros H. unfold sentFor. rewrite H, List.filter_app. done. Qed.

(** *** What each operation does to the buffers of a bot *)

Lemma bufferTranscript_effect (b spk text : string) (s : State) :
  let s' := bufferTranscript b spk text s in
  let bd := bufferOf b s in
  let item := {| speaker := spk; transcript := text; timestamp := clock s |} in
  clock s' = clock s /\ outbox s' = outbox s
  /\ (forall b', b' <> b -> transcriptBuffers s' !! b' = transcriptBuffers s !! b')
  /\ transcriptBuffers s' !! b
     = Some {| currentBuffer :=
                 if isProcessing bd then currentBuffer bd else currentBuffer bd ++ [item];
               pendingBuffer :=
                 if isProcessing bd then pendingBuffer bd ++ [item] else pendingBuffer bd;
               isProcessing := isProcessing bd;
               timer := if isProcessing bd then timer bd
                        else Some (clock s + BUFFER_TIMEOUT_MS)%Z;
               lastSpeaker := Some spk;
               speakers := add spk (speakers bd);
               lastTranscriptTime := clock s |}.
Proof.
  intros s' bd item. subst s' bd. unfold bufferTranscript, bufferOf.
  destruct (transcriptBuffers s !! b) as [bd|] eqn:Hb.
  - rewrite Hb. cbn. repeat split; [|apply lookup_insert_eq].
    intros b' Hne. by apply lookup_insert_ne.
  - rewrite lookup_insert_eq. cbn. repeat split; [|apply lookup_insert_eq].
    intros b' Hne. rewrite lookup_insert_ne by done. by apply lookup_insert_ne.
Qed.

Lemma processBufferedTranscripts_effect (b : string) (registry : MeetBots.Bots)
    (s : State) (bd : BufferData) :
  transcriptBuffers s !! b = Some bd ->
  let s' := processBufferedTranscripts b registry s in
  clock s' = clock s
  /\ (forall b', b' <> b -> transcriptBuffers s' !! b' = transcriptBuffers s !! b')
  /\ ((currentBuffer bd = [] /\ s' = s)
      \/ (currentBuffer bd <> []
          /\ transcriptBuffers s' !! b
             = Some {| currentBuffer := []; pendingBuffer := pendingBuffer bd;
                       isProcessing := true; timer := timer bd;
                       lastSpeaker := None; speakers := [];
                       lastTranscriptTime := lastTranscriptTime bd |}
          /\ exists m,
               outbox s' = outbox s ++ [m] /\ sent_at m = clock s /\ sent_botId m = b
               /\ sent_message m
                  = messageFor
                      (if Nat.eqb (length (newSet (speaker <$> currentBuffer bd))) 1
                       then default "null" (lastSpeaker bd) else "Multiple speakers")
                      (currentBuffer bd))).
Proof.
  intros Hb s'. subst s'. unfold processBufferedTranscripts. rewrite Hb.
  destruct (currentBuffer bd) as [|i l] eqn:Hc.
  - split; [done|]. split; [done|]. by left.
  - cbn [clock transcriptBuffers outbox].
    split; [done|]. split; [intros b' Hne; by apply lookup_insert_ne|].
    right. split; [done|]. split; [apply lookup_insert_eq|].
    eexists. split; [reflexivity|]. done.
Qed.

Lemma finishProcessing_effect (b : string) (s : State) (bd : BufferData) :
  transcriptBuffers s !! b = Some bd ->
  let s' := finishProcessing b s in
  clock s' = clock s /\ outbox s' = outbox s
  /\ (forall b', b' <> b -> transcriptBuffers s' !! b' = transcriptBuffers s !! b')
  /\ transcriptBuffers s' !! b
     = Some (match pendingBuffer bd with
             | [] => {| currentBuffer := currentBuffer bd; pendingBuffer := [];
                        isProcessing := false; timer := timer bd;
                        lastSpeaker := lastSpeaker bd; speakers := speakers bd;
                        lastTranscriptTime := lastTranscriptTime bd |}
             | _ :: _ =>
                 {| currentBuffer := pendingBuffer bd; pendingBuffer := [];
                    isProcessing := false;
                    timer := Some (clock s + BUFFER_TIMEOUT_MS)%Z;
                    lastSpeaker := speaker <$> last (pendingBuffer bd);
                    speakers := foldl (fun set item => add (speaker item) set) []
                                      (pendingBuffer bd);
                    lastTranscriptTime := lastTranscriptTime bd |}
             end).
Proof.
  intros Hb s'. subst s'. unfold finishProcessing, processPendingBuffer. rewrite Hb.
  cbn [transcriptBuffers clock outbox]. rewrite lookup_insert_eq.
  cbn [pendingBuffer]. destruct (pendingBuffer bd) as [|i l] eqn:Hp.
  - cbn. repeat split; [|apply lookup_insert_eq].
    intros b' Hne. by apply lookup_insert_ne.
  - cbn. repeat split; [|apply lookup_insert_eq].
    intros b' Hne. rewrite lookup_insert_ne by done. by apply lookup_insert_ne.
Qed.

Lemma bufferOf_ext (b : string) (s s' : State) :
  transcriptBuffers s' !! b = transcriptBuffers s !! b -> bufferOf b s' = bufferOf b s.
Proof. unfold bufferOf. by intros ->. Qed.

Lemma bufferOf_Some (b : string) (s : State) (bd : BufferData) :
  transcriptBuffers s !! b = Some bd -> bufferOf b s = bd.
Proof. unfold bufferOf. by intros ->. Qed.

(** *** The invariant *)

Lemma orderly_init (b : string) : orderly (bufferOf b init) (clock init) (sentFor b init) [].
Proof.
  split; cbn; try done.
  exists []. split; [constructor|done].
Qed.

Lemma orderly_later bd now now' sent hd :
  (now <= now')%Z -> orderly bd now sent hd -> orderly bd now' sent hd.
Proof.
  intros Hle [H1 H2 H3 H4 H5]. split; try done.
  eapply Forall_impl; [exact H4|]. cbn. intros; lia.
Qed.

Lemma last_snoc {A} (l : list A) (x : A) : last (l ++ [x]) = Some x.
Proof. induction l as [|y [|z l] IH]; cbn in *; done. Qed.

Lemma orderly_heard bd now sent hd spk text :
  orderly bd now sent hd ->
  let item := {| speaker := spk; transcript := text; timestamp := now |} in
  orderly {| currentBuffer :=
               if isProcessing bd then currentBuffer bd else currentBuffer bd ++ [item];
             pendingBuffer :=
               if isProcessing bd then pendingBuffer bd ++ [item] else pendingBuffer bd;
             isProcessing := isProcessing bd;
             timer := if isProcessing bd then timer bd
                      else Some (now + BUFFER_TIMEOUT_MS)%Z;
             lastSpeaker := Some spk;
             speakers := add spk (speakers bd);
             lastTranscriptTime := now |}
          now sent (hd ++ [(spk, text)]).
Proof.
  intros [H1 H2 H3 H4 H5] item. destruct (isProcessing bd) eqn:Hp.
  - destruct (H1 eq_refl) as [Ht Hc]. split; cbn.
    + done.
    + discriminate.
    + intros d Hd. rewrite Ht in Hd. discriminate.
    + rewrite app_assoc. apply Forall_app. split; [done|].
      constructor; [cbn; lia|constructor].
    + destruct H5 as (batches & Hb & Hhd). exists batches. split; [done|].
      rewrite <- Hhd, !app_assoc, fmap_app. done.
  - destruct (H2 eq_refl) as [Hpend Hcur]. split; cbn.
    + discriminate.
    + intros _. split; [done|]. intros _. split; [by eexists|].
      by rewrite last_snoc.
    + intros d [= <-]. apply Forall_app. split.
      * rewrite Hpend, app_nil_r in H4. eapply Forall_impl; [exact H4|].
        cbn. intros; lia.
      * constructor; [cbn; lia|constructor].
    + rewrite Hpend, app_nil_r in *. apply Forall_app. split; [done|].
      constructor; [cbn; lia|constructor].
    + destruct H5 as (batches & Hb & Hhd). exists batches. split; [done|].
      rewrite <- Hhd, Hpend, !app_nil_r, !app_assoc, fmap_app. done.
Qed.

Lemma orderly_step (b : string) (es : list Event) (e : Event) (s s' : State) :
  orderly (bufferOf b s) (clock s) (sentFor b s) (heard b es) ->
  step e s = Some s' ->
  orderly (bufferOf b s') (clock s') (sentFor b s') (heard b (es ++ [e])).
Proof.
  intros Hinv Hstep. rewrite heard_app.
  destruct e as [b0 spk text|b0 registry|b0|dt]; cbn in Hstep.
  - (* Heard *)
    injection Hstep as <-.
    destruct (bufferTranscript_effect b0 spk text s) as (Hclk & Hout & Hother & Hat).
    unfold sentFor. rewrite Hclk, Hout. cbn [heard].
    destruct (String.eqb_spec b0 b) as [->|Hne].
    + rewrite (bufferOf_Some _ _ _ Hat). by apply orderly_heard.
    + rewrite (bufferOf_ext b s _) by (apply Hother; congruence).
      by rewrite app_nil_r.
  - (* Fire *)
    cbn [heard]. rewrite app_nil_r.
    destruct (transcriptBuffers s !! b0) as [bd|] eqn:Hb0; [|done].
    destruct (timer bd) as [d|] eqn:Ht; [|done].
    destruct (d <=? clock s)%Z eqn:Hd; [|done]. apply Z.leb_le in Hd.
    injection Hstep as <-.
    set (fired := {| currentBuffer := currentBuffer bd;
                     pendingBuffer := pendingBuffer bd;
                     isProcessing := isProcessing bd; timer := None;
                     lastSpeaker := lastSpeaker bd; speakers := speakers bd;
                     lastTranscriptTime := lastTranscriptTime bd |}).
    set (s1 := {| transcriptBuffers := <[b0 := fired]> (transcriptBuffers s);
                  clock := clock s; outbox := outbox s |}).
    assert (H1 : transcriptBuffers s1 !! b0 = Some fired) by apply lookup_insert_eq.
    destruct (processBufferedTranscripts_effect b0 registry s1 fired H1)
      as (Hclk & Hother & Hcase).
    rewrite Hclk. cbn [clock s1].
    destruct (String.eqb_spec b0 b) as [->|Hne].
    + pose proof (bufferOf_Some _ _ _ Hb0) as Hbd. rewrite Hbd in Hinv.
      destruct Hinv as [I1 I2 I3 I4 I5].
      assert (Hidle : isProcessing bd = false).
      { destruct (isProcessing bd); [|done]. destruct (I1 eq_refl) as [Hn _]. congruence. }
      destruct (I2 Hidle) as [Hpend Hcur].
      destruct Hcase as [[Hempty ->]|(Hfull & Hat & m & Hout & Hm_at & Hm_bot & Hm_msg)].
      * rewrite (bufferOf_Some _ _ _ H1). unfold sentFor. cbn [outbox s1].
        cbn [currentBuffer fired] in Hempty.
        split; cbn; try done.
      * rewrite (bufferOf_Some _ _ _ Hat).
        rewrite (sentFor_app b _ m (outbox s) Hout), Hm_bot, String.eqb_refl.
        cbn [currentBuffer lastSpeaker fired] in Hfull, Hm_msg.
        destruct (Hcur Hfull) as [_ Hlast].
        split; cbn; try done.
        -- rewrite Hpend in I4 |- *. rewrite app_nil_r in I4. constructor.
        -- destruct I5 as (batches & Hb & Hhd).
           exists (batches ++ [currentBuffer bd]). split.
           ++ apply Forall2_app; [exact Hb|]. constructor; [|constructor].
              split; [done|]. split.
              ** rewrite Hm_msg. unfold render. by rewrite Hlast.
              ** rewrite Hm_at. eapply Forall_impl; [exact (I3 d Ht)|].
                 cbn. intros; lia.
           ++ rewrite <- Hhd, Hpend, concat_app. cbn. by rewrite !app_nil_r.
    + assert (Hsame : transcriptBuffers (processBufferedTranscripts b0 registry s1) !! b
                      = transcriptBuffers s !! b).
      { rewrite Hother by congruence. cbn. apply lookup_insert_ne. congruence. }
      rewrite (bufferOf_ext b s _ Hsame).
      destruct Hcase as [[_ ->]|(_ & _ & m & Hout & _ & Hm_bot & _)]; [done|].
      rewrite (sentFor_app b _ m (outbox s) Hout), Hm_bot.
      destruct (String.eqb_spec b0 b) as [?|_]; [done|]. by rewrite app_nil_r.
  - (* Done *)
    cbn [heard]. rewrite app_nil_r.
    destruct (transcriptBuffers s !! b0) as [bd|] eqn:Hb0; [|done].
    destruct (isProcessing bd) eqn:Hp; [|done]. injection Hstep as <-.
    destruct (finishProcessing_effect b0 s bd Hb0) as (Hclk & Hout & Hother & Hat).
    unfold sentFor. rewrite Hclk, Hout.
    destruct (String.eqb_spec b0 b) as [->|Hne].
    + rewrite (bufferOf_Some _ _ _ Hat).
      pose proof (bufferOf_Some _ _ _ Hb0) as Hbd. rewrite Hbd in Hinv.
      destruct Hinv as [I1 I2 I3 I4 I5]. destruct (I1 Hp) as [Ht Hc].
      rewrite Hc in *. cbn [app] in *.
      destruct (pendingBuffer bd) as [|i l] eqn:Hpend.
      * split; cbn; try done.
      * split; cbn; try done.
        -- intros d [= <-]. eapply Forall_impl; [exact I4|]. cbn. intros; lia.
        -- by rewrite app_nil_r.
        -- destruct I5 as (batches & Hb & Hhd). exists batches. split; [done|].
           by rewrite app_nil_r.
    + by rewrite (bufferOf_ext b s _) by (apply Hother; congruence).
  - (* Wait *)
    cbn [heard]. rewrite app_nil_r.
    destruct (0 <=? dt)%Z eqn:Hd; [|done]. apply Z.leb_le in Hd.
    injection Hstep as <-.
    apply (orderly_later _ (clock s)); [cbn; lia|]. exact Hinv.
Qed.

Lemma orderly_steps (b : string) (es : list Event) (s : State) :
  steps es init = Some s ->
  orderly (bufferOf b s) (clock s) (sentFor b s) (heard b es).
Proof.
  revert s. induction es as [|e es IH] using rev_ind; intros s.
  - cbn. intros [= <-]. apply orderly_init.
  - rewrite steps_app. destruct (steps es init) as [s1|] eqn:Hs1; [|done].
    cbn. destruct (step e s1) as [s2|] eqn:He; [|done]. intros [= <-].
    eapply orderly_step; [by apply IH|done].
Qed.

(** X25: nothing that is heard is lost, doubled or reordered: the
    messages sent to the agent for a bot are made of consecutive batches of
    its transcripts, in the order they were heard, and what is not sent yet
    waits in the two buffers; a batch of one speaker names the speaker. *)
Theorem transcripts_delivered_in_order (b : string) (es : list Event) (s : State) :
  steps es init = Some s ->
  exists batches,
    sent_message <$> sentFor b s = render <$> batches
    /\ Forall (fun batch => batch <> []) batches
    /\ said <$> (concat batches ++ currentBuffer (bufferOf b s)
                 ++ pendingBuffer (bufferOf b s))
       = heard b es.
Proof.
  intros Hs. destruct (orderly_steps b es s Hs) as [_ _ _ _ (batches & Hb & Hhd)].
  exists batches. split; [|split; [|done]].
  - clear Hhd. induction Hb as [|batch m bs ms (_ & Hm & _) _ IH]; cbn; [done|].
    by rewrite Hm, IH.
  - clear Hhd. induction Hb as [|batch m bs ms (Hne & _) _ IH]; constructor; done.
Qed.



End BufferingFacts.

Module BufferingExamples.
Import JsString JsText Buffering.

Lemma meeting_runs : exists s, steps meeting init = Some s.
Proof. vm_compute. eexists. reflexivity. Defined.

Lemma transcripts_delivered_in_order_witness :
  exists s batches,
    steps meeting init = Some s
    /\ sent_message <$> sentFor "b" s = render <$> batches
    /\ Forall (fun batch => batch <> []) batches
    /\ said <$> (concat batches ++ currentBuffer (bufferOf "b" s)
                 ++ pendingBuffer (bufferOf "b" s))
       = heard "b" meeting.
Proof.
  destruct meeting_runs as [s Hs].
  destruct (BufferingFacts.transcripts_delivered_in_order "b" meeting s Hs)
    as (batches & H).
  exists s, batches. split; [exact Hs|exact H].
Defined.



End BufferingExamples.

(** ** Properties of the update_memory tool *)

Module MemoryFacts.
Import JsString JsText UpdateMemory.

Lemma split_cons (s : string) : exists line lines, split s = line :: lines.
Proof.
  destruct s as [|c s]; cbn; [by eexists _, _|].
  destruct (Nat.eqb (nat_of_ascii c) 10); [by eexists _, _|].
  destruct (split s); by eexists _, _.
Qed.

Lemma is_LF (c : ascii) : Nat.eqb (nat_of_ascii c) 10 = true -> String c EmptyString = LF.
Proof.
  intros H. apply Nat.eqb_eq in H. unfold LF. f_equal.
  by rewrite <- H, ascii_nat_embedding.
Qed.

Lemma join_cons (sep x : string) (y : string) (rest : list string) :
  join sep (x :: y :: rest) = x +:+ sep +:+ join sep (y :: rest).
Proof. reflexivity. Qed.

Lemma append_cons (c : ascii) (a b : string) : String c a +:+ b = String c (a +:+ b).
Proof. reflexivity. Qed.

Lemma append_nil_l (b : string) : EmptyString +:+ b = b.
Proof. reflexivity. Qed.

Lemma join_split (s : string) : join LF (split s) = s.
Proof.
  induction s as [|c s IH]; [reflexivity|]. cbn [split].
  destruct (split_cons s) as (line & lines & Hs). rewrite Hs in IH |- *.
  destruct (Nat.eqb (nat_of_ascii c) 10) eqn:Hc.
  - rewrite join_cons, IH, append_nil_l, <- (is_LF c Hc). reflexivity.
  - destruct lines as [|l2 lines].
    + cbn [join] in IH |- *. by rewrite IH.
    + rewrite join_cons in IH |- *. by rewrite append_cons, IH.
Qed.

Lemma prefix_first_line (s : string) :
  String.prefix (default EmptyString (head (split s))) s = true.
Proof.
  induction s as [|c s IH]; [reflexivity|]. cbn [split].
  destruct (Nat.eqb (nat_of_ascii c) 10); [reflexivity|].
  destruct (split_cons s) as (line & lines & Hs). rewrite Hs in IH |- *.
  cbn in IH |- *. destruct (ascii_dec c c); [exact IH|done].
Qed.

Lemma includes_prefix (s sub : string) :
  String.prefix sub s = true -> includes s sub = true.
Proof. intros H. destruct s; cbn [includes]; by rewrite H. Qed.

(** A line of a text occurs in the text. *)
Lemma line_included (s line : string) : line ∈ split s -> includes s line = true.
Proof.
  induction s as [|c s IH].
  - cbn. intros H. apply list_elem_of_singleton in H as ->. reflexivity.
  - cbn [split]. destruct (split_cons s) as (l0 & lines & Hs).
    pose proof (prefix_first_line s) as Hp. rewrite Hs in IH, Hp |- *. cbn in Hp.
    destruct (Nat.eqb (nat_of_ascii c) 10).
    + intros H. apply elem_of_cons in H as [->|H]; [reflexivity|].
      cbn [includes]. rewrite (IH H). by rewrite orb_true_r.
    + intros H. apply elem_of_cons in H as [->|H].
      * apply includes_prefix. cbn. destruct (ascii_dec c c); [exact Hp|done].
      * cbn [includes]. rewrite IH; [by rewrite orb_true_r|]. by right.
Qed.

(** *** The two loops *)

Lemma afterHeader_spec (header : string) (lines : list string) (i : nat) :
  match afterHeader header lines i with
  | Some k =>
      i < k <= i + length lines
      /\ lines !! (k - 1 - i) = Some header
      /\ forall j, j < k - 1 - i -> lines !! j <> Some header
  | None => header ∉ lines
  end.
Proof.
  revert i. induction lines as [|line rest IH]; intros i; cbn [afterHeader].
  - apply not_elem_of_nil.
  - destruct (String.eqb_spec line header) as [->|Hne].
    + replace (S i - 1 - i) with 0 by lia. cbn [length].
      split; [lia|]. split; [done|]. lia.
    + specialize (IH (S i)). destruct (afterHeader header rest (S i)) as [k|].
      * destruct IH as (Hk & Hat & Hbefore). cbn [length]. split; [lia|].
        replace (k - 1 - i) with (S (k - 1 - S i)) by lia. split; [exact Hat|].
        intros [|j] Hj; cbn; [congruence|]. apply Hbefore. lia.
      * apply not_elem_of_cons. split; [congruence|done].
Qed.

Lemma nextSection_spec (lines : list string) (i : nat) :
  let k := nextSection lines i in
  i <= k <= i + length lines
  /\ (forall j line, j < k - i -> lines !! j = Some line -> startsWith line "## " = false)
  /\ (forall line, lines !! (k - i) = Some line -> startsWith line "## " = true).
Proof.
  revert i. induction lines as [|line rest IH]; intros i; cbn [nextSection].
  - cbn. split; [lia|]. split; [|done]. intros j l Hj. lia.
  - destruct (startsWith line "## ") eqn:Hs.
    + cbn. replace (i - i) with 0 by lia. split; [lia|]. split.
      * intros j l Hj. lia.
      * intros l [= <-]. exact Hs.
    + destruct (IH (S i)) as (Hk & Hbefore & Hat). cbn zeta. cbn [length].
      split; [lia|]. split.
      * intros [|j] l Hj; cbn; [by intros [= <-]|]. apply Hbefore. lia.
      * intros l. replace (nextSection rest (S i) - i)
          with (S (nextSection rest (S i) - S i)) by lia. apply Hat.
Qed.

Lemma updated_inserts (memory note category today : string) :
  let newEntry := "- [" +:+ today +:+ "] " +:+ note in
  (exists lines k,
     memory = join LF lines /\ k <= length lines
     /\ updated memory note category today
        = join LF (take k lines ++ newEntry :: drop k lines))
  \/ updated memory note category today
     = memory +:+ LF +:+ ("## " +:+ category) +:+ LF +:+ newEntry +:+ LF.
Proof.
  intros newEntry. unfold updated.
  destruct (includes memory ("## " +:+ category)); [left|by right].
  exists (split memory), (insertIndexOf ("## " +:+ category) (split memory)).
  split; [by rewrite join_split|]. split; [|reflexivity].
  unfold insertIndexOf.
  set (start := default 0 (afterHeader ("## " +:+ category) (split memory) 0)).
  assert (Hstart : start <= length (split memory)).
  { subst start. pose proof (afterHeader_spec ("## " +:+ category) (split memory) 0) as H.
    destruct (afterHeader _ _ 0); cbn; [lia|lia]. }
  pose proof (nextSection_spec (drop start (split memory)) start) as (Hk & _).
  rewrite length_drop in Hk. lia.
Qed.

(** X28: a note never costs a line of the memory: whatever the tool
    writes is the text it read (or the heading of a new memory, when there is
    no file) with one line inserted, or, when the text does not contain the
    header of the category, with a new section at its end. *)
Theorem memory_keeps_every_line (stored : option (Result string)) (written : Result unit)
    (note category today text : string) :
  (execute stored written note category today).2 = Some text ->
  let memory := match stored with Some (Ok content) => content | _ => freshMemory end in
  let newEntry := "- [" +:+ today +:+ "] " +:+ note in
  (exists lines k,
     memory = join LF lines /\ k <= length lines
     /\ text = join LF (take k lines ++ newEntry :: drop k lines))
  \/ text = memory +:+ LF +:+ ("## " +:+ category) +:+ LF +:+ newEntry +:+ LF.
Proof.
  intros Hex memory newEntry.
  assert (Htext : text = updated memory note category today).
  { subst memory. unfold execute in Hex.
    destruct stored as [[content|message]|], written as [u|message'];
      cbn in Hex; congruence. }
  rewrite Htext. apply updated_inserts.
Qed.

Lemma memory_keeps_every_line_witness :
  exists text,
    (execute None (Ok tt) "note" "jira" "2025-01-01").2 = Some text
    /\ ((exists lines k,
           freshMemory = join LF lines /\ k <= length lines
           /\ text = join LF (take k lines ++ "- [2025-01-01] note" :: drop k lines))
        \/ text = freshMemory +:+ LF +:+ "## jira" +:+ LF +:+ "- [2025-01-01] note" +:+ LF).
Proof.
  eexists. split; [reflexivity|].
  apply (memory_keeps_every_line None (Ok tt) "note" "jira" "2025-01-01").
  reflexivity.
Defined.

(** X29: when a line of the memory is the header of the category, the
    note is put at the end of the section that follows the first such line:
    after the header, with no header of a section between, and just before
    the next header or at the end of the text. *)
Theorem entry_goes_to_end_of_its_section
    (memory note category today : string) (i : nat) :
  let lines := split memory in
  let header := "## " +:+ category in
  let k := insertIndexOf header lines in
  lines !! i = Some header ->
  (forall j, j < i -> lines !! j <> Some header) ->
  updated memory note category today
    = join LF (take k lines ++ ("- [" +:+ today +:+ "] " +:+ note) :: drop k lines)
  /\ i < k <= length lines
  /\ (forall j line, i < j < k -> lines !! j = Some line -> startsWith line "## " = false)
  /\ (forall line, lines !! k = Some line -> startsWith line "## " = true).
Proof.
  intros lines header k Hi Hfirst.
  assert (Hin : header ∈ lines) by (by eapply list_elem_of_lookup_2).
  split.
  { unfold updated. fold header. rewrite (line_included memory header Hin). reflexivity. }
  subst k. unfold insertIndexOf.
  pose proof (afterHeader_spec header lines 0) as Ha.
  destruct (afterHeader header lines 0) as [start|]; [|done].
  destruct Ha as (Hs & Hat & Hbefore).
  change (default 0 (Some start)) with start.
  rewrite Nat.sub_0_r in Hat, Hbefore.
  assert (Hstart : start = S i).
  { destruct (Nat.lt_trichotomy (start - 1) i) as [Hlt|[Heq|Hgt]]; [|lia|].
    - exfalso. by apply (Hfirst (start - 1)).
    - exfalso. by apply (Hbefore i). }
  subst start.
  pose proof (nextSection_spec (drop (S i) lines) (S i)) as (Hk & Hnone & Hnext).
  rewrite length_drop in Hk.
  assert (Hlen : i < length lines) by (by eapply lookup_lt_Some).
  split; [lia|]. split.
  - intros j line Hj Hl. apply (Hnone (j - S i) line); [lia|].
    rewrite lookup_drop. by replace (S i + (j - S i)) with j by lia.
  - intros line Hl. apply Hnext. rewrite lookup_drop.
    by replace (S i + (nextSection (drop (S i) lines) (S i) - S i))
      with (nextSection (drop (S i) lines) (S i)) by lia.
Qed.

Lemma entry_goes_to_end_of_its_section_witness :
  updated twoSections "note" "jira" "2025-01-01"
  = "# Memory" +:+ LF +:+ "## jira" +:+ LF +:+ "- a" +:+ LF
    +:+ "- [2025-01-01] note" +:+ LF +:+ "## workflow" +:+ LF +:+ "- b".
Proof.
  assert (H1 : split twoSections !! 1 = Some ("## " +:+ "jira")) by reflexivity.
  assert (H2 : forall j, j < 1 -> split twoSections !! j <> Some ("## " +:+ "jira")).
  { intros [|j] Hj; [discriminate|lia]. }
  destruct (entry_goes_to_end_of_its_section twoSections "note" "jira" "2025-01-01" 1
              H1 H2) as [-> _].
  reflexivity.
Defined.

(** X30: when the text contains the header of the category but no line
    is that header (the header is part of a longer line), no section is made
    for the category: the note is put in front of the first section of the
    memory, or at its end when there is none. *)
Theorem substring_header_misfiles_entry (memory note category today : string) :
  let lines := split memory in
  let header := "## " +:+ category in
  let k := nextSection lines 0 in
  includes memory header = true ->
  header ∉ lines ->
  updated memory note category today
    = join LF (take k lines ++ ("- [" +:+ today +:+ "] " +:+ note) :: drop k lines)
  /\ (forall j line, j < k -> lines !! j = Some line -> startsWith line "## " = false).
Proof.
  intros lines header k Hinc Hno. subst k.
  assert (Hk : insertIndexOf header lines = nextSection lines 0).
  { unfold insertIndexOf. pose proof (afterHeader_spec header lines 0) as Ha.
    destruct (afterHeader header lines 0) as [start|]; [|by rewrite drop_0].
    destruct Ha as (_ & Hat & _). exfalso. apply Hno.
    by eapply list_elem_of_lookup_2. }
  split.
  - unfold updated. fold header. rewrite Hinc. fold lines. by rewrite Hk.
  - intros j line Hj Hl.
    pose proof (nextSection_spec lines 0) as (_ & Hnone & _).
    apply (Hnone j line); [lia|done].
Qed.

Lemma substring_header_misfiles_entry_witness :
  updated mentionOnly "note" "jira" "2025-01-01"
  = "# Memory" +:+ LF +:+ "see ## jira below" +:+ LF
    +:+ "- [2025-01-01] note" +:+ LF +:+ "## workflow" +:+ LF +:+ "- b".
Proof.
  assert (H1 : includes mentionOnly ("## " +:+ "jira") = true) by reflexivity.
  assert (H2 : ("## " +:+ "jira") ∉ split mentionOnly).
  { intros H. repeat (apply elem_of_cons in H as [H|H]; [discriminate H|]).
    by apply elem_of_nil in H. }
  destruct (substring_header_misfiles_entry mentionOnly "note" "jira" "2025-01-01" H1 H2)
    as [-> _].
  reflexivity.
Defined.

End MemoryFacts.
